(** * Transcript accumulator: a shallow embedding of
    [src/asr/transcript_accumulator.py] and the properties of its
    reconciliation state machine.

    Conventions of the embedding.
    - A Python [str] is a [string]; a character is a code point below 256
      (Rocq's [ascii] read as Latin-1), with the classes [\s], [\w] and
      [str.lower] of Python 3 on that range.
    - Python integers are [Z].  The injected clock [time_fn] yields seconds;
      seconds are rationals [Q] and [int(x)] is truncation towards zero.
    - [time_fn] is modelled as the stream of its successive return values;
      the state records how many readings have been taken so far.
    - A [deque] or [list] is a [list]; indexing that Python would reject
      with [IndexError] yields [None] in the error monad [option]. *)

From Stdlib Require Import ZArith QArith Qround Ascii String Lia Bool.
From stdpp Require Import base option list sorting.

Local Open Scope Z_scope.

#[global] Instance string_eq_dec : EqDecision string := string_dec.

(** ** Characters and text *)

Module Text.

Definition code (c : ascii) : nat := nat_of_ascii c.

Definition in_range (lo hi : nat) (c : ascii) : bool :=
  (Nat.leb lo (code c)) && (Nat.leb (code c) hi).

(** The explicit class [A-Za-z0-9] of the tokenizer's pattern. *)
Definition is_alnum (c : ascii) : bool :=
  in_range 65 90 c || in_range 97 122 c || in_range 48 57 c.

(** [\s] on code points below 256: TAB..CR, FS..US, SPACE, NEL, NBSP. *)
Definition is_space (c : ascii) : bool :=
  in_range 9 13 c || in_range 28 32 c
  || Nat.eqb (code c) 133 || Nat.eqb (code c) 160.

(** [\w] on code points below 256: alphanumerics (in the Unicode sense)
    and the underscore. *)
Definition is_word (c : ascii) : bool :=
  is_alnum c || Nat.eqb (code c) 95
  || Nat.eqb (code c) 170 || in_range 178 179 c || Nat.eqb (code c) 181
  || in_range 185 186 c || in_range 188 190 c
  || in_range 192 214 c || in_range 216 246 c || in_range 248 255 c.

(** [str.lower] on one code point below 256. *)
Definition lower_char (c : ascii) : ascii :=
  if in_range 65 90 c || in_range 192 214 c || in_range 216 222 c
  then ascii_of_nat (code c + 32) else c.

Fixpoint lower (s : string) : string :=
  match s with
  | EmptyString => EmptyString
  | String c s' => String (lower_char c) (lower s')
  end.

(** The characters of [s] that [\s] does not match, in order. *)
Fixpoint strip_ws (s : string) : string :=
  match s with
  | EmptyString => EmptyString
  | String c s' => if is_space c then strip_ws s' else String c (strip_ws s')
  end.

(** Greedy [[A-Za-z0-9]*]: the longest alphanumeric prefix and the rest. *)
Fixpoint span_alnum (s : string) : string * string :=
  match s with
  | EmptyString => (EmptyString, EmptyString)
  | String c s' =>
      if is_alnum c
      then let (w, r) := span_alnum s' in (String c w, r)
      else (EmptyString, s)
  end.

(** One attempt of [_TOKENIZER] at the start of [s]:
    [[A-Za-z0-9]+(?:'[A-Za-z0-9]+)?|[^\sA-Za-z0-9]].
    Returns the matched token and the remaining text. *)
Definition match_token (s : string) : option (string * string) :=
  match s with
  | EmptyString => None
  | String c s' =>
      if is_alnum c then
        let (w, r) := span_alnum s in
        match r with
        | String "'"%char (String d r') =>
            if is_alnum d
            then let (w2, r2) := span_alnum (String d r') in
                 Some (w ++ String "'"%char w2, r2)%string
            else Some (w, r)
        | _ => Some (w, r)
        end
      else if is_space c then None
      else Some (String c EmptyString, s')
  end.

(** [re.findall]: scan left to right; where the pattern matches, emit the
    token and resume after it; where it does not, skip one character.
    [fuel] bounds the number of scan positions. *)
Fixpoint findall (fuel : nat) (s : string) : list string :=
  match fuel with
  | O => []
  | S fuel' =>
      match s with
      | EmptyString => []
      | String _ s' =>
          match match_token s with
          | Some (tok, rest) => tok :: findall fuel' rest
          | None => findall fuel' s'
          end
      end
  end.

Definition tokenize (text : string) : list string :=
  findall (String.length text) text.

(** [re.match(r"^[^\w\s]$", tok)]: one character that is neither a word
    character nor whitespace; [$] also matches before a final newline. *)
Definition is_punct_class (c : ascii) : bool :=
  negb (is_word c) && negb (is_space c).

Definition is_punct_token (tok : string) : bool :=
  match tok with
  | String c EmptyString => is_punct_class c
  | String c (String d EmptyString) =>
      is_punct_class c && Nat.eqb (code d) 10
  | _ => false
  end.

(** [out[-1] = out[-1] + tok] *)
Fixpoint append_to_last (out : list string) (tok : string) : list string :=
  match out with
  | [] => []
  | [x] => [(x ++ tok)%string]
  | x :: out' => x :: append_to_last out' tok
  end.

Definition detok_step (out : list string) (tok : string) : list string :=
  match out with
  | [] => [tok]
  | _ => if is_punct_token tok then append_to_last out tok
         else out ++ [(" " ++ tok)%string]
  end.

Definition detokenize (tokens : list string) : string :=
  String.concat "" (fold_left detok_step tokens []).

End Text.

(** ** Data model *)

(** [int(x)] on a number: truncation towards zero. *)
Definition py_int (q : Q) : Z := Z.quot (Qnum q) (Zpos (Qden q)).

(** [l[i:]] with Python's treatment of a negative start. *)
Definition slice_from {A} (i : Z) (l : list A) : list A :=
  if i <? 0 then drop (Z.to_nat (Z.of_nat (length l) + i)) l
  else drop (Z.to_nat i) l.

(** [l[:j]] for a length [j]. *)
Definition slice_to {A} (j : nat) (l : list A) : list A := take j l.

(** [l[i:j]] for indices [0 <= i]. *)
Definition slice {A} (i j : nat) (l : list A) : list A :=
  take (j - i) (drop i l).

Record Token := mkToken {
  text : string;
  confirmation_count : Z;
  first_seen_time : Q;
  last_seen_time : Q
}.

Record Snapshot := mkSnapshot {
  tokens : list Token;
  started_ms : Z;
  expiry_ms : Z;
  snap_segment_id : Z
}.

Record TimedText := mkTimedText {
  ts_ms : Z;
  tt_tokens : list string
}.

(** The keys of the [_metrics] dictionary.  The dictionary is created with
    all thirteen keys and only ever updated at literal keys, so it is a
    record here and no lookup can miss. *)
Inductive MetricKey :=
  | LateFinalHits | SnapshotExpiredCommits | OrphanRescues | SegmentRolls
  | WordsLostPreFix | TotalPartials | TotalFinals
  | TokensCommittedByStability | TokensCommittedByFinal
  | TokensCommittedByFlush | DedupFullBlocks | DedupPartialOverlaps
  | DedupTokensRemoved.

#[global] Instance MetricKey_eq_dec : EqDecision MetricKey.
Proof. solve_decision. Defined.

Record Metrics := mkMetrics {
  late_final_hits : Z;
  snapshot_expired_commits : Z;
  orphan_rescues : Z;
  segment_rolls : Z;
  words_lost_pre_fix : Z;
  total_partials : Z;
  total_finals : Z;
  tokens_committed_by_stability : Z;
  tokens_committed_by_final : Z;
  tokens_committed_by_flush : Z;
  dedup_full_blocks : Z;
  dedup_partial_overlaps : Z;
  dedup_tokens_removed : Z
}.

Definition map_metrics (f : MetricKey -> Z -> Z) (m : Metrics) : Metrics :=
  {| late_final_hits := f LateFinalHits (late_final_hits m);
     snapshot_expired_commits :=
       f SnapshotExpiredCommits (snapshot_expired_commits m);
     orphan_rescues := f OrphanRescues (orphan_rescues m);
     segment_rolls := f SegmentRolls (segment_rolls m);
     words_lost_pre_fix := f WordsLostPreFix (words_lost_pre_fix m);
     total_partials := f TotalPartials (total_partials m);
     total_finals := f TotalFinals (total_finals m);
     tokens_committed_by_stability :=
       f TokensCommittedByStability (tokens_committed_by_stability m);
     tokens_committed_by_final :=
       f TokensCommittedByFinal (tokens_committed_by_final m);
     tokens_committed_by_flush :=
       f TokensCommittedByFlush (tokens_committed_by_flush m);
     dedup_full_blocks := f DedupFullBlocks (dedup_full_blocks m);
     dedup_partial_overlaps :=
       f DedupPartialOverlaps (dedup_partial_overlaps m);
     dedup_tokens_removed := f DedupTokensRemoved (dedup_tokens_removed m) |}.

(** [_metrics[k] += n] *)
Definition bump (k : MetricKey) (n : Z) (m : Metrics) : Metrics :=
  map_metrics (fun k' v => if decide (k' = k) then v + n else v) m.

Definition zero_metrics : Metrics :=
  mkMetrics 0 0 0 0 0 0 0 0 0 0 0 0 0.

(** The constructor's arguments.  [max_segment_ms] and
    [partial_history_window_ms] are the values the constructor stores,
    [int(max_segment_s * 1000)] and [int(partial_history_window_s * 1000)]. *)
Record Config := mkConfig {
  K : Z;
  T_ms : Z;
  max_segment_ms : Z;
  awaiting_final_ttl_ms : Z;
  partial_history_window_ms : Z;
  dedup_enabled : bool;
  dedup_window_size : Z
}.

Definition default_config : Config :=
  mkConfig 2 1400 12000 5000 30000 true 30.

(** The accumulator's mutable fields, and the number of readings of
    [time_fn] taken so far. *)
Record State := mkState {
  stable : list string;
  pending_tokens : list Token;
  awaiting_final : list Snapshot;
  partial_history : list TimedText;
  segment_id : Z;
  segment_started_ms : option Z;
  metrics : Metrics;
  clock_reads : nat
}.

Definition set_stable (v : list string) (st : State) : State :=
  mkState v (pending_tokens st) (awaiting_final st) (partial_history st)
          (segment_id st) (segment_started_ms st) (metrics st)
          (clock_reads st).
Definition set_pending (v : list Token) (st : State) : State :=
  mkState (stable st) v (awaiting_final st) (partial_history st)
          (segment_id st) (segment_started_ms st) (metrics st)
          (clock_reads st).
Definition set_awaiting (v : list Snapshot) (st : State) : State :=
  mkState (stable st) (pending_tokens st) v (partial_history st)
          (segment_id st) (segment_started_ms st) (metrics st)
          (clock_reads st).
Definition set_history (v : list TimedText) (st : State) : State :=
  mkState (stable st) (pending_tokens st) (awaiting_final st) v
          (segment_id st) (segment_started_ms st) (metrics st)
          (clock_reads st).
Definition set_segment_id (v : Z) (st : State) : State :=
  mkState (stable st) (pending_tokens st) (awaiting_final st)
          (partial_history st) v (segment_started_ms st) (metrics st)
          (clock_reads st).
Definition set_segment_started (v : option Z) (st : State) : State :=
  mkState (stable st) (pending_tokens st) (awaiting_final st)
          (partial_history st) (segment_id st) v (metrics st)
          (clock_reads st).
Definition set_metrics (v : Metrics) (st : State) : State :=
  mkState (stable st) (pending_tokens st) (awaiting_final st)
          (partial_history st) (segment_id st) (segment_started_ms st) v
          (clock_reads st).
Definition set_reads (v : nat) (st : State) : State :=
  mkState (stable st) (pending_tokens st) (awaiting_final st)
          (partial_history st) (segment_id st) (segment_started_ms st)
          (metrics st) v.

Definition bump_metric (k : MetricKey) (n : Z) (st : State) : State :=
  set_metrics (bump k n (metrics st)) st.

(** The state [__init__] builds. *)
Definition init_state : State :=
  mkState [] [] [] [] 0 None zero_metrics 0.

Record Metadata := mkMetadata {
  md_pending_tokens : nat;
  md_awaiting_snapshots : nat;
  md_stable_word_count : nat
}.

Record DisplayEvent := mkDisplayEvent {
  ev_type : string;
  ev_stable_text : string;
  ev_partial_suffix : string;
  ev_is_final : bool;
  ev_segment_id : Z;
  ev_metadata : Metadata
}.

(** Dataclass equality [==]: field by field, numbers by value. *)
Definition token_eqb (a b : Token) : bool :=
  bool_decide (text a = text b)
  && (confirmation_count a =? confirmation_count b)
  && Qeq_bool (first_seen_time a) (first_seen_time b)
  && Qeq_bool (last_seen_time a) (last_seen_time b).

Fixpoint tokens_eqb (a b : list Token) : bool :=
  match a, b with
  | [], [] => true
  | x :: a', y :: b' => token_eqb x y && tokens_eqb a' b'
  | _, _ => false
  end.

Definition snapshot_eqb (a b : Snapshot) : bool :=
  tokens_eqb (tokens a) (tokens b)
  && (started_ms a =? started_ms b)
  && (expiry_ms a =? expiry_ms b)
  && (snap_segment_id a =? snap_segment_id b).

(** [deque.remove(x)]: delete the first element equal to [x];
    [ValueError] when there is none. *)
Fixpoint deque_remove (x : Snapshot) (l : list Snapshot)
  : option (list Snapshot) :=
  match l with
  | [] => None
  | y :: l' => if snapshot_eqb y x then Some l'
               else (y ::.) <$> deque_remove x l'
  end.

Fixpoint lcp_len (a b : list string) : nat :=
  match a, b with
  | x :: a', y :: b' => if bool_decide (x = y) then S (lcp_len a' b') else O
  | _, _ => O
  end.

(** ** Operations of [TranscriptAccumulator] *)

Section Accumulator.

Variable cfg : Config.
(** [time_fn k] is the value of the [k]-th call of the injected clock. *)
Variable time_fn : nat -> Q.

(** [self.time_fn()] *)
Definition read_clock (st : State) : Q * State :=
  (time_fn (clock_reads st), set_reads (S (clock_reads st)) st).

Definition _now_ms (st : State) : Z * State :=
  let (t, st') := read_clock st in (py_int (t * 1000), st').

(** [self._now_ms() if now_ms is None else now_ms] *)
Definition resolve_now (now_ms : option Z) (st : State) : Z * State :=
  match now_ms with
  | None => _now_ms st
  | Some n => (n, st)
  end.

Definition _ensure_segment_started (now_ms : option Z) (st : State) : State :=
  match segment_started_ms st with
  | None => let (n, st') := resolve_now now_ms st in
            set_segment_started (Some n) st'
  | Some _ => st
  end.

Definition get_metrics (st : State) : Metrics := metrics st.

Definition stable_text (st : State) : string := Text.detokenize (stable st).

Definition build_display_event (is_final : bool) (st : State) : DisplayEvent :=
  let partial_suffix := Text.detokenize (map text (pending_tokens st)) in
  {| ev_type := "display";
     ev_stable_text := stable_text st;
     ev_partial_suffix := partial_suffix;
     ev_is_final := is_final;
     ev_segment_id := segment_id st;
     ev_metadata :=
       {| md_pending_tokens := length (pending_tokens st);
          md_awaiting_snapshots := length (awaiting_final st);
          md_stable_word_count := length (stable st) |} |}.

(** [while h and h[0].ts_ms < cutoff: h.popleft()] *)
Fixpoint drop_older (cutoff : Z) (h : list TimedText) : list TimedText :=
  match h with
  | [] => []
  | e :: h' => if ts_ms e <? cutoff then drop_older cutoff h' else h
  end.

Definition _record_partial_history (toks : list string) (now_ms : Z)
    (st : State) : State :=
  let h := partial_history st ++ [mkTimedText now_ms toks] in
  let cutoff := now_ms - partial_history_window_ms cfg in
  set_history (drop_older cutoff h) st.

(** The scan for a full duplicate: some [i] in
    [range(len(recent) - len(new) + 1)] with [recent[i:i+len(new)] == new]. *)
Definition full_duplicate (new_lower recent_lower : list string) : bool :=
  existsb
    (fun i => bool_decide
                (slice i (i + length new_lower) recent_lower = new_lower))
    (seq 0 (length recent_lower - length new_lower + 1)).

(** The boundary scan: the last [k] in [1..min(len(new), len(recent))] with
    [recent[-k:] == new[:k]], or 0. *)
Definition boundary_overlap (new_lower recent_lower : list string) : nat :=
  fold_left
    (fun best k =>
       if bool_decide (slice_from (- Z.of_nat k) recent_lower
                       = slice_to k new_lower)
       then k else best)
    (seq 1 (Nat.min (length new_lower) (length recent_lower)))
    O.

Definition _deduplicate_before_commit (new_tokens : list string) (st : State)
  : list string * State :=
  if negb (dedup_enabled cfg)
     || bool_decide (new_tokens = [])
     || bool_decide (stable st = [])
  then (new_tokens, st)
  else
    let window_size :=
      Z.max (dedup_window_size cfg) (Z.of_nat (length new_tokens) * 3) in
    let recent_stable := slice_from (- window_size) (stable st) in
    let new_text_lower := map Text.lower new_tokens in
    let recent_text_lower := map Text.lower recent_stable in
    if Nat.leb (length new_text_lower) (length recent_text_lower)
       && full_duplicate new_text_lower recent_text_lower
    then ([], bump_metric DedupTokensRemoved (Z.of_nat (length new_tokens))
                (bump_metric DedupFullBlocks 1 st))
    else
      let best_overlap := boundary_overlap new_text_lower recent_text_lower in
      if Nat.ltb 0 best_overlap
      then (drop best_overlap new_tokens,
            bump_metric DedupTokensRemoved (Z.of_nat best_overlap)
              (bump_metric DedupPartialOverlaps 1 st))
      else (new_tokens, st).

(** [for token in filtered: self._stable.append(token)] after the filter;
    returns the number appended. *)
Definition commit_filtered (toks : list string) (st : State) : nat * State :=
  let (filtered, st1) := _deduplicate_before_commit toks st in
  (length filtered, set_stable (stable st1 ++ filtered) st1).

(** The [while] loop of [_promote_leftmost_ready] over the pending deque
    [pend]; [n] counts clock readings, [batch] is [batch_to_commit]. *)
Fixpoint promote_walk (pend : list Token) (n : nat) (batch : list string)
    (m : Metrics) : list Token * nat * list string * Metrics :=
  match pend with
  | [] => (pend, n, batch, m)
  | tok :: rest =>
      let age_ms := py_int ((time_fn n - first_seen_time tok) * 1000) in
      if K cfg <=? confirmation_count tok then
        promote_walk rest (S n) (batch ++ [text tok])
                     (bump TokensCommittedByStability 1 m)
      else if T_ms cfg <=? age_ms then
        promote_walk rest (S n) (batch ++ [text tok])
                     (bump TokensCommittedByFlush 1 m)
      else (pend, S n, batch, m)
  end.

Definition _promote_leftmost_ready (now_ms : Z) (st : State) : nat * State :=
  let '(pend, n, batch, m) :=
    promote_walk (pending_tokens st) (clock_reads st) [] (metrics st) in
  let st1 := set_reads n (set_metrics m (set_pending pend st)) in
  match batch with
  | [] => (O, st1)
  | _ => commit_filtered batch st1
  end.

Definition _snapshot_pending (now_ms : Z) (st : State) : State :=
  match pending_tokens st with
  | [] => st
  | _ =>
      let snap_tokens :=
        map (fun t => mkToken (text t) (confirmation_count t)
                              (first_seen_time t) (last_seen_time t))
            (pending_tokens st) in
      let snap := mkSnapshot snap_tokens now_ms
                             (now_ms + awaiting_final_ttl_ms cfg)
                             (segment_id st) in
      set_awaiting (awaiting_final st ++ [snap]) st
  end.

(** The [while] loop of [_expire_snapshots]; [snaps] is the deque as the
    loop sees it. *)
Fixpoint expire_loop (now_ms : Z) (snaps : list Snapshot) (st : State)
  : State :=
  match snaps with
  | [] => set_awaiting [] st
  | snap :: rest =>
      if expiry_ms snap <=? now_ms then
        let st1 := set_awaiting rest st in
        let (rescued, st2) := commit_filtered (map text (tokens snap)) st1 in
        expire_loop now_ms rest
          (bump_metric SnapshotExpiredCommits (Z.of_nat rescued) st2)
      else set_awaiting snaps st
  end.

Definition _expire_snapshots (now_ms : Z) (st : State) : State :=
  expire_loop now_ms (awaiting_final st) st.

(** The descending search of [_longest_suffix_prefix] from [cand]. *)
Fixpoint lsp_from (cand : nat) (context final_tokens : list string) : nat :=
  match cand with
  | O => O
  | S cand' =>
      if bool_decide
           (map Text.lower (slice_from (- Z.of_nat cand) context)
            = map Text.lower (slice_to cand final_tokens))
      then cand
      else lsp_from cand' context final_tokens
  end.

Definition _longest_suffix_prefix (context final_tokens : list string) : nat :=
  lsp_from (Nat.min (length context) (length final_tokens))
           context final_tokens.

(** The tuple [best] of [_build_context_for_final]. *)
Record Best := mkBest {
  b_ctx : list string;
  b_snap_idx : option nat;
  b_len_st : nat;
  b_len_snap : nat;
  b_len_pend : nat;
  b_overlap : nat
}.

(** [list(enumerate(l))] *)
Definition enumerate {A} (l : list A) : list (nat * A) :=
  zip (seq 0 (length l)) l.

Definition max_tail : Z := 64.

Definition build_best (final_tokens : list string) (st : State) : Best :=
  let st_tail := slice_from (- max_tail) (stable st) in
  let pending_txt := map text (pending_tokens st) in
  let best0 := mkBest [] None 0 0 0 0 in
  let candidates := enumerate (reverse (awaiting_final st)) in
  let best1 :=
    fold_left
      (fun best (c : nat * Snapshot) =>
         let (rev_idx, snap) := c in
         let snap_tokens := map text (tokens snap) in
         let ctx := st_tail ++ snap_tokens ++ pending_txt in
         let m := _longest_suffix_prefix ctx final_tokens in
         if Nat.ltb (b_overlap best) m then
           let snap_idx := (length (awaiting_final st) - 1 - rev_idx)%nat in
           mkBest ctx (Some snap_idx) (length st_tail) (length snap_tokens)
                  (length pending_txt) m
         else best)
      candidates best0 in
  let ctx_nosnap := st_tail ++ pending_txt in
  let m0 := _longest_suffix_prefix ctx_nosnap final_tokens in
  if Nat.ltb (b_overlap best1) m0
  then mkBest ctx_nosnap None (length st_tail) 0 (length pending_txt) m0
  else best1.

Definition _build_context_for_final (final_tokens : list string) (st : State)
  : list string * option nat * nat * nat * nat :=
  let best := build_best final_tokens st in
  (b_ctx best, b_snap_idx best, b_len_st best, b_len_snap best,
   b_len_pend best).

Definition force_segment_break (now_ms : option Z) (st : State) : State :=
  let (now, st0) := resolve_now now_ms st in
  let st1 := _snapshot_pending now st0 in
  let st2 := set_pending [] st1 in
  let st3 := set_segment_id (segment_id st2 + 1) st2 in
  let st4 := set_segment_started (Some now) st3 in
  bump_metric SegmentRolls 1 st4.

(** The loop [for i in range(l): t = pending[i]; t.confirmation_count += 1;
    t.last_seen_time = time_fn()], from position [i]. *)
Fixpoint confirm_lcp (l : nat) (i : nat) (st : State) : option State :=
  match l with
  | O => Some st
  | S l' =>
      t ← pending_tokens st !! i;
      let (now_s, st1) := read_clock st in
      let t' := mkToken (text t) (confirmation_count t + 1)
                        (first_seen_time t) now_s in
      confirm_lcp l' (S i) (set_pending (<[i := t']> (pending_tokens st1)) st1)
  end.

(** [for tok in cur_tokens[l:]: now_s = time_fn(); pending.append(...)] *)
Fixpoint append_fresh (toks : list string) (st : State) : State :=
  match toks with
  | [] => st
  | tok :: toks' =>
      let (now_s, st1) := read_clock st in
      append_fresh toks'
        (set_pending (pending_tokens st1 ++ [mkToken tok 1 now_s now_s]) st1)
  end.

Definition add_partial (txt : string) (now_ms : option Z) (st : State)
  : option (DisplayEvent * State) :=
  let st := bump_metric TotalPartials 1 st in
  let (now, st) := resolve_now now_ms st in
  let st := _ensure_segment_started (Some now) st in
  let st := _expire_snapshots now st in
  let cur_tokens := Text.tokenize txt in
  let st := _record_partial_history cur_tokens now st in
  let prev_txt := map text (pending_tokens st) in
  let l := lcp_len prev_txt cur_tokens in
  st ← confirm_lcp l 0 st;
  let st := set_pending (take l (pending_tokens st)) st in
  let st := append_fresh (drop l cur_tokens) st in
  let (promoted, st) := _promote_leftmost_ready now st in
  let st :=
    match segment_started_ms st with
    | Some started =>
        if max_segment_ms cfg <=? now - started
        then force_segment_break (Some now) st else st
    | None => st
    end in
  Some (build_display_event false st, st).

(** The rescue of orphaned snapshot tokens in [add_final]: the body of
    [if snap_idx is not None and len_snap > 0].  Returns [rescued]. *)
Definition rescue_orphans (snap_idx : nat) (len_st_tail len_snap : nat)
    (overlap_start : Z) (st : State) : option (nat * State) :=
  let snap_start := Z.of_nat len_st_tail in
  let snap_end := Z.of_nat len_st_tail + Z.of_nat len_snap - 1 in
  let left_end := Z.min snap_end (overlap_start - 1) in
  '(rescued, st) ←
    (if snap_start <=? left_end then
       let left_count := Z.to_nat (left_end - snap_start + 1) in
       orphaned_words ←
         mapM (fun i => snap ← awaiting_final st !! snap_idx;
                        t ← tokens snap !! i;
                        Some (text t))
              (seq 0 left_count);
       let (rescued, st) := commit_filtered orphaned_words st in
       snap ← awaiting_final st !! snap_idx;
       let snap' := mkSnapshot (drop left_count (tokens snap))
                               (started_ms snap) (expiry_ms snap)
                               (snap_segment_id snap) in
       Some (rescued,
             set_awaiting (<[snap_idx := snap']> (awaiting_final st)) st)
     else Some (O, st));
  snap ← awaiting_final st !! snap_idx;
  st ← (match tokens snap with
        | [] => aw ← deque_remove snap (awaiting_final st);
                Some (set_awaiting aw st)
        | _ => Some st
        end);
  let st :=
    if Nat.ltb 0 rescued then
      bump_metric TokensCommittedByFinal (Z.of_nat rescued)
        (bump_metric LateFinalHits 1
           (bump_metric OrphanRescues (Z.of_nat rescued) st))
    else st in
  Some (rescued, st).

Definition add_final (txt : string) (now_ms : option Z) (st : State)
  : option (DisplayEvent * State) :=
  let st := bump_metric TotalFinals 1 st in
  let (now, st) := resolve_now now_ms st in
  let st := _ensure_segment_started (Some now) st in
  let st := _expire_snapshots now st in
  let final_tokens := Text.tokenize txt in
  match final_tokens with
  | [] =>
      let st := force_segment_break (Some now) st in
      Some (build_display_event true st, st)
  | _ =>
      let '(context, snap_idx, len_st_tail, len_snap, len_pend) :=
        _build_context_for_final final_tokens st in
      let m := _longest_suffix_prefix context final_tokens in
      let c_len := length context in
      let overlap_start := Z.of_nat c_len - Z.of_nat m in
      '(rescued, st) ←
        (match snap_idx with
         | Some idx =>
             if Nat.ltb 0 len_snap
             then rescue_orphans idx len_st_tail len_snap overlap_start st
             else Some (O, st)
         | None => Some (O, st)
         end);
      let to_append := drop m final_tokens in
      let st :=
        match to_append with
        | [] => st
        | _ =>
            let (filtered_append, st1) :=
              _deduplicate_before_commit to_append st in
            bump_metric TokensCommittedByFinal
              (Z.of_nat (length filtered_append))
              (set_stable (stable st1 ++ filtered_append) st1)
        end in
      let st := set_pending [] st in
      let st := set_segment_id (segment_id st + 1) st in
      let st := set_segment_started (Some now) st in
      Some (build_display_event true st, st)
  end.

Definition reset (st : State) : State :=
  let st := set_stable [] st in
  let st := set_pending [] st in
  let st := set_awaiting [] st in
  let st := set_history [] st in
  let st := set_segment_id 0 st in
  set_segment_started None st.

(** ** Sessions: sequences of calls *)

Inductive Op :=
  | OpPartial (txt : string) (now_ms : option Z)
  | OpFinal (txt : string) (now_ms : option Z)
  | OpBreak (now_ms : option Z)
  | OpDisplay (is_final : bool)
  | OpMetrics
  | OpReset.

(** What a call returns. *)
Inductive Out :=
  | OutEvent (ev : DisplayEvent)
  | OutMetrics (m : Metrics)
  | OutNone.

Definition step (op : Op) (st : State) : option (Out * State) :=
  match op with
  | OpPartial txt now_ms =>
      '(ev, st') ← add_partial txt now_ms st; Some (OutEvent ev, st')
  | OpFinal txt now_ms =>
      '(ev, st') ← add_final txt now_ms st; Some (OutEvent ev, st')
  | OpBreak now_ms => Some (OutNone, force_segment_break now_ms st)
  | OpDisplay is_final => Some (OutEvent (build_display_event is_final st), st)
  | OpMetrics => Some (OutMetrics (get_metrics st), st)
  | OpReset => Some (OutNone, reset st)
  end.

Fixpoint run (ops : list Op) (st : State) : option (list Out * State) :=
  match ops with
  | [] => Some ([], st)
  | op :: ops' =>
      '(o, st1) ← step op st;
      '(os, st2) ← run ops' st1;
      Some (o :: os, st2)
  end.

(** [reset] is the one call that empties [stable]. *)
Definition is_reset (op : Op) : bool :=
  match op with OpReset => true | _ => false end.

End Accumulator.

(** ** Notions used to state the properties *)

(** The candidate contexts that [_build_context_for_final] compares: the
    tail of [stable], then a snapshot's texts (or nothing), then the
    pending texts. *)
Definition ctx_with_snapshot (st : State) (snap : Snapshot) : list string :=
  slice_from (- max_tail) (stable st)
  ++ map text (tokens snap) ++ map text (pending_tokens st).

Definition ctx_nosnap (st : State) : list string :=
  slice_from (- max_tail) (stable st) ++ map text (pending_tokens st).

(** One round of the loop over the snapshots. *)
Definition try_snapshot (final_tokens : list string) (st : State)
    (best : Best) (c : nat * Snapshot) : Best :=
  let (rev_idx, snap) := c in
  let m := _longest_suffix_prefix (ctx_with_snapshot st snap) final_tokens in
  if Nat.ltb (b_overlap best) m then
    mkBest (ctx_with_snapshot st snap)
           (Some (length (awaiting_final st) - 1 - rev_idx)%nat)
           (length (slice_from (- max_tail) (stable st)))
           (length (map text (tokens snap)))
           (length (map text (pending_tokens st))) m
  else best.

(** What the loop has established once it has tried the candidates
    [tried], in that order. *)
Definition loop_inv (final_tokens : list string) (st : State)
    (tried : list (nat * Snapshot)) (best : Best) : Prop :=
  (forall c, c ∈ tried ->
     (_longest_suffix_prefix (ctx_with_snapshot st c.2) final_tokens
      <= b_overlap best)%nat)
  /\ _longest_suffix_prefix (b_ctx best) final_tokens = b_overlap best
  /\ match b_snap_idx best with
     | Some i =>
         exists r snap newer older,
           tried = newer ++ (r, snap) :: older
           /\ i = (length (awaiting_final st) - 1 - r)%nat
           /\ b_ctx best = ctx_with_snapshot st snap
           /\ (0 < b_overlap best)%nat
           /\ (forall c, c ∈ newer ->
                 (_longest_suffix_prefix (ctx_with_snapshot st c.2)
                    final_tokens
                  < b_overlap best)%nat)
           /\ b_len_snap best = length (tokens snap)
     | None => b_ctx best = [] /\ b_overlap best = O
     end.

(** The tie rule read literally: whenever some snapshot candidate reaches
    the greatest overlap and the no-snapshot candidate reaches it too, a
    snapshot is selected. *)
Definition tie_selects_snapshot (final_tokens : list string) (st : State)
  : Prop :=
  forall i snap,
    awaiting_final st !! i = Some snap ->
    _longest_suffix_prefix (ctx_with_snapshot st snap) final_tokens
    = _longest_suffix_prefix (ctx_nosnap st) final_tokens ->
    (forall j snap', awaiting_final st !! j = Some snap' ->
       (_longest_suffix_prefix (ctx_with_snapshot st snap') final_tokens
        <= _longest_suffix_prefix (ctx_with_snapshot st snap) final_tokens)
       %nat) ->
    exists j, (_build_context_for_final final_tokens st).1.1.1.2 = Some j.

(** *** The phases of [add_partial] and [add_final]

    The two entry points, cut at the comments of the source, so that each
    phase can be reasoned about on its own; [add_partial_phases] and
    [add_final_phases] below show that the cuts reassemble to the
    functions. *)

Section Phases.
Variable cfg : Config.
Variable time_fn : nat -> Q.

(** Counter, logical time, segment start, snapshot expiry. *)
Definition enter (k : MetricKey) (now_ms : option Z) (st : State)
  : Z * State :=
  let st := bump_metric k 1 st in
  let (now, st) := resolve_now time_fn now_ms st in
  let st := _ensure_segment_started time_fn (Some now) st in
  (now, _expire_snapshots cfg now st).

(** Alignment of pending with the new partial by longest common prefix. *)
Definition align_pending (cur_tokens : list string) (st : State)
  : option State :=
  let l := lcp_len (map text (pending_tokens st)) cur_tokens in
  st ← confirm_lcp time_fn l 0 st;
  let st := set_pending (take l (pending_tokens st)) st in
  Some (append_fresh time_fn (drop l cur_tokens) st).

(** Promotion, then the segment timeout. *)
Definition settle_partial (now : Z) (st : State) : State :=
  let (promoted, st) := _promote_leftmost_ready cfg time_fn now st in
  match segment_started_ms st with
  | Some started =>
      if max_segment_ms cfg <=? now - started
      then force_segment_break cfg time_fn (Some now) st else st
  | None => st
  end.

(** Reconciliation of a non-empty final against the chosen context. *)
Definition reconcile (final_tokens : list string) (now : Z) (st : State)
  : option State :=
  let '(context, snap_idx, len_st_tail, len_snap, len_pend) :=
    _build_context_for_final final_tokens st in
  let m := _longest_suffix_prefix context final_tokens in
  let overlap_start := Z.of_nat (length context) - Z.of_nat m in
  '(rescued, st) ←
    (match snap_idx with
     | Some idx =>
         if Nat.ltb 0 len_snap
         then rescue_orphans cfg idx len_st_tail len_snap overlap_start st
         else Some (O, st)
     | None => Some (O, st)
     end);
  let st :=
    match drop m final_tokens with
    | [] => st
    | _ =>
        let (filtered_append, st1) :=
          _deduplicate_before_commit cfg (drop m final_tokens) st in
        bump_metric TokensCommittedByFinal
          (Z.of_nat (length filtered_append))
          (set_stable (stable st1 ++ filtered_append) st1)
    end in
  let st := set_pending [] st in
  let st := set_segment_id (segment_id st + 1) st in
  Some (set_segment_started (Some now) st).

(** The tokens of the common prefix after confirmation: one more
    confirmation each, last seen at successive clock readings from the
    [n]-th on. *)
Fixpoint confirmed_tokens (n : nat) (toks : list Token) : list Token :=
  match toks with
  | [] => []
  | t :: toks' =>
      mkToken (text t) (confirmation_count t + 1) (first_seen_time t)
              (time_fn n)
      :: confirmed_tokens (S n) toks'
  end.

(** Fresh tokens for the new suffix, first seen at successive clock
    readings from the [n]-th on. *)
Fixpoint fresh_tokens (n : nat) (toks : list string) : list Token :=
  match toks with
  | [] => []
  | tok :: toks' =>
      mkToken tok 1 (time_fn n) (time_fn n) :: fresh_tokens (S n) toks'
  end.

End Phases.

(** The snapshot a segment break shelves at logical time [now]: none when
    pending is empty. *)
Definition shelved (cfg : Config) (now : Z) (st : State) : list Snapshot :=
  match pending_tokens st with
  | [] => []
  | _ =>
      [mkSnapshot
         (map (fun t => mkToken (text t) (confirmation_count t)
                                (first_seen_time t) (last_seen_time t))
              (pending_tokens st))
         now (now + awaiting_final_ttl_ms cfg) (segment_id st)]
  end.

(** The logical time an entry point works with. *)
Definition logical_now (time_fn : nat -> Q) (now_ms : option Z) (st : State)
  : Z :=
  match now_ms with
  | Some n => n
  | None => py_int (time_fn (clock_reads st) * 1000)
  end.

(** The number of clock readings that resolving the time costs. *)
Definition now_reads (now_ms : option Z) : nat :=
  match now_ms with Some _ => 0 | None => 1 end.

(** The clock of the test suite: it stands at [t0] for the first [n]
    readings and at [t1] from then on. *)
Definition fake_clock (n : nat) (t0 t1 : Q) : nat -> Q :=
  fun k => if Nat.ltb k n then t0 else t1.

(** The T-timeout scenario: partial ["alpha beta"], then partial
    ["beta gamma"], both on a fresh accumulator with the default
    configuration.  The result lists the clock readings taken by the first
    call, then [stable], the pending texts and the event's [stable_text]
    after the second call. *)
Definition t_timeout_scenario (clk : nat -> Q) (t0 t1 : option Z)
  : option (nat * list string * list string * string) :=
  '(e1, s1) ← add_partial default_config clk "alpha beta" t0 init_state;
  '(e2, s2) ← add_partial default_config clk "beta gamma" t1 s1;
  Some (clock_reads s1, stable s2, map text (pending_tokens s2),
        ev_stable_text e2).

(** *** Ordering and freshness of pending *)

(** [a] may stand before [b] in pending: [a] has at least as many
    confirmations and was first seen no later. *)
Definition token_before (a b : Token) : Prop :=
  confirmation_count b <= confirmation_count a
  /\ (first_seen_time a <= first_seen_time b)%Q.

(** Front to back, confirmation counts do not increase and first-seen
    times do not decrease. *)
Definition pending_ordered (pend : list Token) : Prop :=
  StronglySorted token_before pend.

(** The clock never goes back. *)
Definition monotonic (time_fn : nat -> Q) : Prop :=
  forall i j, (i <= j)%nat -> (time_fn i <= time_fn j)%Q.

(** What holds of pending between calls: it is ordered, every token has
    been seen at least once, and none was first seen later than any
    reading the clock has yet to give. *)
Definition pending_inv (time_fn : nat -> Q) (st : State) : Prop :=
  pending_ordered (pending_tokens st)
  /\ Forall (fun t =>
               1 <= confirmation_count t
               /\ forall k, (clock_reads st <= k)%nat ->
                            (first_seen_time t <= time_fn k)%Q)
            (pending_tokens st).

(** [age_ms] of a token at clock value [now], as the promotion walk
    computes it. *)
Definition age_ms (now : Q) (t : Token) : Z :=
  py_int ((now - first_seen_time t) * 1000).

(** A token that the promotion rules would leave in pending at clock
    value [now]. *)
Definition token_fresh (cfg : Config) (now : Q) (t : Token) : Prop :=
  confirmation_count t < K cfg /\ age_ms now t < T_ms cfg.

(** The calls that change pending. *)
Definition is_update (op : Op) : bool :=
  match op with
  | OpPartial _ _ | OpFinal _ _ | OpBreak _ => true
  | _ => false
  end.

(** *** Snapshot expiry *)

(** Front to back, the snapshots' expiry times do not decrease. *)
Definition expiry_sorted (aw : list Snapshot) : Prop :=
  StronglySorted Z.le (expiry_ms <$> aw).

(** What holds of [awaiting_final] once the session has reached logical
    time [t]: it is sorted by expiry and no snapshot expires later than
    [t] plus the grace window. *)
Definition snapshot_inv (cfg : Config) (t : Z) (st : State) : Prop :=
  expiry_sorted (awaiting_final st)
  /\ Forall (fun e => e <= t + awaiting_final_ttl_ms cfg)
            (expiry_ms <$> awaiting_final st).

(** The logical time of a call that has one. *)
Definition op_time (time_fn : nat -> Q) (op : Op) (st : State) : list Z :=
  match op with
  | OpPartial _ now_ms | OpFinal _ now_ms | OpBreak now_ms =>
      [logical_now time_fn now_ms st]
  | _ => []
  end.

(** The logical times of the calls of a session, in call order. *)
Fixpoint timeline (cfg : Config) (time_fn : nat -> Q) (ops : list Op)
    (st : State) : list Z :=
  match ops with
  | [] => []
  | op :: ops' =>
      op_time time_fn op st
      ++ match step cfg time_fn op st with
         | Some (_, st1) => timeline cfg time_fn ops' st1
         | None => []
         end
  end.

(** No snapshot has expired at logical time [now]. *)
Definition unexpired (now : Z) (aw : list Snapshot) : Prop :=
  Forall (fun s => now < expiry_ms s) aw.

(** *** Shapes of tokens and of detokenized text *)

(** A string that the tokenizer's pattern matches from its first to its
    last character. *)
Definition full_match (tok : string) : Prop :=
  Text.match_token tok = Some (tok, EmptyString).

(** What [detokenize] puts after the first token: each further token,
    glued to what precedes it when it is punctuation and set off by one
    space otherwise. *)
Fixpoint glue (toks : list string) : string :=
  match toks with
  | [] => EmptyString
  | tok :: toks' =>
      ((if Text.is_punct_token tok then tok else String " " tok)
       ++ glue toks')%string
  end.

(** Text before which a token ends cleanly: it does not start with an
    alphanumeric character, nor with an apostrophe and then one. *)
Definition safe_after (rest : string) : Prop :=
  match rest with
  | EmptyString => True
  | String c r =>
      Text.is_alnum c = false
      /\ match r with
         | EmptyString => True
         | String d _ => c = "'"%char -> Text.is_alnum d = false
         end
  end.

(** A token that the promotion rules take out of pending at clock value
    [now]: confirmed K times, or at least T old. *)
Definition token_ready (cfg : Config) (now : Q) (t : Token) : Prop :=
  K cfg <= confirmation_count t \/ T_ms cfg <= age_ms now t.

(** Whether [add_partial], entered at logical time [now], ends with a
    segment timeout. *)
Definition segment_timed_out (cfg : Config) (now : Z) (st : State) : bool :=
  max_segment_ms cfg <=? now - default now (segment_started_ms st).

(** *** Books and words *)

(** The tokens the counters say were committed, whatever the path. *)
Definition committed (m : Metrics) : Z :=
  tokens_committed_by_stability m + tokens_committed_by_flush m
  + tokens_committed_by_final m + snapshot_expired_commits m.

(** A change of the counters that balances with [ds] tokens appended to
    [stable]: the commit counters grew by some [dc], the dedup counter by
    some [dr], with [dc - dr <= ds <= dc]; the call counters are as they
    were. *)
Definition balanced (m m' : Metrics) (ds : Z) : Prop :=
  exists dc dr,
    0 <= dr /\ dc - dr <= ds /\ ds <= dc
    /\ committed m' = committed m + dc
    /\ dedup_tokens_removed m' = dedup_tokens_removed m + dr
    /\ total_partials m' = total_partials m
    /\ total_finals m' = total_finals m.

(** The texts held in a deque of snapshots. *)
Definition snapshot_words (aw : list Snapshot) : list string :=
  aw ≫= (fun s => map text (tokens s)).

(** Every word the accumulator holds: in [stable], in pending, in a
    snapshot. *)
Definition words (st : State) : list string :=
  stable st ++ map text (pending_tokens st)
  ++ snapshot_words (awaiting_final st).

(** The tokens a call brings. *)
Definition op_tokens (op : Op) : list string :=
  match op with
  | OpPartial txt _ | OpFinal txt _ => Text.tokenize txt
  | _ => []
  end.

(** The call counter a call bumps on entry. *)
Definition op_entry (op : Op) (m : Metrics) : Metrics :=
  match op with
  | OpPartial _ _ => bump TotalPartials 1 m
  | OpFinal _ _ => bump TotalFinals 1 m
  | _ => m
  end.

Definition is_partial (op : Op) : bool :=
  match op with OpPartial _ _ => true | _ => false end.

Definition is_final (op : Op) : bool :=
  match op with OpFinal _ _ => true | _ => false end.

(** The ledger of a step from [st] to [st']: [stable] has only grown, the
    counters balance with what it grew by, and every word held afterwards
    was held before or is one of [brought]. *)
Definition ledger (brought : list string) (st st' : State) : Prop :=
  exists kept,
    stable st' = stable st ++ kept
    /\ balanced (metrics st) (metrics st') (Z.of_nat (length kept))
    /\ words st' ⊆ words st ++ brought.

(** The number of calls of one kind in a session. *)
Definition calls (kind : Op -> bool) (ops : list Op) : Z :=
  Z.of_nat (length (List.filter kind ops)).

(** What the ledger looks at. *)
Definition ledger_view (st : State)
  : list string * list Token * list Snapshot * Metrics :=
  (stable st, pending_tokens st, awaiting_final st, metrics st).

(** The state on entry to a call, its call counter bumped. *)
Definition entered (op : Op) (st : State) : State :=
  set_metrics (op_entry op (metrics st)) st.

(** No snapshot of the deque is empty. *)
Definition snapshots_full (aw : list Snapshot) : Prop :=
  Forall (fun s => tokens s <> []) aw.

(** Two accumulators that differ at most in their counters and in how
    far their clocks have been read, the clocks agreeing from there on. *)
Definition same_core (clk1 clk2 : nat -> Q) (st1 st2 : State) : Prop :=
  stable st1 = stable st2
  /\ pending_tokens st1 = pending_tokens st2
  /\ awaiting_final st1 = awaiting_final st2
  /\ partial_history st1 = partial_history st2
  /\ segment_id st1 = segment_id st2
  /\ segment_started_ms st1 = segment_started_ms st2
  /\ forall k, clk1 (clock_reads st1 + k)%nat = clk2 (clock_reads st2 + k)%nat.

(** What a call shows of the transcript: its event, if it returns one. *)
Definition shown (o : Out) : option DisplayEvent :=
  match o with
  | OutEvent ev => Some ev
  | _ => None
  end.

(** What holds of the partial history once the session has reached
    logical time [t]: it is in time order and nothing in it is later than
    [t]. *)
Definition history_inv (t : Z) (st : State) : Prop :=
  StronglySorted Z.le (ts_ms <$> partial_history st)
  /\ Forall (fun e => e <= t) (ts_ms <$> partial_history st).

(** * Properties *)

(** ** Tokenizer and detokenizer *)

Section TextFacts.
Import Text.
Local Open Scope string_scope.

Lemma strip_ws_app (a b : string) :
  strip_ws (a ++ b) = strip_ws a ++ strip_ws b.
Proof.
  induction a as [|c a IH]; simpl; [done|].
  destruct (is_space c); simpl; by rewrite IH.
Qed.

Lemma string_app_nil_r (a : string) : a ++ "" = a.
Proof. induction a as [|c a IH]; simpl; [done|by rewrite IH]. Qed.

Lemma string_app_assoc (a b c : string) : (a ++ b) ++ c = a ++ (b ++ c).
Proof. induction a as [|x a IH]; simpl; [done|by rewrite IH]. Qed.

Lemma string_length_app (a b : string) :
  String.length (a ++ b) = (String.length a + String.length b)%nat.
Proof. induction a as [|x a IH]; simpl; [done|by rewrite IH]. Qed.

Lemma join_cons (x : string) (l : list string) :
  String.concat "" (x :: l) = x ++ String.concat "" l.
Proof. destruct l; simpl; [by rewrite (string_app_nil_r x)|done]. Qed.

Lemma join_app (l k : list string) :
  String.concat "" (l ++ k) = String.concat "" l ++ String.concat "" k.
Proof.
  induction l as [|x l IH]; [done|].
  rewrite <- app_comm_cons, !join_cons, IH. by rewrite string_app_assoc.
Qed.

Lemma span_alnum_split (s w r : string) :
  span_alnum s = (w, r) -> s = w ++ r.
Proof.
  revert w r. induction s as [|c s IH]; simpl; intros w r H.
  - by inversion H.
  - destruct (is_alnum c).
    + destruct (span_alnum s) as [w' r'] eqn:E. inversion H; subst.
      simpl. f_equal. by apply IH.
    + by inversion H.
Qed.

(** A successful match consumes a non-empty prefix of the text. *)
Lemma match_token_split (s tok rest : string) :
  match_token s = Some (tok, rest) ->
  s = tok ++ rest /\ (String.length rest < String.length s)%nat.
Proof.
  destruct s as [|c s]; [done|].
  unfold match_token. destruct (is_alnum c) eqn:Hc.
  - destruct (span_alnum (String c s)) as [w r] eqn:E.
    pose proof (span_alnum_split _ _ _ E) as Hs.
    assert (Hw : (0 < String.length w)%nat).
    { simpl in E. rewrite Hc in E. destruct (span_alnum s).
      inversion E; simpl; lia. }
    assert (Hlen : (String.length r < String.length (String c s))%nat).
    { rewrite Hs, string_length_app. lia. }
    destruct r as [|q r]; [intros [= <- <-]; done|].
    destruct (Ascii.eqb_spec q "'"%char) as [->|Hq].
    + destruct r as [|d r]; [intros [= <- <-]; done|].
      destruct (is_alnum d) eqn:Hd; [|intros [= <- <-]; done].
      destruct (span_alnum (String d r)) as [w2 r2] eqn:E2.
      pose proof (span_alnum_split _ _ _ E2) as Hs2.
      intros [= <- <-]. split.
      * rewrite Hs, Hs2. rewrite string_app_assoc. done.
      * rewrite Hs, Hs2, !string_length_app. simpl.
        rewrite string_length_app. lia.
    + assert (forall X : option (string * string),
                 match q with
                 | "'"%char => X
                 | _ => Some (w, String q r)
                 end = Some (tok, rest) ->
                 Some (w, String q r) = Some (tok, rest)) as Hm.
      { intros X. destruct q as [[] [] [] [] [] [] [] []]; done. }
      intros H. apply Hm in H. by inversion H; subst.
  - destruct (is_space c); [done|]. intros [= <- <-]. simpl. split; [done|lia].
Qed.

Lemma match_token_none (c : ascii) (s : string) :
  match_token (String c s) = None -> is_space c = true.
Proof.
  unfold match_token. destruct (is_alnum c).
  - destruct (span_alnum (String c s)) as [w r].
    destruct r as [|q r]; [done|].
    destruct q as [[] [] [] [] [] [] [] []]; try done.
    destruct r as [|d r]; [done|]. destruct (is_alnum d); [|done].
    by destruct (span_alnum (String d r)).
  - by destruct (is_space c).
Qed.

(** The tokens, concatenated, are the text without its whitespace. *)
Lemma findall_strip (fuel : nat) (s : string) :
  (String.length s <= fuel)%nat ->
  strip_ws (String.concat "" (findall fuel s)) = strip_ws s.
Proof.
  revert s. induction fuel as [|fuel IH]; intros s Hlen.
  - destruct s; [done|simpl in Hlen; lia].
  - destruct s as [|c s]; [done|]. cbn [findall].
    destruct (match_token (String c s)) as [[tok rest]|] eqn:E.
    + apply match_token_split in E as [Hs Hl].
      rewrite join_cons, strip_ws_app, IH by (simpl in *; lia).
      by rewrite Hs, strip_ws_app.
    + apply match_token_none in E. simpl. rewrite E.
      apply IH. simpl in Hlen. lia.
Qed.

Lemma join_append_to_last (out : list string) (tok : string) :
  out <> [] ->
  String.concat "" (append_to_last out tok) = String.concat "" out ++ tok.
Proof.
  induction out as [|x out IH]; [done|]. intros _.
  destruct out as [|y out]; [done|].
  change (append_to_last (x :: y :: out) tok)
    with (x :: append_to_last (y :: out) tok).
  rewrite (join_cons x (append_to_last _ _)), IH by done.
  by rewrite (join_cons x (y :: out)), string_app_assoc.
Qed.

Lemma detok_step_strip (out : list string) (tok : string) :
  strip_ws (String.concat "" (detok_step out tok))
  = strip_ws (String.concat "" out) ++ strip_ws tok.
Proof.
  unfold detok_step. destruct out as [|x out]; [done|].
  destruct (is_punct_token tok).
  - by rewrite join_append_to_last, strip_ws_app.
  - by rewrite join_app, strip_ws_app.
Qed.

Lemma detok_fold_strip (toks out : list string) :
  strip_ws (String.concat "" (fold_left detok_step toks out))
  = strip_ws (String.concat "" out) ++ strip_ws (String.concat "" toks).
Proof.
  revert out. induction toks as [|t toks IH]; intros out; simpl fold_left.
  - simpl. by rewrite string_app_nil_r.
  - rewrite IH, detok_step_strip, join_cons, strip_ws_app.
    by rewrite string_app_assoc.
Qed.

(** C7. [detokenize (tokenize text)] and [text] have the same sequence of
    non-whitespace characters, for every text: the two functions are
    inverse up to whitespace. *)
Theorem detokenize_tokenize_modulo_whitespace (txt : string) :
  strip_ws (detokenize (tokenize txt)) = strip_ws txt.
Proof.
  unfold detokenize, tokenize. rewrite detok_fold_strip. simpl.
  by apply findall_strip.
Qed.

End TextFacts.

(** ** Deduplicator *)

Section DedupFacts.
Variable cfg : Config.

Lemma slice_from_neg {A} (w : Z) (l : list A) :
  0 < w -> slice_from (- w) l = drop (length l - Z.to_nat w) l.
Proof.
  intros Hw. unfold slice_from.
  destruct (Z.ltb_spec (- w) 0) as [_|?]; [|lia].
  f_equal. lia.
Qed.

Lemma slice_middle {A} (pre mid post : list A) :
  slice (length pre) (length pre + length mid) (pre ++ mid ++ post) = mid.
Proof.
  unfold slice. rewrite drop_app_length.
  replace (length pre + length mid - length pre)%nat with (length mid) by lia.
  by rewrite take_app_length.
Qed.

Lemma full_duplicate_intro (new_lower recent_lower pre post : list string) :
  recent_lower = pre ++ new_lower ++ post ->
  full_duplicate new_lower recent_lower = true.
Proof.
  intros ->. unfold full_duplicate. apply existsb_exists.
  exists (length pre). split.
  - apply in_seq. rewrite !length_app. lia.
  - apply bool_decide_eq_true. apply slice_middle.
Qed.

(** C6. A non-empty candidate that occurs, case-folded, as a contiguous
    run inside the last [W = max(dedup_window_size, 3*|cand|)] tokens of a
    non-empty [stable] is dropped whole: the filter returns the empty list,
    [dedup_full_blocks] grows by one, [dedup_tokens_removed] by [|cand|],
    and [stable] is left as it was. *)
Theorem dedup_full_duplicate_block
    (st : State) (cand recent pre post : list string) (W : Z) :
  cand <> [] ->
  dedup_enabled cfg = true ->
  stable st <> [] ->
  W = Z.max (dedup_window_size cfg) (3 * Z.of_nat (length cand)) ->
  recent = drop (length (stable st) - Z.to_nat W) (stable st) ->
  (length cand <= length recent)%nat ->
  map Text.lower recent = pre ++ map Text.lower cand ++ post ->
  let (kept, st') := _deduplicate_before_commit cfg cand st in
  kept = []
  /\ dedup_full_blocks (metrics st') = dedup_full_blocks (metrics st) + 1
  /\ dedup_tokens_removed (metrics st')
     = dedup_tokens_removed (metrics st) + Z.of_nat (length cand)
  /\ stable st' = stable st.
Proof.
  intros Hcand Hen Hst HW Hrecent Hlen Hsub.
  unfold _deduplicate_before_commit.
  rewrite Hen, (bool_decide_eq_false_2 _ Hcand),
    (bool_decide_eq_false_2 _ Hst). cbn [negb orb].
  assert (HWpos : 0 < W).
  { destruct cand; [done|]. rewrite HW. simpl length. lia. }
  replace (Z.max (dedup_window_size cfg) (Z.of_nat (length cand) * 3))
    with W by lia.
  rewrite slice_from_neg by done. rewrite <- Hrecent.
  rewrite (full_duplicate_intro _ _ pre post Hsub).
  rewrite !length_map.
  destruct (Nat.leb_spec (length cand) (length recent)) as [_|?]; [|lia].
  cbn [andb]. done.
Qed.

End DedupFacts.

Lemma dedup_full_duplicate_block_witness :
  let st := set_stable ["so"; "Foo"; "bar"]%string init_state in
  let (kept, st') :=
    _deduplicate_before_commit default_config ["foo"]%string st in
  kept = []
  /\ dedup_full_blocks (metrics st') = dedup_full_blocks (metrics st) + 1
  /\ dedup_tokens_removed (metrics st')
     = dedup_tokens_removed (metrics st) + 1
  /\ stable st' = stable st.
Proof.
  intros st.
  apply (dedup_full_duplicate_block default_config st ["foo"]%string
           ["so"; "Foo"; "bar"]%string ["so"]%string ["bar"]%string 30).
  - discriminate.
  - reflexivity.
  - discriminate.
  - reflexivity.
  - reflexivity.
  - simpl. lia.
  - reflexivity.
Defined.


(** ** Candidate selection for a final *)

Section SelectionFacts.
Variable final_tokens : list string.
Variable st : State.

Lemma lsp_from_le (cand : nat) (ctx fin : list string) :
  (lsp_from cand ctx fin <= cand)%nat.
Proof.
  induction cand as [|c IH]; simpl; [done|].
  case_bool_decide; lia.
Qed.

Lemma overlap_nil : _longest_suffix_prefix [] final_tokens = O.
Proof. done. Qed.

Lemma enumerate_lookup {A} (l : list A) (k r : nat) (x : A) :
  enumerate l !! k = Some (r, x) <-> r = k /\ l !! k = Some x.
Proof.
  unfold enumerate. rewrite lookup_zip_with_Some. split.
  - intros (a & b & [= -> ->] & Ha & Hb).
    apply lookup_seq in Ha as [-> _]. done.
  - intros [-> Hx]. exists k, x. split_and!; [done| |done].
    apply lookup_seq. split; [done|]. by eapply lookup_lt_Some.
Qed.

Lemma loop_inv_step (tried : list (nat * Snapshot)) (best : Best)
    (c : nat * Snapshot) :
  loop_inv final_tokens st tried best ->
  loop_inv final_tokens st (tried ++ [c])
           (try_snapshot final_tokens st best c).
Proof.
  intros (Hmax & Hctx & Hsel). destruct c as [r snap]. unfold try_snapshot.
  destruct (Nat.ltb_spec (b_overlap best)
              (_longest_suffix_prefix (ctx_with_snapshot st snap)
                 final_tokens)) as [Hlt|Hge].
  - split_and!; cbn [b_overlap b_ctx b_snap_idx b_len_snap].
    + intros c [Hc|Hc%list_elem_of_singleton]%elem_of_app.
      * specialize (Hmax c Hc). lia.
      * subst c. done.
    + done.
    + exists r, snap, tried, []. split_and!; try done; [lia| |].
      * intros c Hc. specialize (Hmax c Hc). lia.
      * by rewrite length_map.
  - split_and!.
    + intros c [Hc|Hc%list_elem_of_singleton]%elem_of_app; [by apply Hmax|].
      by subst c.
    + done.
    + destruct (b_snap_idx best) as [i|]; [|done].
      destruct Hsel as (r0 & s0 & newer & older & -> & Hrest).
      exists r0, s0, newer, (older ++ [(r, snap)]).
      split; [|done]. by rewrite <- app_assoc.
Qed.

Lemma loop_inv_fold (cs tried : list (nat * Snapshot)) (best : Best) :
  loop_inv final_tokens st tried best ->
  loop_inv final_tokens st (tried ++ cs)
           (fold_left (try_snapshot final_tokens st) cs best).
Proof.
  revert tried best. induction cs as [|c cs IH]; intros tried best H.
  - by rewrite app_nil_r.
  - simpl. replace (tried ++ c :: cs) with ((tried ++ [c]) ++ cs)
      by (by rewrite <- app_assoc).
    apply IH. by apply loop_inv_step.
Qed.

Lemma build_best_unfold :
  build_best final_tokens st =
  let best1 := fold_left (try_snapshot final_tokens st)
                 (enumerate (reverse (awaiting_final st)))
                 (mkBest [] None 0 0 0 0) in
  let m0 := _longest_suffix_prefix (ctx_nosnap st) final_tokens in
  if Nat.ltb (b_overlap best1) m0
  then mkBest (ctx_nosnap st) None
         (length (slice_from (- max_tail) (stable st))) 0
         (length (map text (pending_tokens st))) m0
  else best1.
Proof. reflexivity. Qed.

Lemma reverse_lookup_Some {A} (l : list A) (i : nat) (x : A) :
  reverse l !! i = Some x ->
  l !! (length l - 1 - i)%nat = Some x /\ (i < length l)%nat.
Proof.
  intros H. assert (i < length l)%nat as Hi.
  { apply lookup_lt_Some in H. by rewrite length_reverse in H. }
  split; [|done]. rewrite reverse_lookup in H by done.
  rewrite <- H. f_equal. lia.
Qed.

(** The outcome of the selection loop, in full. *)
Lemma build_best_spec :
  let '(ctx, snap_idx, len_st, len_snap, len_pend) :=
    _build_context_for_final final_tokens st in
  let m := _longest_suffix_prefix ctx final_tokens in
  (forall i snap, awaiting_final st !! i = Some snap ->
     (_longest_suffix_prefix (ctx_with_snapshot st snap) final_tokens <= m)%nat)
  /\ (_longest_suffix_prefix (ctx_nosnap st) final_tokens <= m)%nat
  /\ match snap_idx with
     | Some i =>
         exists snap,
           awaiting_final st !! i = Some snap
           /\ ctx = ctx_with_snapshot st snap
           /\ len_snap = length (tokens snap)
           /\ (0 < m)%nat
           /\ (forall j snap', (i < j)%nat ->
                 awaiting_final st !! j = Some snap' ->
                 (_longest_suffix_prefix (ctx_with_snapshot st snap')
                    final_tokens < m)%nat)
     | None =>
         (ctx = [] /\ m = O)
         \/ (ctx = ctx_nosnap st /\ (0 < m)%nat
             /\ forall i snap, awaiting_final st !! i = Some snap ->
                  (_longest_suffix_prefix (ctx_with_snapshot st snap)
                     final_tokens < m)%nat)
     end.
Proof.
  unfold _build_context_for_final. rewrite build_best_unfold.
  set (cs := enumerate (reverse (awaiting_final st))).
  set (n := length (awaiting_final st)).
  assert (Hcs : forall i snap, awaiting_final st !! i = Some snap ->
                  ((n - 1 - i)%nat, snap) ∈ cs).
  { intros i snap Hi. apply list_elem_of_lookup. exists (n - 1 - i)%nat.
    apply enumerate_lookup. split; [done|].
    pose proof (lookup_lt_Some _ _ _ Hi) as Hlt.
    rewrite reverse_lookup by (fold n; lia).
    rewrite <- Hi. f_equal. fold n. lia. }
  assert (Hinv : loop_inv final_tokens st cs
            (fold_left (try_snapshot final_tokens st) cs
               (mkBest [] None 0 0 0 0))).
  { apply (loop_inv_fold cs []). split_and!; [|done|done].
    intros c Hc. by apply elem_of_nil in Hc. }
  set (best1 := fold_left (try_snapshot final_tokens st) cs _) in *.
  destruct Hinv as (Hmax & Hctx & Hsel). cbv zeta.
  destruct (Nat.ltb_spec (b_overlap best1)
              (_longest_suffix_prefix (ctx_nosnap st) final_tokens))
    as [Hlt|Hge]; cbn [b_ctx b_snap_idx b_len_st b_len_snap b_len_pend].
  - split_and!.
    + intros i snap Hi. specialize (Hmax _ (Hcs i snap Hi)). simpl in Hmax.
      lia.
    + done.
    + right. split_and!; [done|lia|].
      intros i snap Hi. specialize (Hmax _ (Hcs i snap Hi)). simpl in Hmax.
      lia.
  - rewrite Hctx. split_and!.
    + intros i snap Hi. apply (Hmax _ (Hcs i snap Hi)).
    + done.
    + destruct (b_snap_idx best1) as [i|].
      * destruct Hsel as (r & snap & newer & older & Hsplit & -> & Hc & Hpos
                          & Hnewer & Hlen).
        assert (cs !! length newer = Some (r, snap)) as Hr.
        { rewrite Hsplit. by rewrite list_lookup_middle. }
        apply enumerate_lookup in Hr as [-> Hr].
        apply reverse_lookup_Some in Hr as [Hr Hlt]. fold n in Hr, Hlt.
        exists snap. split_and!; try done.
        intros j snap' Hj Hj'. apply (Hnewer ((n - 1 - j)%nat, snap')).
        pose proof (lookup_lt_Some _ _ _ Hj') as Hjn. fold n in Hjn.
        assert (cs !! (n - 1 - j)%nat = Some ((n - 1 - j)%nat, snap'))
          as Hk.
        { apply enumerate_lookup. split; [done|].
          rewrite reverse_lookup by (fold n; lia).
          rewrite <- Hj'. f_equal. fold n. lia. }
        rewrite Hsplit in Hk.
        rewrite lookup_app_l in Hk by lia.
        by eapply list_elem_of_lookup_2.
      * left. done.
Qed.

(** C5, as the code has it.  The context chosen for a final has the
    greatest suffix-prefix overlap [m] among all candidates.  A snapshot is
    selected only when its overlap is positive; it is then the newest
    snapshot reaching the maximum, and it wins a tie with the no-snapshot
    context.  When no candidate overlaps at all ([m = 0]) no snapshot is
    selected and the context is empty. *)
Theorem build_context_selects_best :
  let '(ctx, snap_idx, len_st, len_snap, len_pend) :=
    _build_context_for_final final_tokens st in
  let m := _longest_suffix_prefix ctx final_tokens in
  (forall i snap, awaiting_final st !! i = Some snap ->
     (_longest_suffix_prefix (ctx_with_snapshot st snap) final_tokens <= m)%nat)
  /\ (_longest_suffix_prefix (ctx_nosnap st) final_tokens <= m)%nat
  /\ match snap_idx with
     | Some i =>
         exists snap,
           awaiting_final st !! i = Some snap
           /\ ctx = ctx_with_snapshot st snap
           /\ len_snap = length (tokens snap)
           /\ (0 < m)%nat
           /\ (forall j snap', (i < j)%nat ->
                 awaiting_final st !! j = Some snap' ->
                 (_longest_suffix_prefix (ctx_with_snapshot st snap')
                    final_tokens < m)%nat)
     | None =>
         (ctx = [] /\ m = O)
         \/ (ctx = ctx_nosnap st /\ (0 < m)%nat
             /\ forall i snap, awaiting_final st !! i = Some snap ->
                  (_longest_suffix_prefix (ctx_with_snapshot st snap)
                     final_tokens < m)%nat)
     end.
Proof. exact build_best_spec. Qed.

End SelectionFacts.

(** With one shelved snapshot [x] and a final [y] that overlaps nothing,
    the snapshot candidate ties with the no-snapshot candidate at the
    greatest overlap, 0, and no snapshot is selected. *)
Lemma tie_at_zero_selects_no_snapshot :
  ~ tie_selects_snapshot ["y"]%string
      (set_awaiting [mkSnapshot [mkToken "x" 1 0 0] 0 5000 0] init_state).
Proof.
  intros H.
  destruct (H O (mkSnapshot [mkToken "x" 1 0 0] 0 5000 0)) as [j Hj].
  - reflexivity.
  - reflexivity.
  - intros [|[|j]] snap' Hs; [|done|done].
    injection Hs as <-. vm_compute. lia.
  - vm_compute in Hj. discriminate.
Qed.

(** ** What each step does to the fields of the state *)

Ltac setters :=
  unfold bump_metric, set_stable, set_pending, set_awaiting, set_history,
    set_segment_id, set_segment_started, set_metrics, set_reads in *.

Section Frames.
Variable cfg : Config.
Variable time_fn : nat -> Q.

Lemma set_metrics_idem (m : Metrics) (st : State) :
  set_metrics m (set_metrics (metrics st) st) = set_metrics m st.
Proof. done. Qed.

(** The filter touches nothing but the counters. *)
Lemma dedup_effect (toks : list string) (st : State) :
  exists kept m,
    _deduplicate_before_commit cfg toks st = (kept, set_metrics m st).
Proof.
  unfold _deduplicate_before_commit, bump_metric.
  destruct (_ || _); [exists toks, (metrics st); by destruct st|].
  destruct (_ && _); [eexists _, _; reflexivity|].
  destruct (Nat.ltb _ _); [eexists _, _; reflexivity|].
  exists toks, (metrics st); by destruct st.
Qed.

Lemma commit_filtered_effect (toks : list string) (st : State) :
  exists kept m,
    commit_filtered cfg toks st
    = (length kept, set_stable (stable st ++ kept) (set_metrics m st)).
Proof.
  unfold commit_filtered.
  destruct (dedup_effect toks st) as (kept & m & ->). by exists kept, m.
Qed.

Lemma expire_loop_effect (now : Z) (snaps : list Snapshot) (st : State) :
  exists added m rest,
    expire_loop cfg now snaps st
    = set_awaiting rest (set_stable (stable st ++ added) (set_metrics m st))
    /\ rest `suffix_of` snaps
    /\ match rest with
       | [] => True
       | s :: _ => now < expiry_ms s
       end.
Proof.
  revert st. induction snaps as [|s snaps IH]; intros st; simpl.
  - exists [], (metrics st), []. rewrite app_nil_r. by destruct st.
  - destruct (Z.leb_spec (expiry_ms s) now) as [Hle|Hgt].
    + destruct (commit_filtered_effect (map text (tokens s))
                  (set_awaiting snaps st)) as (kept & m & ->).
      destruct (IH (bump_metric SnapshotExpiredCommits
                      (Z.of_nat (length kept))
                      (set_stable (stable (set_awaiting snaps st) ++ kept)
                         (set_metrics m (set_awaiting snaps st)))))
        as (added & m' & rest & -> & Hsuf & Hhd).
      exists (kept ++ added), m', rest.
      split_and!; [|by apply suffix_cons_r|done].
      cbn. by rewrite app_assoc.
    + exists [], (metrics st), (s :: snaps). rewrite app_nil_r.
      split_and!; [by destruct st|done|done].
Qed.

Lemma promote_walk_effect (pend : list Token) (n : nat) (batch : list string)
    (m : Metrics) :
  exists k more m',
    promote_walk cfg time_fn pend n batch m
    = (drop k pend, (n + k + (if bool_decide (k < length pend)%nat
                              then 1 else 0))%nat,
       batch ++ more, m')
    /\ (k <= length pend)%nat
    /\ more = map text (take k pend).
Proof.
  revert n batch m. induction pend as [|t pend IH]; intros n batch m; simpl.
  - exists O, [], m. rewrite app_nil_r. split_and!; try done.
    simpl. repeat f_equal. lia.
  - destruct (K cfg <=? confirmation_count t).
    { destruct (IH (S n) (batch ++ [text t])
                  (bump TokensCommittedByStability 1 m))
        as (k & more & m' & -> & Hk & ->).
      exists (S k), (text t :: map text (take k pend)), m'.
      split_and!; [|simpl; lia|done]. simpl. rewrite <- app_assoc. simpl.
      clear IH. repeat f_equal; repeat case_bool_decide; lia. }
    destruct (T_ms cfg <=? _).
    { destruct (IH (S n) (batch ++ [text t])
                  (bump TokensCommittedByFlush 1 m))
        as (k & more & m' & -> & Hk & ->).
      exists (S k), (text t :: map text (take k pend)), m'.
      split_and!; [|simpl; lia|done]. simpl. rewrite <- app_assoc. simpl.
      clear IH. repeat f_equal; repeat case_bool_decide; lia. }
    exists O, [], m. rewrite app_nil_r. split_and!; [|lia|done].
    simpl. repeat f_equal. try case_bool_decide; lia.
Qed.

End Frames.

Section PhaseFacts.
Variable cfg : Config.
Variable time_fn : nat -> Q.

Lemma add_partial_phases (txt : string) (now_ms : option Z) (st : State) :
  add_partial cfg time_fn txt now_ms st
  = let (now, st1) := enter cfg time_fn TotalPartials now_ms st in
    let st2 := _record_partial_history cfg (Text.tokenize txt) now st1 in
    st3 ← align_pending time_fn (Text.tokenize txt) st2;
    let st4 := settle_partial cfg time_fn now st3 in
    Some (build_display_event false st4, st4).
Proof.
  unfold add_partial, enter, align_pending, settle_partial.
  destruct (resolve_now _ _ _) as [now st0]. cbv zeta.
  destruct (confirm_lcp _ _ _ _) as [st3|]; [|done]. cbn [mbind option_bind].
  by destruct (_promote_leftmost_ready _ _ _ _).
Qed.

Lemma add_final_phases (txt : string) (now_ms : option Z) (st : State) :
  add_final cfg time_fn txt now_ms st
  = let (now, st1) := enter cfg time_fn TotalFinals now_ms st in
    match Text.tokenize txt with
    | [] =>
        let st2 := force_segment_break cfg time_fn (Some now) st1 in
        Some (build_display_event true st2, st2)
    | _ :: _ =>
        st2 ← reconcile cfg (Text.tokenize txt) now st1;
        Some (build_display_event true st2, st2)
    end.
Proof.
  unfold add_final, enter, reconcile.
  destruct (resolve_now _ _ _) as [now st0]. cbv zeta.
  destruct (Text.tokenize txt) as [|tok toks]; [done|].
  destruct (_build_context_for_final _ _) as [[[[ctx idx] a] b] c].
  cbv zeta.
  match goal with
  | |- context [mbind _ ?x] => destruct x as [[r s]|]; [|done]
  end.
  cbn [mbind option_bind]. done.
Qed.

End PhaseFacts.

Section AlignFacts.
Variable cfg : Config.
Variable time_fn : nat -> Q.

Lemma confirm_lcp_effect (mid pre post : list Token) (st : State) :
  pending_tokens st = pre ++ mid ++ post ->
  confirm_lcp time_fn (length mid) (length pre) st
  = Some (set_reads (clock_reads st + length mid)
            (set_pending
               (pre ++ confirmed_tokens time_fn (clock_reads st) mid ++ post)
               st)).
Proof.
  revert pre st. induction mid as [|t mid IH]; intros pre st Hp.
  - simpl. f_equal. destruct st; setters; simpl in *. subst. f_equal; lia.
  - cbn [confirm_lcp length]. cbn [app] in Hp. rewrite Hp.
    rewrite list_lookup_middle by done. cbn [mbind option_bind read_clock].
    cbn [pending_tokens set_reads set_pending].
    rewrite Hp. rewrite insert_app_r_alt by lia.
    rewrite Nat.sub_diag. cbn [insert list_insert app].
    set (t' := mkToken _ _ _ _).
    specialize (IH (pre ++ [t'])). rewrite length_app in IH. simpl in IH.
    rewrite Nat.add_1_r in IH. rewrite IH.
    + f_equal. destruct st; setters; simpl in *. rewrite <- !app_assoc.
      simpl. f_equal. lia.
    + simpl. by rewrite <- app_assoc.
Qed.

Lemma append_fresh_effect (toks : list string) (st : State) :
  append_fresh time_fn toks st
  = set_reads (clock_reads st + length toks)
      (set_pending
         (pending_tokens st ++ fresh_tokens time_fn (clock_reads st) toks)
         st).
Proof.
  revert st. induction toks as [|tok toks IH]; intros st.
  - simpl. destruct st; setters; simpl. rewrite app_nil_r. f_equal. lia.
  - cbn [append_fresh read_clock]. rewrite IH. destruct st; setters; simpl.
    rewrite <- app_assoc. simpl. f_equal. lia.
Qed.

Lemma length_confirmed_tokens (n : nat) (toks : list Token) :
  length (confirmed_tokens time_fn n toks) = length toks.
Proof.
  revert n. induction toks as [|t toks IH]; intros n; simpl; [done|].
  by rewrite IH.
Qed.

Lemma lcp_len_le_l (a b : list string) : (lcp_len a b <= length a)%nat.
Proof.
  revert b. induction a as [|x a IH]; intros [|y b]; simpl; try lia.
  case_bool_decide; [specialize (IH b)|]; lia.
Qed.

(** Alignment cannot fail, and this is the state it leaves. *)
Lemma align_pending_effect (cur : list string) (st : State) :
  let l := lcp_len (map text (pending_tokens st)) cur in
  align_pending time_fn cur st
  = Some (set_reads (clock_reads st + l + length (drop l cur))
            (set_pending
               (confirmed_tokens time_fn (clock_reads st)
                  (take l (pending_tokens st))
                ++ fresh_tokens time_fn (clock_reads st + l) (drop l cur))
               st)).
Proof.
  intros l. unfold align_pending. fold l.
  assert (Hl : (l <= length (pending_tokens st))%nat).
  { unfold l. etrans; [apply lcp_len_le_l|]. by rewrite length_map. }
  pose proof (confirm_lcp_effect (take l (pending_tokens st)) []
                (drop l (pending_tokens st)) st) as H.
  rewrite length_take_le in H by done. simpl in H.
  rewrite H by (by rewrite take_drop). clear H.
  cbn [mbind option_bind]. f_equal. rewrite append_fresh_effect.
  destruct st; setters; simpl in *. do 2 f_equal.
  rewrite take_app_length'; [done|].
  by rewrite length_confirmed_tokens, length_take_le.
Qed.

End AlignFacts.

Section EntryFacts.
Variable cfg : Config.
Variable time_fn : nat -> Q.

Lemma force_segment_break_effect (now_ms : option Z) (st : State) :
  force_segment_break cfg time_fn now_ms st
  = mkState (stable st) []
      (awaiting_final st ++ shelved cfg (logical_now time_fn now_ms st) st)
      (partial_history st) (segment_id st + 1)
      (Some (logical_now time_fn now_ms st))
      (bump SegmentRolls 1 (metrics st))
      (clock_reads st + now_reads now_ms).
Proof.
  unfold force_segment_break, shelved, _snapshot_pending.
  destruct now_ms as [n|]; destruct st as [s p a h i g m r]; simpl;
    destruct p; setters; simpl; f_equal; rewrite ?app_nil_r; try done; lia.
Qed.

Lemma enter_effect (k : MetricKey) (now_ms : option Z) (st : State) :
  exists added m rest started,
    enter cfg time_fn k now_ms st
    = (logical_now time_fn now_ms st,
       mkState (stable st ++ added) (pending_tokens st) rest
         (partial_history st) (segment_id st) (Some started) m
         (clock_reads st + now_reads now_ms))
    /\ rest `suffix_of` awaiting_final st
    /\ match rest with
       | [] => True
       | s :: _ => logical_now time_fn now_ms st < expiry_ms s
       end.
Proof.
  unfold enter, _expire_snapshots.
  set (now := logical_now time_fn now_ms st).
  assert (exists st1,
    resolve_now time_fn now_ms (bump_metric k 1 st) = (now, st1)
    /\ st1 = set_reads (clock_reads st + now_reads now_ms)
               (bump_metric k 1 st)) as (st1 & -> & Hst1).
  { destruct now_ms; simpl; eexists; (split; [reflexivity|]);
      destruct st; setters; simpl; f_equal; lia. }
  assert (exists started,
    _ensure_segment_started time_fn (Some now) st1
    = set_segment_started (Some started) st1) as (started & ->).
  { unfold _ensure_segment_started.
    destruct (segment_started_ms st1) as [g|] eqn:E.
    - exists g. destruct st1; simpl in *. by subst.
    - by exists now. }
  destruct (expire_loop_effect cfg now
              (awaiting_final (set_segment_started (Some started) st1))
              (set_segment_started (Some started) st1))
    as (added & m & rest & -> & Hsuf & Hhd).
  exists added, m, rest, started. subst st1. split_and!; [|done|done].
  by destruct st.
Qed.

Lemma promote_effect (now : Z) (st : State) :
  exists k kept m,
    (_promote_leftmost_ready cfg time_fn now st).2
    = mkState (stable st ++ kept) (drop k (pending_tokens st))
        (awaiting_final st) (partial_history st) (segment_id st)
        (segment_started_ms st) m
        (clock_reads st + k
         + (if bool_decide (k < length (pending_tokens st))%nat
            then 1 else 0))
    /\ (k <= length (pending_tokens st))%nat.
Proof.
  unfold _promote_leftmost_ready.
  destruct (promote_walk_effect cfg time_fn (pending_tokens st)
              (clock_reads st) [] (metrics st))
    as (k & more & m & -> & Hk & _).
  destruct ([] ++ more) as [|b batch].
  - exists k, [], m. split; [|done]. simpl. rewrite app_nil_r. done.
  - destruct (commit_filtered_effect cfg (b :: batch)
                (set_reads
                   (clock_reads st + k
                    + (if bool_decide (k < length (pending_tokens st))%nat
                       then 1 else 0))
                   (set_metrics m
                      (set_pending (drop k (pending_tokens st)) st))))
      as (kept & m' & ->).
    exists k, kept, m'. done.
Qed.

Lemma settle_partial_effect (now : Z) (st : State) :
  exists kept,
    let st' := settle_partial cfg time_fn now st in
    stable st' = stable st ++ kept
    /\ (clock_reads st <= clock_reads st')%nat
    /\ ((awaiting_final st' = awaiting_final st
         /\ exists k, pending_tokens st' = drop k (pending_tokens st))
        \/ (pending_tokens st' = []
            /\ exists shelf,
                 awaiting_final st' = awaiting_final st ++ shelf
                 /\ Forall (fun s => expiry_ms s
                                     = now + awaiting_final_ttl_ms cfg) shelf)).
Proof.
  unfold settle_partial.
  destruct (promote_effect now st) as (k & kept & m & Hp & Hk).
  destruct (_promote_leftmost_ready cfg time_fn now st) as [n st1].
  simpl in Hp. subst st1. exists kept. cbn [segment_started_ms].
  destruct (segment_started_ms st) as [g|];
    [destruct (max_segment_ms cfg <=? now - g)|].
  - rewrite force_segment_break_effect. cbn.
    split_and!; [done|lia|]. right. split; [done|].
    eexists. split; [done|]. unfold shelved. cbn.
    destruct (drop k _); by repeat constructor.
  - cbn. split_and!; [done|lia|]. left. split; [done|by exists k].
  - cbn. split_and!; [done|lia|]. left. split; [done|by exists k].
Qed.

End EntryFacts.

Section ReconcileFacts.
Variable cfg : Config.
Variable time_fn : nat -> Q.

Lemma token_eqb_refl (t : Token) : token_eqb t t = true.
Proof.
  unfold token_eqb. rewrite bool_decide_eq_true_2 by done.
  rewrite Z.eqb_refl. simpl.
  by rewrite !(proj2 (Qeq_bool_iff _ _) (Qeq_refl _)).
Qed.

Lemma tokens_eqb_refl (l : list Token) : tokens_eqb l l = true.
Proof.
  induction l as [|t l IH]; simpl; [done|]. by rewrite token_eqb_refl, IH.
Qed.

Lemma snapshot_eqb_refl (s : Snapshot) : snapshot_eqb s s = true.
Proof.
  unfold snapshot_eqb. by rewrite tokens_eqb_refl, !Z.eqb_refl.
Qed.

(** Removing a snapshot that is in the deque succeeds and removes exactly
    one element. *)
Lemma deque_remove_present (x : Snapshot) (l : list Snapshot) :
  x ∈ l ->
  exists l', deque_remove x l = Some l' /\ l' `sublist_of` l.
Proof.
  induction l as [|y l IH]; intros Hx; [by apply elem_of_nil in Hx|].
  simpl. destruct (snapshot_eqb y x) eqn:E.
  - exists l. split; [done|]. by apply sublist_cons.
  - apply elem_of_cons in Hx as [->|Hx].
    + by rewrite snapshot_eqb_refl in E.
    + destruct (IH Hx) as (l' & -> & Hsub). exists (y :: l').
      split; [done|]. by apply sublist_skip.
Qed.

Lemma drop_consumed_effect (st : State) (idx : nat) (snap : Snapshot) :
  awaiting_final st !! idx = Some snap ->
  exists aw,
    match tokens snap with
    | [] => aw ← deque_remove snap (awaiting_final st);
            Some (set_awaiting aw st)
    | _ :: _ => Some st
    end = Some (set_awaiting aw st)
    /\ aw `sublist_of` awaiting_final st.
Proof.
  intros Hs. destruct (tokens snap).
  - destruct (deque_remove_present snap (awaiting_final st))
      as (aw & -> & Hsub); [by eapply list_elem_of_lookup_2|].
    by exists aw.
  - exists (awaiting_final st). split; [by destruct st|done].
Qed.

(** The rescue cannot fail when it is handed a snapshot of the deque and
    its length; it appends to [stable] and only trims or removes
    snapshots. *)
Lemma rescue_orphans_effect (idx len_st : nat) (overlap_start : Z)
    (st : State) (snap : Snapshot) :
  awaiting_final st !! idx = Some snap ->
  exists rescued kept m aw,
    rescue_orphans cfg idx len_st (length (tokens snap)) overlap_start st
    = Some (rescued,
            mkState (stable st ++ kept) (pending_tokens st) aw
              (partial_history st) (segment_id st) (segment_started_ms st)
              m (clock_reads st))
    /\ expiry_ms <$> aw `sublist_of` expiry_ms <$> awaiting_final st.
Proof.
  intros Hs. unfold rescue_orphans.
  set (left_end := Z.min _ _).
  pose proof (lookup_lt_Some _ _ _ Hs) as Hidx.
  destruct (Z.leb_spec (Z.of_nat len_st) left_end) as [Hle|Hgt].
  - set (left_count := Z.to_nat _).
    assert (Hlc : (left_count <= length (tokens snap))%nat)
      by (unfold left_count, left_end; lia).
    destruct (mapM_is_Some_2
                (fun i => snap ← awaiting_final st !! idx;
                          t ← tokens snap !! i; Some (text t))
                (seq 0 left_count)) as [orphaned ->].
    { apply Forall_seq. intros j Hj. rewrite Hs. simpl.
      destruct (lookup_lt_is_Some_2 (tokens snap) j) as [t ->]; [lia|].
      by eexists. }
    cbn [mbind option_bind].
    destruct (commit_filtered_effect cfg orphaned st) as (kept & m & ->).
    cbn [awaiting_final set_stable set_metrics]. rewrite Hs.
    cbn [mbind option_bind]. cbn [awaiting_final set_awaiting].
    rewrite list_lookup_insert_eq by done.
    cbn [mbind option_bind].
    set (snap' := mkSnapshot _ _ _ _).
    set (st1 := set_awaiting _ _).
    destruct (drop_consumed_effect st1 idx snap') as (aw & Haw & Hsub).
    { unfold st1. cbn. by rewrite list_lookup_insert_eq. }
    change (tokens snap') with (drop left_count (tokens snap)) in *.
    change (awaiting_final st1)
      with (<[idx:=snap']> (awaiting_final st)) in Haw.
    rewrite Haw. cbn [mbind option_bind].
    assert (Hexp : expiry_ms <$> aw `sublist_of`
                   expiry_ms <$> awaiting_final st).
    { etrans; [by apply fmap_sublist|]. unfold st1. cbn.
      rewrite list_fmap_insert. cbn.
      rewrite list_insert_id; [done|]. by rewrite list_lookup_fmap, Hs. }
    destruct (Nat.ltb 0 (length kept));
      eexists _, kept, _, aw; (split; [|done]); reflexivity.
  - cbn [mbind option_bind]. rewrite Hs. cbn [mbind option_bind].
    destruct (drop_consumed_effect st idx snap Hs) as (aw & -> & Hsub).
    cbn [mbind option_bind]. exists O, [], (metrics st), aw.
    split; [|by apply fmap_sublist]. rewrite app_nil_r. by destruct st.
Qed.

End ReconcileFacts.

Section ReconcileEffect.
Variable cfg : Config.
Variable time_fn : nat -> Q.

(** Reconciliation cannot fail; it appends to [stable], empties pending,
    rolls the segment and only trims or removes snapshots. *)
Lemma reconcile_effect (final_tokens : list string) (now : Z) (st : State) :
  exists kept m aw,
    reconcile cfg final_tokens now st
    = Some (mkState (stable st ++ kept) [] aw (partial_history st)
              (segment_id st + 1) (Some now) m (clock_reads st))
    /\ expiry_ms <$> aw `sublist_of` expiry_ms <$> awaiting_final st.
Proof.
  unfold reconcile.
  pose proof (build_best_spec final_tokens st) as Hsel.
  destruct (_build_context_for_final final_tokens st)
    as [[[[ctx idx] len_st] len_snap] len_pend].
  cbv zeta in Hsel. destruct Hsel as (_ & _ & Hsel).
  set (m := _longest_suffix_prefix ctx final_tokens) in *.
  set (ov := Z.of_nat (length ctx) - Z.of_nat m).
  assert (exists kept1 m1 aw1 r,
    match idx with
    | Some idx =>
        if Nat.ltb 0 len_snap
        then rescue_orphans cfg idx len_st len_snap ov st
        else Some (O, st)
    | None => Some (O, st)
    end
    = Some (r, mkState (stable st ++ kept1) (pending_tokens st) aw1
                 (partial_history st) (segment_id st)
                 (segment_started_ms st) m1 (clock_reads st))
    /\ expiry_ms <$> aw1 `sublist_of` expiry_ms <$> awaiting_final st)
    as (kept1 & m1 & aw1 & r & -> & Hsub).
  { assert (Some (O, st)
            = Some (O, mkState (stable st ++ []) (pending_tokens st)
                         (awaiting_final st) (partial_history st)
                         (segment_id st) (segment_started_ms st)
                         (metrics st) (clock_reads st))) as Hid
      by (rewrite app_nil_r; by destruct st).
    destruct idx as [i|]; [|by eexists [], _, _, _].
    destruct (Nat.ltb 0 len_snap); [|by eexists [], _, _, _].
    destruct Hsel as (snap & Hs & _ & -> & _).
    destruct (rescue_orphans_effect cfg i len_st ov st snap Hs)
      as (r & kept & m' & aw & -> & Hsub).
    by exists kept, m', aw, r. }
  cbn [mbind option_bind].
  destruct (drop m final_tokens) as [|x rest] eqn:E.
  - exists kept1, m1, aw1. split; [done|done].
  - set (st1 := mkState _ _ _ _ _ _ _ _).
    destruct (dedup_effect cfg (x :: rest) st1) as (kept2 & m2 & ->).
    exists (kept1 ++ kept2), (bump TokensCommittedByFinal
                                (Z.of_nat (length kept2)) m2), aw1.
    split; [|done]. cbn. by rewrite app_assoc.
Qed.

(** [add_partial] always returns. *)
Lemma add_partial_effect (txt : string) (now_ms : option Z) (st : State) :
  exists ev st' kept,
    add_partial cfg time_fn txt now_ms st = Some (ev, st')
    /\ stable st' = stable st ++ kept.
Proof.
  rewrite add_partial_phases.
  destruct (enter_effect cfg time_fn TotalPartials now_ms st)
    as (added & m & rest & started & -> & _).
  cbv zeta. rewrite align_pending_effect. cbn [mbind option_bind].
  set (st3 := set_reads _ _).
  destruct (settle_partial_effect cfg time_fn
              (logical_now time_fn now_ms st) st3) as (kept & Hst & _).
  eexists _, _, (added ++ kept). split; [done|].
  cbv zeta in Hst. rewrite Hst. cbn. by rewrite app_assoc.
Qed.

(** [add_final] always returns. *)
Lemma add_final_effect (txt : string) (now_ms : option Z) (st : State) :
  exists ev st' kept,
    add_final cfg time_fn txt now_ms st = Some (ev, st')
    /\ stable st' = stable st ++ kept.
Proof.
  rewrite add_final_phases.
  destruct (enter_effect cfg time_fn TotalFinals now_ms st)
    as (added & m & rest & started & -> & _).
  destruct (Text.tokenize txt) as [|tok toks].
  - cbv zeta. rewrite force_segment_break_effect.
    eexists _, _, added. split; [done|]. done.
  - set (st1 := mkState _ _ _ _ _ _ _ _).
    destruct (reconcile_effect (tok :: toks)
                (logical_now time_fn now_ms st) st1)
      as (kept & m' & aw & -> & _).
    cbn [mbind option_bind]. eexists _, _, (added ++ kept).
    split; [done|]. cbn. by rewrite app_assoc.
Qed.

(** Every call returns; unless it is [reset], it only appends to
    [stable]. *)
Lemma step_effect (op : Op) (st : State) :
  exists out st',
    step cfg time_fn op st = Some (out, st')
    /\ (is_reset op = false -> stable st `prefix_of` stable st').
Proof.
  destruct op as [txt now|txt now|now|fin| |]; simpl.
  - destruct (add_partial_effect txt now st) as (ev & st' & kept & -> & Hk).
    eexists _, _. split; [done|]. intros _. rewrite Hk. by apply prefix_app_r.
  - destruct (add_final_effect txt now st) as (ev & st' & kept & -> & Hk).
    eexists _, _. split; [done|]. intros _. rewrite Hk. by apply prefix_app_r.
  - eexists _, _. split; [done|]. intros _.
    by rewrite force_segment_break_effect.
  - by eexists _, _.
  - by eexists _, _.
  - by eexists _, _.
Qed.

(** C1.  Through any sequence of calls to [add_partial], [add_final],
    [force_segment_break] (and the two read-only calls) from any state,
    every call returns and [stable] before the sequence is a prefix of
    [stable] after it: nothing already in [stable] is removed, replaced or
    reordered.  A single call is the sequence of length one. *)
Theorem stable_is_prefix_of_its_future (ops : list Op) (st : State) :
  forallb (fun op => negb (is_reset op)) ops = true ->
  exists outs st',
    run cfg time_fn ops st = Some (outs, st')
    /\ stable st `prefix_of` stable st'.
Proof.
  revert st. induction ops as [|op ops IH]; intros st Hops.
  - by exists [], st.
  - simpl in Hops. apply andb_prop in Hops as [Hop Hops].
    apply negb_true_iff in Hop.
    destruct (step_effect op st) as (out & st1 & Hstep & Hpre).
    destruct (IH st1 Hops) as (outs & st2 & Hrun & Hpre').
    exists (out :: outs), st2. simpl. rewrite Hstep. simpl.
    rewrite Hrun. simpl. split; [done|]. etrans; [by apply Hpre|done].
Qed.

End ReconcileEffect.

Lemma stable_is_prefix_of_its_future_witness :
  exists outs st',
    run default_config (fun _ => 0%Q)
      [OpPartial "a b" None; OpPartial "a b c" None; OpBreak None;
       OpFinal "a b c d" None]%string
      (set_stable ["so"]%string init_state)
    = Some (outs, st')
    /\ ["so"]%string `prefix_of` stable st'.
Proof.
  apply (stable_is_prefix_of_its_future default_config (fun _ => 0%Q)
           [OpPartial "a b" None; OpPartial "a b c" None; OpBreak None;
            OpFinal "a b c d" None]%string
           (set_stable ["so"]%string init_state)).
  reflexivity.
Defined.

(** ** Empty finals *)

Section EmptyFinal.
Variable cfg : Config.
Variable time_fn : nat -> Q.

(** C8.  A final whose text has no tokens never fails: after the expiry
    of old snapshots it forces a segment break.  Pending, when non-empty,
    is copied into a new snapshot at the back of [awaiting_final] and then
    cleared, [segment_id] grows by one, and the event returned has
    [is_final = true]. *)
Theorem add_final_empty_forces_break (txt : string) (now_ms : option Z)
    (st : State) :
  Text.tokenize txt = [] ->
  exists ev st' unexpired,
    add_final cfg time_fn txt now_ms st = Some (ev, st')
    /\ ev = build_display_event true st'
    /\ ev_is_final ev = true
    /\ pending_tokens st' = []
    /\ segment_id st' = segment_id st + 1
    /\ segment_started_ms st' = Some (logical_now time_fn now_ms st)
    /\ unexpired `suffix_of` awaiting_final st
    /\ awaiting_final st'
       = unexpired ++ shelved cfg (logical_now time_fn now_ms st) st.
Proof.
  intros Htok. rewrite add_final_phases, Htok.
  destruct (enter_effect cfg time_fn TotalFinals now_ms st)
    as (added & m & rest & started & -> & Hsuf & _).
  cbv zeta. rewrite force_segment_break_effect.
  eexists _, _, rest. split; [reflexivity|]. by split_and!.
Qed.

End EmptyFinal.

Lemma add_final_empty_forces_break_witness :
  let st := set_pending [mkToken "testing" 1 0 0] init_state in
  exists ev st' unexpired,
    add_final default_config (fun _ => 0%Q) "  " (Some 500) st
    = Some (ev, st')
    /\ ev = build_display_event true st'
    /\ ev_is_final ev = true
    /\ pending_tokens st' = []
    /\ segment_id st' = segment_id st + 1
    /\ segment_started_ms st' = Some 500
    /\ unexpired `suffix_of` awaiting_final st
    /\ awaiting_final st'
       = unexpired ++ shelved default_config 500 st.
Proof.
  intros st.
  apply (add_final_empty_forces_break default_config (fun _ => 0%Q)
           "  " (Some 500) st).
  reflexivity.
Defined.

(** ** Determinism *)

Section Determinism.
Variable cfg : Config.
Variables clk1 clk2 : nat -> Q.
Hypothesis same_readings : forall k, clk1 k = clk2 k.

Lemma read_clock_ext (st : State) : read_clock clk1 st = read_clock clk2 st.
Proof. unfold read_clock. by rewrite same_readings. Qed.

Lemma resolve_now_ext (now_ms : option Z) (st : State) :
  resolve_now clk1 now_ms st = resolve_now clk2 now_ms st.
Proof.
  destruct now_ms; [done|]. unfold resolve_now, _now_ms.
  by rewrite read_clock_ext.
Qed.

Lemma ensure_segment_started_ext (now_ms : option Z) (st : State) :
  _ensure_segment_started clk1 now_ms st
  = _ensure_segment_started clk2 now_ms st.
Proof.
  unfold _ensure_segment_started. by rewrite resolve_now_ext.
Qed.

Lemma enter_ext (k : MetricKey) (now_ms : option Z) (st : State) :
  enter cfg clk1 k now_ms st = enter cfg clk2 k now_ms st.
Proof.
  unfold enter. rewrite resolve_now_ext.
  destruct (resolve_now clk2 _ _) as [now st1].
  by rewrite ensure_segment_started_ext.
Qed.

Lemma confirm_lcp_ext (l i : nat) (st : State) :
  confirm_lcp clk1 l i st = confirm_lcp clk2 l i st.
Proof.
  revert i st. induction l as [|l IH]; intros i st; [done|].
  cbn [confirm_lcp]. destruct (pending_tokens st !! i) as [t|]; [|done].
  cbn [mbind option_bind]. rewrite read_clock_ext.
  destruct (read_clock clk2 st) as [now_s st1]. apply IH.
Qed.

Lemma append_fresh_ext (toks : list string) (st : State) :
  append_fresh clk1 toks st = append_fresh clk2 toks st.
Proof.
  revert st. induction toks as [|tok toks IH]; intros st; [done|].
  cbn [append_fresh]. rewrite read_clock_ext.
  destruct (read_clock clk2 st) as [now_s st1]. apply IH.
Qed.

Lemma align_pending_ext (cur : list string) (st : State) :
  align_pending clk1 cur st = align_pending clk2 cur st.
Proof.
  unfold align_pending. rewrite confirm_lcp_ext.
  destruct (confirm_lcp clk2 _ _ _) as [st1|]; [|done].
  cbn [mbind option_bind]. by rewrite append_fresh_ext.
Qed.

Lemma promote_walk_ext (pend : list Token) (n : nat) (batch : list string)
    (m : Metrics) :
  promote_walk cfg clk1 pend n batch m = promote_walk cfg clk2 pend n batch m.
Proof.
  revert n batch m. induction pend as [|t pend IH]; intros n batch m;
    [done|].
  cbn [promote_walk]. rewrite same_readings, !IH. done.
Qed.

Lemma force_segment_break_ext (now_ms : option Z) (st : State) :
  force_segment_break cfg clk1 now_ms st
  = force_segment_break cfg clk2 now_ms st.
Proof. unfold force_segment_break. by rewrite resolve_now_ext. Qed.

Lemma settle_partial_ext (now : Z) (st : State) :
  settle_partial cfg clk1 now st = settle_partial cfg clk2 now st.
Proof.
  unfold settle_partial, _promote_leftmost_ready.
  rewrite promote_walk_ext.
  destruct (promote_walk cfg clk2 _ _ _ _) as [[[pend n] batch] m].
  destruct (match batch with [] => _ | _ => _ end) as [promoted st1].
  destruct (segment_started_ms st1); [|done].
  by rewrite force_segment_break_ext.
Qed.

Lemma step_ext (op : Op) (st : State) :
  step cfg clk1 op st = step cfg clk2 op st.
Proof.
  destruct op as [txt now|txt now|now|fin| |]; simpl; try done.
  - rewrite !add_partial_phases, enter_ext.
    destruct (enter cfg clk2 _ _ _) as [n st1]. cbv zeta.
    rewrite align_pending_ext.
    destruct (align_pending clk2 _ _) as [st3|]; [|done].
    cbn [mbind option_bind]. by rewrite settle_partial_ext.
  - rewrite !add_final_phases, enter_ext.
    destruct (enter cfg clk2 _ _ _) as [n st1].
    destruct (Text.tokenize txt); [|done].
    cbv zeta. by rewrite force_segment_break_ext.
  - by rewrite force_segment_break_ext.
Qed.


End Determinism.


(** ** The T-timeout scenario *)

(** C2, evaluated.  With K = 2 and T = 1400 ms, after the partial
    ["alpha beta"] at t = 0 (which takes four clock readings) and the
    partial ["beta gamma"] at t = 1.6 s, [stable] is empty and pending is
    [beta gamma]: the alignment of the second partial drops [alpha] before
    the promotion walk can see that it has timed out.  The same holds with
    the two times given as explicit timestamps. *)
Theorem t_timeout_scenario_drops_alpha :
  t_timeout_scenario (fake_clock 4 0 (16 # 10)) None None
  = Some (4%nat, [], ["beta"; "gamma"]%string, ""%string)
  /\ t_timeout_scenario (fake_clock 3 0 (16 # 10)) (Some 0) (Some 1600)
     = Some (3%nat, [], ["beta"; "gamma"]%string, ""%string).
Proof. split; vm_compute; reflexivity. Qed.

(** ** Ordering of pending, and freshness *)

Section PendingFacts.
Variable cfg : Config.
Variable time_fn : nat -> Q.
Hypothesis clock_monotonic : monotonic time_fn.

Lemma py_int_mono (p q : Q) : (p <= q)%Q -> py_int p <= py_int q.
Proof.
  destruct p as [n1 d1], q as [n2 d2]. unfold Qle, py_int. simpl.
  intros H.
  rewrite <- (Z.quot_mul_cancel_r n1 (Z.pos d1) (Z.pos d2)) by lia.
  rewrite <- (Z.quot_mul_cancel_r n2 (Z.pos d2) (Z.pos d1)) by lia.
  rewrite (Z.mul_comm (Z.pos d2) (Z.pos d1)).
  apply Z.quot_le_mono; lia.
Qed.

Lemma age_ms_antitone (now : Q) (a b : Token) :
  (first_seen_time a <= first_seen_time b)%Q -> age_ms now b <= age_ms now a.
Proof.
  intros H. apply py_int_mono. apply Qmult_le_compat_r; [|done].
  apply Qplus_le_compat; [apply Qle_refl|by apply Qopp_le_compat].
Qed.

Lemma confirmed_tokens_Forall2 (n : nat) (toks : list Token) :
  Forall2 (fun t t' => confirmation_count t' = confirmation_count t + 1
                       /\ first_seen_time t' = first_seen_time t)
          toks (confirmed_tokens time_fn n toks).
Proof.
  revert n. induction toks as [|t toks IH]; intros n; simpl;
    constructor; [done|apply IH].
Qed.

Lemma confirmed_tokens_ordered (n : nat) (toks : list Token) :
  pending_ordered toks -> pending_ordered (confirmed_tokens time_fn n toks).
Proof.
  unfold pending_ordered. revert n.
  induction toks as [|t toks IH]; intros n; simpl; [done|].
  rewrite !StronglySorted_cons. intros [Hall Hs]. split; [|by apply IH].
  rewrite Forall_forall in Hall. apply Forall_forall. intros t' Ht'.
  pose proof (confirmed_tokens_Forall2 (S n) toks) as HF.
  apply list_elem_of_lookup in Ht' as [i Hi].
  destruct (Forall2_lookup_r _ _ _ _ _ HF Hi) as (t0 & Hi0 & Hc & Hf).
  destruct (Hall t0) as [Hc0 Hf0]; [by eapply list_elem_of_lookup_2|].
  unfold token_before. simpl. rewrite Hc, Hf. split; [lia|done].
Qed.

Lemma fresh_tokens_elem (n : nat) (toks : list string) (t : Token) :
  t ∈ fresh_tokens time_fn n toks ->
  confirmation_count t = 1
  /\ exists j, (n <= j < n + length toks)%nat
               /\ first_seen_time t = time_fn j.
Proof.
  revert n. induction toks as [|tok toks IH]; intros n; simpl.
  - intros H. by apply elem_of_nil in H.
  - intros [->|H]%elem_of_cons.
    + split; [done|]. exists n. split; [lia|done].
    + destruct (IH _ H) as [Hc (j & Hj & Hf)]. split; [done|].
      exists j. split; [lia|done].
Qed.

Lemma fresh_tokens_ordered (n : nat) (toks : list string) :
  pending_ordered (fresh_tokens time_fn n toks).
Proof.
  unfold pending_ordered. revert n.
  induction toks as [|tok toks IH]; intros n; simpl; [constructor|].
  apply StronglySorted_cons. split; [|apply IH].
  apply Forall_forall. intros t Ht.
  destruct (fresh_tokens_elem _ _ _ Ht) as [Hc (j & Hj & Hf)].
  unfold token_before. simpl. rewrite Hc, Hf. split; [lia|].
  apply clock_monotonic. lia.
Qed.

Lemma pending_inv_weaken (st st' : State) (k : nat) :
  pending_inv time_fn st ->
  pending_tokens st' = drop k (pending_tokens st) ->
  (clock_reads st <= clock_reads st')%nat ->
  pending_inv time_fn st'.
Proof.
  intros [Ho Hall] Hp Hr. unfold pending_inv. rewrite Hp. split.
  - unfold pending_ordered in *.
    rewrite <- (take_drop k (pending_tokens st)) in Ho.
    by apply StronglySorted_app_1_r in Ho.
  - eapply Forall_impl; [by apply Forall_drop|].
    intros t [Hc Hf]. split; [done|]. intros j Hj. apply Hf. lia.
Qed.

Lemma pending_inv_nil (st : State) :
  pending_tokens st = [] -> pending_inv time_fn st.
Proof.
  intros Hp. unfold pending_inv, pending_ordered. rewrite Hp.
  split; constructor.
Qed.

Lemma align_pending_inv (cur : list string) (st st' : State) :
  pending_inv time_fn st ->
  align_pending time_fn cur st = Some st' ->
  pending_inv time_fn st'.
Proof.
  intros [Ho Hall]. rewrite align_pending_effect. intros [= <-].
  set (l := lcp_len _ _). set (r := clock_reads st).
  unfold pending_inv. cbn [pending_tokens clock_reads set_reads set_pending].
  pose proof (confirmed_tokens_Forall2 r (take l (pending_tokens st))) as HF.
  assert (Hold : forall t', t' ∈ confirmed_tokens time_fn r
                                   (take l (pending_tokens st)) ->
            2 <= confirmation_count t'
            /\ forall k, (r <= k)%nat -> (first_seen_time t' <= time_fn k)%Q).
  { intros t' [i Hi]%list_elem_of_lookup.
    destruct (Forall2_lookup_r _ _ _ _ _ HF Hi) as (t0 & Hi0 & Hc & Hf).
    rewrite Forall_forall in Hall.
    destruct (Hall t0) as [Hc0 Hf0].
    { apply (list_elem_of_lookup_2 _ i).
      rewrite lookup_take_Some in Hi0. by destruct Hi0. }
    rewrite Hc, Hf. split; [lia|done]. }
  split.
  - apply StronglySorted_app_2.
    + intros a b Ha Hb. destruct (Hold a Ha) as [Hca Hfa].
      destruct (fresh_tokens_elem _ _ _ Hb) as [Hcb (j & Hj & Hfb)].
      unfold token_before. rewrite Hcb, Hfb. split; [lia|].
      apply Hfa. lia.
    + apply confirmed_tokens_ordered. unfold pending_ordered in *.
      rewrite <- (take_drop l (pending_tokens st)) in Ho.
      by apply StronglySorted_app_1_l in Ho.
    + apply fresh_tokens_ordered.
  - apply Forall_app. split; apply Forall_forall.
    + intros t' Ht'. destruct (Hold t' Ht') as [Hc Hf]. split; [lia|].
      intros k Hk. apply Hf. lia.
    + intros t' Ht'.
      destruct (fresh_tokens_elem _ _ _ Ht') as [Hc (j & Hj & Hf)].
      split; [lia|]. intros k Hk. rewrite Hf. apply clock_monotonic. lia.
Qed.

Lemma step_pending_inv (op : Op) (out : Out) (st st' : State) :
  pending_inv time_fn st ->
  step cfg time_fn op st = Some (out, st') ->
  pending_inv time_fn st'.
Proof.
  intros Hinv. destruct op as [txt now|txt now|now|fin| |]; simpl.
  - rewrite add_partial_phases.
    destruct (enter_effect cfg time_fn TotalPartials now st)
      as (added & m & rest & started & -> & _).
    cbv zeta. set (st2 := _record_partial_history _ _ _ _).
    destruct (align_pending time_fn (Text.tokenize txt) st2)
      as [st3|] eqn:E; [|done].
    cbn [mbind option_bind]. intros [= _ <-].
    assert (pending_inv time_fn st3) as Hinv3.
    { eapply align_pending_inv; [|exact E].
      apply (pending_inv_weaken st _ 0); [done|done|cbn; lia]. }
    destruct (settle_partial_effect cfg time_fn
                (logical_now time_fn now st) st3)
      as (kept & _ & Hr & [[_ [k Hk]]|[Hnil _]]).
    + by apply (pending_inv_weaken st3 _ k).
    + by apply pending_inv_nil.
  - destruct (add_final_effect cfg time_fn txt now st)
      as (ev & st1 & kept & Hf & _).
    rewrite Hf. cbn. intros [= _ <-]. apply pending_inv_nil.
    revert Hf. rewrite add_final_phases.
    destruct (enter_effect cfg time_fn TotalFinals now st)
      as (added & m & rest & started & -> & _).
    destruct (Text.tokenize txt) as [|tok toks].
    + cbv zeta. rewrite force_segment_break_effect. by intros [= _ <-].
    + set (st0 := mkState _ _ _ _ _ _ _ _).
      destruct (reconcile_effect cfg (tok :: toks)
                  (logical_now time_fn now st) st0)
        as (kept' & m' & aw & -> & _).
      by intros [= _ <-].
  - intros [= _ <-]. apply pending_inv_nil.
    by rewrite force_segment_break_effect.
  - by intros [= _ <-].
  - by intros [= _ <-].
  - intros [= _ <-]. by apply pending_inv_nil.
Qed.

Lemma run_pending_inv (ops : list Op) (outs : list Out) (st st' : State) :
  pending_inv time_fn st ->
  run cfg time_fn ops st = Some (outs, st') ->
  pending_inv time_fn st'.
Proof.
  revert outs st. induction ops as [|op ops IH]; intros outs st Hinv; simpl.
  - by intros [= _ <-].
  - destruct (step cfg time_fn op st) as [[o st1]|] eqn:E; [|done].
    cbn [mbind option_bind].
    destruct (run cfg time_fn ops st1) as [[os st2]|] eqn:E'; [|done].
    cbn [mbind option_bind]. intros [= _ <-].
    eapply IH; [|done]. by eapply step_pending_inv.
Qed.


End PendingFacts.

Lemma fake_clock_monotonic (n : nat) (t0 t1 : Q) :
  (t0 <= t1)%Q -> monotonic (fake_clock n t0 t1).
Proof.
  intros H i j Hij. unfold fake_clock.
  destruct (Nat.ltb_spec i n), (Nat.ltb_spec j n);
    try apply Qle_refl; [done|lia].
Qed.


Section FreshnessFacts.
Variable cfg : Config.
Variable time_fn : nat -> Q.
Hypothesis clock_monotonic : monotonic time_fn.

(** Where the promotion walk stops, the front token is fresh at the last
    clock reading the walk took. *)
Lemma promote_walk_stops (pend : list Token) (n : nat) (batch : list string)
    (m : Metrics) :
  match promote_walk cfg time_fn pend n batch m with
  | (t :: _, n', _, _) => token_fresh cfg (time_fn (pred n')) t
  | _ => True
  end.
Proof.
  revert n batch m. induction pend as [|t pend IH]; intros n batch m;
    [done|].
  cbn [promote_walk].
  destruct (Z.leb_spec (K cfg) (confirmation_count t)); [apply IH|].
  destruct (Z.leb_spec (T_ms cfg)
              (py_int ((time_fn n - first_seen_time t) * 1000)));
    [apply IH|].
  by split.
Qed.

Lemma promote_front_fresh (now : Z) (st : State) :
  let st' := (_promote_leftmost_ready cfg time_fn now st).2 in
  match pending_tokens st' with
  | t :: _ => token_fresh cfg (time_fn (pred (clock_reads st'))) t
  | [] => True
  end.
Proof.
  unfold _promote_leftmost_ready.
  pose proof (promote_walk_stops (pending_tokens st) (clock_reads st) []
                (metrics st)) as H.
  destruct (promote_walk cfg time_fn _ _ _ _) as [[[pend n] batch] m].
  destruct batch as [|b batch]; [done|].
  destruct (commit_filtered_effect cfg (b :: batch)
              (set_reads n (set_metrics m (set_pending pend st))))
    as (kept & m' & ->).
  done.
Qed.

(** Behind a fresh front token every token of an ordered pending is
    fresh. *)
Lemma ordered_front_fresh (now : Q) (pend : list Token) :
  pending_ordered pend ->
  match pend with
  | t :: _ => token_fresh cfg now t
  | [] => True
  end ->
  Forall (token_fresh cfg now) pend.
Proof.
  destruct pend as [|a pend]; [done|]. unfold pending_ordered.
  rewrite StronglySorted_cons. intros [Hall _] [Hc Ha].
  constructor; [done|]. eapply Forall_impl; [exact Hall|].
  intros b [Hcb Hfb]. split; [lia|].
  pose proof (age_ms_antitone now a b Hfb). lia.
Qed.

Lemma settle_partial_fresh (now : Z) (st : State) :
  pending_inv time_fn st ->
  let st' := settle_partial cfg time_fn now st in
  Forall (token_fresh cfg (time_fn (pred (clock_reads st'))))
         (pending_tokens st').
Proof.
  intros Hinv. unfold settle_partial.
  pose proof (promote_front_fresh now st) as Hfront.
  destruct (promote_effect cfg time_fn now st) as (k & kept & m & Hp & Hk).
  destruct (_promote_leftmost_ready cfg time_fn now st) as [n st1].
  cbn [snd] in *. cbv zeta in Hfront.
  assert (Hfresh : Forall (token_fresh cfg (time_fn (pred (clock_reads st1))))
                     (pending_tokens st1)).
  { apply ordered_front_fresh; [|done].
    assert (pending_inv time_fn st1) as [Ho _]; [|done].
    apply (pending_inv_weaken time_fn st _ k); [done| |];
      rewrite Hp; cbn; [done|lia]. }
  destruct (segment_started_ms st1) as [g|]; [|done].
  destruct (max_segment_ms cfg <=? now - g); [|done].
  rewrite force_segment_break_effect. constructor.
Qed.


End FreshnessFacts.



(** ** Snapshot expiry *)

Section ExpiryFacts.
Variable cfg : Config.
Variable time_fn : nat -> Q.

Lemma sublist_sorted (l k : list Z) :
  l `sublist_of` k -> StronglySorted Z.le k -> StronglySorted Z.le l.
Proof.
  induction 1 as [|x l k Hsub IH|x l k Hsub IH]; [done| |].
  - rewrite !StronglySorted_cons. intros [Hall Hs]. split; [|by apply IH].
    apply Forall_forall. intros y Hy. rewrite Forall_forall in Hall.
    apply Hall. by eapply elem_of_sublist.
  - rewrite StronglySorted_cons. intros [_ Hs]. by apply IH.
Qed.

Lemma sublist_Forall_Z (P : Z -> Prop) (l k : list Z) :
  l `sublist_of` k -> Forall P k -> Forall P l.
Proof.
  intros Hsub. rewrite !Forall_forall. intros H x Hx. apply H.
  by eapply elem_of_sublist.
Qed.

Lemma suffix_expiry_sublist (rest aw : list Snapshot) :
  rest `suffix_of` aw -> expiry_ms <$> rest `sublist_of` expiry_ms <$> aw.
Proof.
  intros [k ->]. rewrite fmap_app. by apply sublist_inserts_l.
Qed.

(** What expiry leaves of a deque sorted by expiry has not expired. *)
Lemma sorted_head_unexpired (now : Z) (rest : list Snapshot) :
  expiry_sorted rest ->
  match rest with
  | [] => True
  | s :: _ => now < expiry_ms s
  end ->
  unexpired now rest.
Proof.
  destruct rest as [|s rest]; [by constructor|].
  unfold expiry_sorted. rewrite fmap_cons, StronglySorted_cons.
  intros [Hall _] Hs. constructor; [done|].
  rewrite Forall_fmap in Hall. eapply Forall_impl; [exact Hall|].
  simpl. intros x Hx. lia.
Qed.

Lemma unexpired_sublist (now : Z) (aw aw' : list Snapshot) :
  expiry_ms <$> aw' `sublist_of` expiry_ms <$> aw ->
  unexpired now aw -> unexpired now aw'.
Proof.
  intros Hsub H. unfold unexpired in *.
  apply (Forall_fmap expiry_ms (fun e => now < e)).
  apply (sublist_Forall_Z _ _ _ Hsub). by apply Forall_fmap.
Qed.

Lemma shelved_expiry (now : Z) (st : State) :
  Forall (fun s => expiry_ms s = now + awaiting_final_ttl_ms cfg)
         (shelved cfg now st).
Proof. unfold shelved. destruct (pending_tokens st); by repeat constructor. Qed.

(** The state in which an entry point leaves [awaiting_final], given the
    state [enter] left: for [add_partial] ... *)
Lemma add_partial_awaiting (txt : string) (now_ms : option Z) (st : State) :
  exists ev st' rest shelf,
    add_partial cfg time_fn txt now_ms st = Some (ev, st')
    /\ rest `suffix_of` awaiting_final st
    /\ match rest with
       | [] => True
       | s :: _ => logical_now time_fn now_ms st < expiry_ms s
       end
    /\ awaiting_final st' = rest ++ shelf
    /\ Forall (fun s => expiry_ms s
                        = logical_now time_fn now_ms st
                          + awaiting_final_ttl_ms cfg) shelf.
Proof.
  rewrite add_partial_phases.
  destruct (enter_effect cfg time_fn TotalPartials now_ms st)
    as (added & m & rest & started & -> & Hsuf & Hhd).
  cbv zeta. rewrite align_pending_effect. cbn [mbind option_bind].
  set (st3 := set_reads _ _).
  destruct (settle_partial_effect cfg time_fn
              (logical_now time_fn now_ms st) st3)
    as (kept & _ & _ & [[Haw _]|[_ (shelf & Haw & Hshelf)]]).
  - eexists _, _, rest, []. split_and!; try done.
    by rewrite app_nil_r, Haw.
  - eexists _, _, rest, shelf. by split_and!.
Qed.

(** ... and for [add_final]. *)
Lemma add_final_awaiting (txt : string) (now_ms : option Z) (st : State) :
  exists ev st' rest kept shelf,
    add_final cfg time_fn txt now_ms st = Some (ev, st')
    /\ rest `suffix_of` awaiting_final st
    /\ match rest with
       | [] => True
       | s :: _ => logical_now time_fn now_ms st < expiry_ms s
       end
    /\ expiry_ms <$> kept `sublist_of` expiry_ms <$> rest
    /\ awaiting_final st' = kept ++ shelf
    /\ Forall (fun s => expiry_ms s
                        = logical_now time_fn now_ms st
                          + awaiting_final_ttl_ms cfg) shelf.
Proof.
  rewrite add_final_phases.
  destruct (enter_effect cfg time_fn TotalFinals now_ms st)
    as (added & m & rest & started & -> & Hsuf & Hhd).
  destruct (Text.tokenize txt) as [|tok toks].
  - cbv zeta. rewrite force_segment_break_effect.
    eexists _, _, rest, rest, _. split_and!; try done. apply shelved_expiry.
  - set (st1 := mkState _ _ _ _ _ _ _ _).
    destruct (reconcile_effect cfg (tok :: toks)
                (logical_now time_fn now_ms st) st1)
      as (kept & m' & aw & -> & Hsub).
    cbn [mbind option_bind]. eexists _, _, rest, aw, [].
    split_and!; try done. by rewrite app_nil_r.
Qed.

Lemma unexpired_app_shelf (now : Z) (aw shelf : list Snapshot) :
  0 < awaiting_final_ttl_ms cfg ->
  unexpired now aw ->
  Forall (fun s => expiry_ms s = now + awaiting_final_ttl_ms cfg) shelf ->
  unexpired now (aw ++ shelf).
Proof.
  intros Httl Haw Hshelf. apply Forall_app. split; [done|].
  eapply Forall_impl; [exact Hshelf|]. simpl. intros s Hs. lia.
Qed.

(** After [add_partial] or [add_final] on a deque sorted by expiry, with a
    positive grace window, no snapshot has expired. *)
Lemma entry_leaves_unexpired (txt : string) (now_ms : option Z) (st : State) :
  0 < awaiting_final_ttl_ms cfg ->
  expiry_sorted (awaiting_final st) ->
  (exists ev st',
     add_partial cfg time_fn txt now_ms st = Some (ev, st')
     /\ unexpired (logical_now time_fn now_ms st) (awaiting_final st'))
  /\ (exists ev st',
        add_final cfg time_fn txt now_ms st = Some (ev, st')
        /\ unexpired (logical_now time_fn now_ms st) (awaiting_final st')).
Proof.
  intros Httl Hsorted.
  assert (Hrest : forall rest,
    rest `suffix_of` awaiting_final st ->
    match rest with
    | [] => True
    | s :: _ => logical_now time_fn now_ms st < expiry_ms s
    end ->
    unexpired (logical_now time_fn now_ms st) rest).
  { intros rest Hsuf Hhd. apply sorted_head_unexpired; [|done].
    unfold expiry_sorted in *.
    eapply sublist_sorted; [|exact Hsorted]. by apply suffix_expiry_sublist. }
  split.
  - destruct (add_partial_awaiting txt now_ms st)
      as (ev & st' & rest & shelf & -> & Hsuf & Hhd & Haw & Hshelf).
    exists ev, st'. split; [done|]. rewrite Haw.
    apply unexpired_app_shelf; [done|by apply Hrest|done].
  - destruct (add_final_awaiting txt now_ms st)
      as (ev & st' & rest & kept & shelf & -> & Hsuf & Hhd & Hsub & Haw
          & Hshelf).
    exists ev, st'. split; [done|]. rewrite Haw.
    apply unexpired_app_shelf; [done| |done].
    eapply unexpired_sublist; [exact Hsub|]. by apply Hrest.
Qed.

End ExpiryFacts.

Section ExpiryInvariant.
Variable cfg : Config.
Variable time_fn : nat -> Q.

Lemma constant_sorted (c : Z) (l : list Z) :
  Forall (fun e => e = c) l -> StronglySorted Z.le l.
Proof.
  induction 1 as [|x l -> Hall IH]; constructor; [done|].
  eapply Forall_impl; [exact Hall|]. simpl. intros y ->. lia.
Qed.

(** Keeping some snapshots and shelving new ones at a time [now] not
    before [t] keeps the deque sorted and bounded. *)
Lemma snapshot_inv_extend (t now : Z) (st st' : State)
    (kept shelf : list Snapshot) :
  snapshot_inv cfg t st ->
  t <= now ->
  expiry_ms <$> kept `sublist_of` expiry_ms <$> awaiting_final st ->
  Forall (fun s => expiry_ms s = now + awaiting_final_ttl_ms cfg) shelf ->
  awaiting_final st' = kept ++ shelf ->
  snapshot_inv cfg now st'.
Proof.
  intros [Hsorted Hbound] Ht Hsub Hshelf Haw.
  unfold snapshot_inv, expiry_sorted in *. rewrite Haw, fmap_app.
  assert (Hkept : Forall (fun e => e <= now + awaiting_final_ttl_ms cfg)
                    (expiry_ms <$> kept)).
  { eapply Forall_impl; [by eapply sublist_Forall_Z|]. simpl. lia. }
  assert (Hnew : Forall (fun e => e = now + awaiting_final_ttl_ms cfg)
                   (expiry_ms <$> shelf)) by (by apply Forall_fmap).
  split.
  - apply StronglySorted_app_2.
    + intros a b Ha Hb. rewrite Forall_forall in Hkept, Hnew.
      rewrite (Hnew b Hb). by apply Hkept.
    + by eapply sublist_sorted.
    + by eapply constant_sorted.
  - apply Forall_app. split; [done|].
    eapply Forall_impl; [exact Hnew|]. simpl. lia.
Qed.

Lemma snapshot_inv_same (t : Z) (st st' : State) :
  snapshot_inv cfg t st ->
  awaiting_final st' = awaiting_final st ->
  snapshot_inv cfg t st'.
Proof. unfold snapshot_inv. by intros H ->. Qed.

Lemma step_snapshot_inv (op : Op) (out : Out) (st st' : State) (t : Z) :
  snapshot_inv cfg t st ->
  step cfg time_fn op st = Some (out, st') ->
  Forall (Z.le t) (op_time time_fn op st) ->
  snapshot_inv cfg (default t (head (op_time time_fn op st))) st'.
Proof.
  intros Hinv.
  destruct op as [txt now|txt now|now|fin| |]; simpl.
  - destruct (add_partial_awaiting cfg time_fn txt now st)
      as (ev & st1 & rest & shelf & -> & Hsuf & _ & Haw & Hshelf).
    cbn. intros [= _ <-] [Ht _]%Forall_cons.
    eapply snapshot_inv_extend; [done|done| |done|done].
    by apply suffix_expiry_sublist.
  - destruct (add_final_awaiting cfg time_fn txt now st)
      as (ev & st1 & rest & kept & shelf & -> & Hsuf & _ & Hsub & Haw
          & Hshelf).
    cbn. intros [= _ <-] [Ht _]%Forall_cons.
    eapply snapshot_inv_extend; [done|done| |done|done].
    etrans; [done|]. by apply suffix_expiry_sublist.
  - rewrite force_segment_break_effect.
    intros [= _ <-] [Ht _]%Forall_cons.
    eapply snapshot_inv_extend; [done|done|done|apply shelved_expiry|done].
  - intros [= _ <-] _. done.
  - intros [= _ <-] _. done.
  - intros [= _ <-] _. split; cbn; constructor.
Qed.

Lemma run_snapshot_inv (ops : list Op) (outs : list Out) (st st' : State)
    (t next : Z) :
  snapshot_inv cfg t st ->
  StronglySorted Z.le (t :: timeline cfg time_fn ops st ++ [next]) ->
  run cfg time_fn ops st = Some (outs, st') ->
  exists t', snapshot_inv cfg t' st' /\ t' <= next.
Proof.
  revert outs st t. induction ops as [|op ops IH]; intros outs st t Hinv.
  - simpl. intros Hs [= _ <-]. exists t. split; [done|].
    apply StronglySorted_cons in Hs as [Hall _].
    by apply Forall_cons in Hall as [? _].
  - cbn [timeline run].
    destruct (step cfg time_fn op st) as [[o st1]|] eqn:E; [|done].
    cbn [mbind option_bind].
    destruct (run cfg time_fn ops st1) as [[os st2]|] eqn:E'; [|done].
    cbn [mbind option_bind]. intros Hs [= _ <-].
    apply StronglySorted_cons in Hs as [Hall Hs].
    rewrite <- app_assoc in Hall, Hs.
    assert (Hhere : Forall (Z.le t) (op_time time_fn op st))
      by (by apply Forall_app in Hall as [? _]).
    pose proof (step_snapshot_inv op o st st1 t Hinv E Hhere) as Hinv1.
    eapply (IH os st1 _ Hinv1); [|done].
    destruct (op_time time_fn op st) as [|now [|]] eqn:Et.
    + simpl in *. apply StronglySorted_cons. by split.
    + simpl in *. done.
    + destruct op; simpl in Et; discriminate.
Qed.

Lemma sorted_from_head (d : Z) (l : list Z) :
  StronglySorted Z.le l -> StronglySorted Z.le (default d (head l) :: l).
Proof.
  destruct l as [|x l]; [by repeat constructor|]. simpl. intros Hs.
  constructor; [done|]. constructor; [lia|].
  by apply StronglySorted_cons in Hs as [? _].
Qed.


End ExpiryInvariant.



(** ** Worked examples *)

Example tokenize_ex :
  Text.tokenize "it's  a test, ok?"%string
  = ["it's"; "a"; "test"; ","; "ok"; "?"]%string.
Proof. reflexivity. Qed.

Example detokenize_ex :
  Text.detokenize ["it's"; "a"; "test"; ","; "ok"; "?"]%string
  = "it's a test, ok?"%string.
Proof. reflexivity. Qed.

(** Two identical partials promote both words by K-confirmation. *)
Example k_confirmation_ex :
  (run default_config (fun _ => 0%Q)
     [OpPartial "hello world" None; OpPartial "hello world" None]%string
     init_state)
  ≫= (fun r => Some (stable r.2, pending_tokens r.2))
  = Some (["hello"; "world"]%string, []).
Proof. vm_compute. reflexivity. Qed.

(** A boundary overlap is cut from the candidate. *)
Example boundary_overlap_ex :
  (_deduplicate_before_commit default_config ["bar"; "baz"; "qux"]%string
     (set_stable ["foo"; "bar"; "baz"]%string init_state)).1
  = ["qux"]%string.
Proof. vm_compute. reflexivity. Qed.

(** * Further properties of the code *)

(** ** Longest common prefix and suffix-prefix overlap *)

(** X1.  [lcp_len a b] is the length of the longest common prefix of [a]
    and [b]: the two lists agree on their first [lcp_len a b] elements,
    the length exceeds neither list, and where both lists go on they
    differ at that position. *)
Theorem lcp_len_longest_common_prefix (a b : list string) :
  take (lcp_len a b) a = take (lcp_len a b) b
  /\ (lcp_len a b <= length a)%nat
  /\ (lcp_len a b <= length b)%nat
  /\ forall x y, a !! lcp_len a b = Some x -> b !! lcp_len a b = Some y ->
                 x <> y.
Proof.
  revert b. induction a as [|x a IH]; intros [|y b]; simpl;
    try (split_and!; [done|lia|lia|done]).
  case_bool_decide as Hxy.
  - subst y. destruct (IH b) as (Ht & Ha & Hb & Hd).
    simpl. split_and!; [by rewrite Ht|lia|lia|done].
  - simpl. split_and!; [done|lia|lia|]. by intros ? ? [= <-] [= <-].
Qed.

Lemma lsp_from_spec (cand : nat) (ctx fin : list string) :
  let m := lsp_from cand ctx fin in
  (m <= cand)%nat
  /\ (m = O
      \/ map Text.lower (slice_from (- Z.of_nat m) ctx)
         = map Text.lower (slice_to m fin))
  /\ forall k, (m < k <= cand)%nat ->
       map Text.lower (slice_from (- Z.of_nat k) ctx)
       <> map Text.lower (slice_to k fin).
Proof.
  induction cand as [|c IH]; cbn [lsp_from].
  - split_and!; [done|by left|]. intros k Hk. lia.
  - case_bool_decide as Hm.
    + split_and!; [done|by right|]. intros k Hk. lia.
    + destruct IH as (Hle & Hmatch & Hmax). cbv zeta.
      split_and!; [lia|done|].
      intros k Hk. destruct (decide (k = S c)) as [->|]; [done|].
      apply Hmax. lia.
Qed.

(** X2.  [_longest_suffix_prefix context final] is the greatest [m], at
    most the length of either list, such that the last [m] tokens of the
    context equal the first [m] tokens of the final once both are
    lower-cased. *)
Theorem longest_suffix_prefix_is_greatest (ctx fin : list string) :
  let m := _longest_suffix_prefix ctx fin in
  (m <= length ctx)%nat
  /\ (m <= length fin)%nat
  /\ map Text.lower (drop (length ctx - m) ctx) = map Text.lower (take m fin)
  /\ forall k, (m < k)%nat -> (k <= length ctx)%nat -> (k <= length fin)%nat ->
       map Text.lower (drop (length ctx - k) ctx)
       <> map Text.lower (take k fin).
Proof.
  unfold _longest_suffix_prefix.
  destruct (lsp_from_spec (Nat.min (length ctx) (length fin)) ctx fin)
    as (Hle & Hmatch & Hmax).
  set (m := lsp_from _ _ _) in *. cbv zeta.
  split_and!; [lia|lia| |].
  - destruct Hmatch as [->|Hmatch].
    + rewrite Nat.sub_0_r, drop_all. done.
    + destruct (decide (m = O)) as [->|Hm].
      * rewrite Nat.sub_0_r, drop_all. done.
      * rewrite slice_from_neg in Hmatch by lia.
        by rewrite Nat2Z.id in Hmatch.
  - intros k Hk Hc Hf. specialize (Hmax k ltac:(lia)).
    rewrite slice_from_neg in Hmax by lia. by rewrite Nat2Z.id in Hmax.
Qed.

(** ** Tokens and their round trip through text *)

Section TokenFacts.
Import Text.
Local Open Scope string_scope.

Lemma alnum_not_space (c : ascii) :
  is_alnum c = true -> is_space c = false.
Proof. destruct c as [[] [] [] [] [] [] [] []]; vm_compute; done. Qed.

(** The pattern's alternatives, with the apostrophe test as a boolean. *)
Lemma match_token_unfold (c : ascii) (s' : string) :
  match_token (String c s')
  = if is_alnum c then
      let (w, r) := span_alnum (String c s') in
      match r with
      | String q (String d r') =>
          if Ascii.eqb q "'" && is_alnum d
          then let (w2, r2) := span_alnum (String d r') in
               Some (w ++ String "'" w2, r2)
          else Some (w, r)
      | _ => Some (w, r)
      end
    else if is_space c then None
    else Some (String c "", s').
Proof.
  unfold match_token. destruct (is_alnum c); [|done].
  destruct (span_alnum (String c s')) as [w r].
  destruct r as [|q [|d r']]; [done| |].
  - by destruct q as [[] [] [] [] [] [] [] []].
  - destruct (Ascii.eqb_spec q "'") as [->|Hq]; [done|].
    destruct q as [[] [] [] [] [] [] [] []]; done.
Qed.

Lemma span_alnum_stops (s w r : string) :
  span_alnum s = (w, r) ->
  match r with
  | "" => True
  | String q _ => is_alnum q = false
  end.
Proof.
  revert w r. induction s as [|c s IH]; simpl; intros w r H.
  - by inversion H.
  - destruct (is_alnum c) eqn:Hc.
    + destruct (span_alnum s) as [w' r'] eqn:E. inversion H; subst.
      by eapply IH.
    + inversion H; subst. done.
Qed.

(** An alphanumeric run followed by text that does not start with an
    alphanumeric character is taken whole. *)
Lemma span_alnum_app (s w rest : string) :
  span_alnum s = (w, "") ->
  match rest with
  | "" => True
  | String q _ => is_alnum q = false
  end ->
  span_alnum (s ++ rest) = (w, rest).
Proof.
  revert w. induction s as [|c s IH]; simpl; intros w H Hrest.
  - inversion H; subst. destruct rest as [|q rest]; [done|].
    simpl. by rewrite Hrest.
  - destruct (is_alnum c); [|done].
    destruct (span_alnum s) as [w' r'] eqn:E. inversion H; subst.
    by rewrite (IH w').
Qed.

Lemma span_alnum_idem (s w r : string) :
  span_alnum s = (w, r) -> span_alnum w = (w, "").
Proof.
  revert w r. induction s as [|c s IH]; simpl; intros w r H.
  - by inversion H.
  - destruct (is_alnum c) eqn:Hc.
    + destruct (span_alnum s) as [w' r'] eqn:E. inversion H; subst.
      simpl. rewrite Hc. by rewrite (IH w' r).
    + by inversion H.
Qed.

(** Every token the pattern yields is a full match of the pattern. *)
Lemma match_token_full (s tok rest : string) :
  match_token s = Some (tok, rest) -> full_match tok.
Proof.
  destruct s as [|c s]; [done|]. unfold full_match.
  rewrite match_token_unfold. destruct (is_alnum c) eqn:Hc.
  - destruct (span_alnum (String c s)) as [w r] eqn:E.
    assert (Hw : span_alnum w = (w, "")) by (by eapply span_alnum_idem).
    assert (exists c' w', w = String c' w' /\ is_alnum c' = true)
      as (c' & w' & -> & Hc').
    { simpl in E. rewrite Hc in E. destruct (span_alnum s).
      inversion E; subst. by eexists _, _. }
    assert (Hplain : match_token (String c' w') = Some (String c' w', "")).
    { rewrite match_token_unfold, Hc', Hw. done. }
    destruct r as [|q [|d r']]; [by intros [= <- <-]|by intros [= <- <-]|].
    destruct (Ascii.eqb_spec q "'") as [->|Hq]; [|by intros [= <- <-]].
    destruct (is_alnum d) eqn:Hd; [|by intros [= <- <-]].
    simpl andb. cbv iota.
    destruct (span_alnum (String d r')) as [w2 r2] eqn:E2.
    intros [= <- <-].
    assert (Hw2 : span_alnum w2 = (w2, "")) by (by eapply span_alnum_idem).
    assert (exists d' w2', w2 = String d' w2' /\ is_alnum d' = true)
      as (d' & w2' & -> & Hd').
    { simpl in E2. rewrite Hd in E2. destruct (span_alnum r').
      inversion E2; subst. by eexists _, _. }
    change (String c' w' ++ String "'" (String d' w2'))
      with (String c' (w' ++ String "'" (String d' w2'))).
    rewrite match_token_unfold, Hc'.
    change (String c' (w' ++ String "'" (String d' w2')))
      with (String c' w' ++ String "'" (String d' w2')).
    rewrite (span_alnum_app _ _ _ Hw) by done.
    simpl andb. rewrite Hd'. cbv iota. by rewrite Hw2.
  - destruct (is_space c) eqn:Hs; [done|]. intros [= <- <-].
    by rewrite match_token_unfold, Hc, Hs.
Qed.

Lemma findall_full (fuel : nat) (s : string) :
  Forall full_match (findall fuel s).
Proof.
  revert s. induction fuel as [|fuel IH]; intros s; [constructor|].
  destruct s as [|c s]; [constructor|]. cbn [findall].
  destruct (match_token (String c s)) as [[tok rest]|] eqn:E; [|apply IH].
  constructor; [by eapply match_token_full|apply IH].
Qed.

(** A full match is not empty and contains no whitespace. *)
Lemma full_match_solid (tok : string) :
  full_match tok -> tok <> "" /\ strip_ws tok = tok.
Proof.
  unfold full_match. destruct tok as [|c s]; [done|]. intros H.
  split; [done|]. revert H. rewrite match_token_unfold.
  assert (Hrun : forall s w, span_alnum s = (w, "") -> strip_ws s = s).
  { clear. induction s as [|c s IH]; simpl; intros w H; [done|].
    destruct (is_alnum c) eqn:Hc; [|done].
    destruct (span_alnum s) as [w' r'] eqn:E. inversion H; subst.
    rewrite (IH w') by done.
    by rewrite (alnum_not_space c Hc). }
  destruct (is_alnum c) eqn:Hc.
  - destruct (span_alnum (String c s)) as [w r] eqn:E.
    pose proof (span_alnum_split _ _ _ E) as Hsplit.
    destruct r as [|q [|d r']].
    + intros _. by apply (Hrun _ w).
    + intros H. inversion H.
    + destruct (Ascii.eqb q "'" && is_alnum d) eqn:Hq.
      * destruct (span_alnum (String d r')) as [w2 r2] eqn:E2.
        intros [= Hw ->]. apply andb_prop in Hq as [Hq _].
        apply Ascii.eqb_eq in Hq. subst q.
        rewrite Hsplit, strip_ws_app.
        rewrite (Hrun w w (span_alnum_idem _ _ _ E)).
        change (strip_ws (String "'" (String d r')))
          with (String "'" (strip_ws (String d r'))).
        by rewrite (Hrun _ w2 E2).
      * intros H. inversion H.
  - destruct (is_space c) eqn:Hs; [done|]. intros [= <- _]. simpl.
    by rewrite Hs.
Qed.

(** X3.  Every token that [tokenize] returns is a full match of the
    tokenizer's pattern; in particular no token is empty and no token
    contains whitespace. *)
Theorem tokenize_yields_full_matches (txt : string) :
  Forall (fun tok => full_match tok /\ tok <> "" /\ strip_ws tok = tok)
         (tokenize txt).
Proof.
  eapply Forall_impl; [apply findall_full|].
  intros tok H. split; [done|]. by apply full_match_solid.
Qed.

Lemma space_not_alnum (c : ascii) :
  is_space c = true -> is_alnum c = false.
Proof.
  intros Hs. destruct (is_alnum c) eqn:Hc; [|done].
  by rewrite (alnum_not_space c Hc) in Hs.
Qed.

(** X4.  [tokenize] returns no token exactly when the text is empty or
    all whitespace. *)
Theorem tokenize_empty_iff_blank (txt : string) :
  tokenize txt = [] <-> strip_ws txt = "".
Proof.
  split.
  - intros H. rewrite <- (findall_strip (String.length txt) txt) by done.
    fold (tokenize txt). by rewrite H.
  - unfold tokenize. generalize (String.length txt) as fuel.
    intros fuel. revert txt.
    induction fuel as [|fuel IH]; intros txt Hb; [done|].
    destruct txt as [|c s]; [done|]. simpl in Hb.
    destruct (is_space c) eqn:Hs; [|done].
    cbn [findall]. rewrite match_token_unfold.
    rewrite (space_not_alnum c Hs), Hs. by apply IH.
Qed.

(** A full match followed by text before which it ends cleanly is matched
    again, and the text is what remains. *)
Lemma match_token_app (tok rest : string) :
  full_match tok -> safe_after rest ->
  match_token (tok ++ rest) = Some (tok, rest).
Proof.
  unfold full_match. destruct tok as [|c s]; [done|].
  intros Hfull Hsafe.
  assert (Hstart : match rest with
                   | "" => True
                   | String q _ => is_alnum q = false
                   end).
  { destruct rest as [|q r]; [done|]. by destruct Hsafe. }
  revert Hfull.
  change (String c s ++ rest) with (String c (s ++ rest)).
  rewrite !match_token_unfold. destruct (is_alnum c) eqn:Hc.
  - change (String c (s ++ rest)) with (String c s ++ rest).
    destruct (span_alnum (String c s)) as [w r] eqn:E.
    pose proof (span_alnum_split _ _ _ E) as Hsplit.
    pose proof (span_alnum_idem _ _ _ E) as Hw.
    destruct r as [|q [|d r']].
    + intros [= ->]. rewrite (span_alnum_app _ _ _ E Hstart).
      destruct rest as [|q [|d r']]; [done|done|].
      destruct Hsafe as [Hq Hd].
      destruct (Ascii.eqb_spec q "'") as [->|?]; [|done].
      by rewrite (Hd eq_refl).
    + intros H. inversion H.
    + destruct (Ascii.eqb q "'" && is_alnum d) eqn:Hq.
      * destruct (span_alnum (String d r')) as [w2 r2] eqn:E2.
        intros [= Htok ->]. apply andb_prop in Hq as [Hq Hd].
        apply Ascii.eqb_eq in Hq. subst q.
        rewrite Hsplit, string_app_assoc.
        change (String "'" (String d r') ++ rest)
          with (String "'" (String d (r' ++ rest))).
        rewrite (span_alnum_app w w _ Hw) by done.
        rewrite Ascii.eqb_refl, Hd. cbn [andb].
        change (String d (r' ++ rest)) with (String d r' ++ rest).
        rewrite (span_alnum_app _ _ _ E2 Hstart).
        pose proof (span_alnum_split _ _ _ E2) as Hs2.
        rewrite string_app_nil_r in Hs2. by rewrite Hs2.
      * intros H. inversion H.
  - destruct (is_space c); [done|]. by intros [= <- _].
Qed.

Lemma is_alnum_word (c : ascii) : is_alnum c = true -> is_word c = true.
Proof. unfold is_word. by intros ->. Qed.

(** A punctuation token that is a full match is one character. *)
Lemma punct_full_match (tok : string) :
  full_match tok -> is_punct_token tok = true ->
  exists c, tok = String c "" /\ is_alnum c = false.
Proof.
  unfold full_match.
  destruct tok as [|c [|d [|e s]]]; cbn [is_punct_token];
    [done| | |done].
  - intros _ Hp. exists c. split; [done|].
    unfold is_punct_class in Hp. apply andb_prop in Hp as [Hw _].
    destruct (is_alnum c) eqn:Hc; [|done].
    by rewrite (is_alnum_word c Hc) in Hw.
  - intros Hfull [Hp Hd]%andb_prop. exfalso.
    unfold is_punct_class in Hp. apply andb_prop in Hp as [Hw Hs].
    assert (is_alnum c = false) as Hc.
    { destruct (is_alnum c) eqn:Hc; [|done].
      by rewrite (is_alnum_word c Hc) in Hw. }
    revert Hfull. rewrite match_token_unfold, Hc.
    destruct (is_space c); [done|]. intros H. inversion H.
Qed.

Lemma glue_safe (toks : list string) :
  Forall full_match toks -> safe_after (glue toks).
Proof.
  induction 1 as [|p toks Hp Hall IH]; [done|]. cbn [glue].
  destruct (is_punct_token p) eqn:Hpunct.
  - destruct (punct_full_match p Hp Hpunct) as (c & -> & Hc).
    cbn. split; [done|]. destruct (glue toks) as [|d r]; [done|].
    intros _. by destruct IH.
  - cbn. split; [done|]. destruct (p ++ glue toks); [done|].
    intros H. inversion H.
Qed.

Lemma findall_glue (toks : list string) (fuel : nat) :
  Forall full_match toks ->
  (String.length (glue toks) <= fuel)%nat ->
  findall fuel (glue toks) = toks.
Proof.
  intros Hall. revert fuel.
  induction Hall as [|p toks Hp Hall IH]; intros fuel Hfuel.
  - by destruct fuel.
  - pose proof (glue_safe toks Hall) as Hsafe.
    pose proof (match_token_app p (glue toks) Hp Hsafe) as Hm.
    destruct (full_match_solid p Hp) as [Hne _].
    cbn [glue] in *. destruct (is_punct_token p).
    + destruct p as [|c p']; [done|].
      rewrite string_length_app in Hfuel. simpl in Hfuel.
      destruct fuel as [|fuel]; [lia|].
      change (String c p' ++ glue toks) with (String c (p' ++ glue toks))
        in *.
      cbn [findall]. rewrite Hm. f_equal. apply IH. lia.
    + change (String " " p ++ glue toks) with (String " " (p ++ glue toks))
        in *.
      simpl in Hfuel. rewrite string_length_app in Hfuel.
      destruct fuel as [|fuel]; [lia|]. cbn [findall].
      rewrite match_token_unfold.
      change (is_alnum " ") with false. change (is_space " ") with true.
      cbv iota.
      destruct p as [|c p']; [done|]. simpl in Hfuel.
      destruct fuel as [|fuel]; [lia|].
      change (String c p' ++ glue toks) with (String c (p' ++ glue toks))
        in *.
      cbn [findall]. rewrite Hm. f_equal. apply IH. lia.
Qed.

Lemma detok_fold_glue (toks out : list string) :
  out <> [] ->
  String.concat "" (fold_left detok_step toks out)
  = String.concat "" out ++ glue toks.
Proof.
  revert out. induction toks as [|t toks IH]; intros out Hout.
  - simpl. by rewrite string_app_nil_r.
  - cbn [fold_left glue]. rewrite IH.
    + unfold detok_step. destruct out as [|x out]; [done|].
      destruct (is_punct_token t).
      * rewrite join_append_to_last by done. by rewrite string_app_assoc.
      * rewrite join_app. cbn [String.concat].
        by rewrite !string_app_assoc.
    + unfold detok_step. destruct out as [|x out]; [done|].
      destruct (is_punct_token t).
      * destruct out; simpl; [done|]. by destruct out.
      * by destruct out.
Qed.

Lemma detokenize_cons (t : string) (toks : list string) :
  detokenize (t :: toks) = t ++ glue toks.
Proof.
  unfold detokenize. cbn [fold_left]. change (detok_step [] t) with [t].
  by rewrite detok_fold_glue.
Qed.

(** Tokens that are full matches survive detokenizing and tokenizing. *)
Lemma detokenize_retokenizes (toks : list string) :
  Forall full_match toks -> tokenize (detokenize toks) = toks.
Proof.
  intros Hall. destruct Hall as [|t toks Ht Hall]; [done|].
  rewrite detokenize_cons. unfold tokenize.
  pose proof (match_token_app t (glue toks) Ht (glue_safe toks Hall)) as Hm.
  destruct t as [|c t']; [by destruct (full_match_solid "" Ht)|].
  change (String c t' ++ glue toks) with (String c (t' ++ glue toks)) in *.
  cbn [String.length findall]. rewrite Hm. f_equal.
  apply findall_glue; [done|]. rewrite string_length_app. lia.
Qed.

(** X5.  Text rebuilt by [detokenize] from tokens that are full matches
    of the pattern is split by [tokenize] into the same tokens again. *)
Theorem tokenize_detokenize_round_trip (toks : list string) :
  Forall full_match toks -> tokenize (detokenize toks) = toks.
Proof. apply detokenize_retokenizes. Qed.

End TokenFacts.

Lemma tokenize_detokenize_round_trip_witness :
  Text.tokenize
    (Text.detokenize ["don't"; "stop"; ","; "'"; "ok"; "_"; "!"]%string)
  = ["don't"; "stop"; ","; "'"; "ok"; "_"; "!"]%string.
Proof.
  apply (tokenize_detokenize_round_trip
           ["don't"; "stop"; ","; "'"; "ok"; "_"; "!"]%string).
  repeat constructor.
Defined.

(** ** The deduplicator, further *)

Section DedupMore.
Variable cfg : Config.

(** A left-to-right scan that remembers the last hit. *)
Lemma last_hit_spec (P : nat -> bool) (n : nat) :
  let r := fold_left (fun best k => if P k then k else best) (seq 1 n) O in
  (r <= n)%nat
  /\ (r = O \/ P r = true)
  /\ forall j, (r < j <= n)%nat -> P j = false.
Proof.
  induction n as [|n IH]; [by split_and!; [done|left|intros; lia]|].
  rewrite seq_S, fold_left_app. cbn [fold_left]. cbv zeta in IH.
  destruct IH as (Hle & Hhit & Hmax). replace (1 + n)%nat with (S n) by lia.
  destruct (P (S n)) eqn:HP.
  - split_and!; [done|by right|]. intros j Hj. lia.
  - split_and!; [lia|done|].
    intros j Hj. destruct (decide (j = S n)) as [->|]; [done|].
    apply Hmax. lia.
Qed.

Lemma boundary_overlap_spec (new_lower recent_lower : list string) :
  let k := boundary_overlap new_lower recent_lower in
  (k <= length new_lower)%nat
  /\ (k <= length recent_lower)%nat
  /\ drop (length recent_lower - k) recent_lower = take k new_lower
  /\ forall j, (k < j)%nat -> (j <= length new_lower)%nat ->
       (j <= length recent_lower)%nat ->
       drop (length recent_lower - j) recent_lower <> take j new_lower.
Proof.
  unfold boundary_overlap.
  destruct (last_hit_spec
              (fun k => bool_decide
                          (slice_from (- Z.of_nat k) recent_lower
                           = slice_to k new_lower))
              (Nat.min (length new_lower) (length recent_lower)))
    as (Hle & Hhit & Hmax).
  set (k := fold_left _ _ _) in *. cbv zeta.
  split_and!; [lia|lia| |].
  - destruct (decide (k = O)) as [->|Hk].
    + by rewrite Nat.sub_0_r, drop_all.
    + destruct Hhit as [?|Hhit]; [done|].
      apply bool_decide_eq_true in Hhit.
      rewrite slice_from_neg in Hhit by lia. by rewrite Nat2Z.id in Hhit.
  - intros j Hj Hn Hr. specialize (Hmax j ltac:(lia)).
    apply bool_decide_eq_false in Hmax.
    rewrite slice_from_neg in Hmax by lia. by rewrite Nat2Z.id in Hmax.
Qed.

Lemma full_duplicate_elim (new_lower recent_lower : list string) :
  full_duplicate new_lower recent_lower = true ->
  exists pre post, recent_lower = pre ++ new_lower ++ post.
Proof.
  unfold full_duplicate. intros [i [_ Hi]]%existsb_exists.
  apply bool_decide_eq_true in Hi. unfold slice in Hi.
  exists (take i recent_lower), (drop (i + length new_lower) recent_lower).
  rewrite <- Hi at 1.
  replace (i + length new_lower - i)%nat with (length new_lower) by lia.
  rewrite <- (drop_drop recent_lower (length new_lower) i).
  by rewrite take_drop, take_drop.
Qed.

Lemma bump_zero (k : MetricKey) (m : Metrics) : bump k 0 m = m.
Proof.
  destruct m. unfold bump, map_metrics. cbn.
  destruct k; cbn; f_equal; case_decide; (done || lia).
Qed.

(** The filter, in full: it cuts [k] tokens off the front of the candidate
    and books them. *)
Lemma dedup_exact (cand : list string) (st : State) :
  exists (k : nat) (a b : Z),
    (k <= length cand)%nat /\ 0 <= a /\ 0 <= b
    /\ _deduplicate_before_commit cfg cand st
       = (drop k cand,
          set_metrics
            (bump DedupTokensRemoved (Z.of_nat k)
               (bump DedupFullBlocks a
                  (bump DedupPartialOverlaps b (metrics st)))) st).
Proof.
  unfold _deduplicate_before_commit.
  assert (Hid : (cand, st)
                = (drop 0 cand,
                   set_metrics
                     (bump DedupTokensRemoved (Z.of_nat 0)
                        (bump DedupFullBlocks 0
                           (bump DedupPartialOverlaps 0 (metrics st)))) st)).
  { simpl. rewrite !bump_zero. by destruct st. }
  destruct (_ || _); [exists O, 0, 0; split_and!; (lia || done)|].
  set (recent := map Text.lower (slice_from _ _)).
  destruct (_ && _).
  - exists (length cand), 1, 0. split_and!; [lia|lia|lia|].
    rewrite drop_all. unfold bump_metric. cbn. by rewrite bump_zero.
  - destruct (boundary_overlap_spec (map Text.lower cand) recent)
      as (Hk & _). rewrite length_map in Hk.
    destruct (Nat.ltb_spec 0 (boundary_overlap (map Text.lower cand) recent)).
    + eexists _, 0, 1. split_and!; [exact Hk|lia|lia|].
      unfold bump_metric. cbn. by rewrite bump_zero.
    + exists O, 0, 0. split_and!; (lia || done).
Qed.

(** X6.  Whatever the state, the deduplicator returns the candidate with
    some number [k] of its leading tokens cut off, never anything else;
    [dedup_tokens_removed] grows by exactly [k], and nothing but the three
    dedup counters changes. *)
Theorem dedup_cuts_a_prefix (cand : list string) (st : State) :
  let (kept, st') := _deduplicate_before_commit cfg cand st in
  exists k : nat,
    (k <= length cand)%nat
    /\ kept = drop k cand
    /\ dedup_tokens_removed (metrics st')
       = dedup_tokens_removed (metrics st) + Z.of_nat k
    /\ map_metrics (fun key v =>
         match key with
         | DedupTokensRemoved | DedupFullBlocks | DedupPartialOverlaps => 0
         | _ => v
         end) (metrics st')
       = map_metrics (fun key v =>
         match key with
         | DedupTokensRemoved | DedupFullBlocks | DedupPartialOverlaps => 0
         | _ => v
         end) (metrics st)
    /\ set_metrics (metrics st) st' = st.
Proof.
  destruct (dedup_exact cand st) as (k & a & b & Hk & _ & _ & ->).
  exists k. split_and!; [done|done| | |]; by destruct st as [? ? ? ? ? ? [] ?].
Qed.

(** X7.  When deduplication applies (enabled, non-empty candidate and
    non-empty [stable]) and the candidate does not occur whole in the
    recent window, the filter cuts exactly the largest [k] such that the
    last [k] tokens of the window equal the first [k] tokens of the
    candidate, case-folded; [dedup_partial_overlaps] grows by one exactly
    when [k > 0]. *)
Theorem dedup_cuts_largest_boundary_overlap
    (st : State) (cand recent : list string) :
  cand <> [] ->
  dedup_enabled cfg = true ->
  stable st <> [] ->
  recent = map Text.lower
             (drop (length (stable st)
                    - Z.to_nat (Z.max (dedup_window_size cfg)
                                  (3 * Z.of_nat (length cand))))
                   (stable st)) ->
  (forall pre post, recent <> pre ++ map Text.lower cand ++ post) ->
  let (kept, st') := _deduplicate_before_commit cfg cand st in
  exists k : nat,
    kept = drop k cand
    /\ (k <= length cand)%nat /\ (k <= length recent)%nat
    /\ drop (length recent - k) recent = take k (map Text.lower cand)
    /\ (forall j, (k < j)%nat -> (j <= length cand)%nat ->
          (j <= length recent)%nat ->
          drop (length recent - j) recent <> take j (map Text.lower cand))
    /\ dedup_partial_overlaps (metrics st')
       = dedup_partial_overlaps (metrics st) + (if decide (k = O) then 0 else 1)
    /\ dedup_full_blocks (metrics st') = dedup_full_blocks (metrics st).
Proof.
  intros Hcand Hen Hst Hrecent Hnodup.
  unfold _deduplicate_before_commit.
  rewrite Hen, (bool_decide_eq_false_2 _ Hcand),
    (bool_decide_eq_false_2 _ Hst). cbn [negb orb].
  assert (HW : 0 < Z.max (dedup_window_size cfg)
                     (Z.of_nat (length cand) * 3)).
  { destruct cand; [done|]. simpl length. lia. }
  rewrite slice_from_neg by done.
  replace (Z.max (dedup_window_size cfg) (Z.of_nat (length cand) * 3))
    with (Z.max (dedup_window_size cfg) (3 * Z.of_nat (length cand)))
    by lia.
  rewrite <- Hrecent.
  destruct (full_duplicate (map Text.lower cand) recent) eqn:Hfull.
  { destruct (full_duplicate_elim _ _ Hfull) as (pre & post & Heq).
    by destruct (Hnodup pre post). }
  rewrite andb_false_r.
  destruct (boundary_overlap_spec (map Text.lower cand) recent)
    as (Hk & Hr & Hmatch & Hmax).
  set (k := boundary_overlap _ _) in *. rewrite length_map in Hk.
  destruct (Nat.ltb_spec 0 k).
  - exists k. split_and!; try done.
    + intros j ? ? ?. apply Hmax; [done| |done]. by rewrite length_map.
    + destruct (decide (k = O)); [lia|]. by destruct st as [? ? ? ? ? ? [] ?].
  - exists k. replace k with O in * by lia. split_and!; try done.
    + intros j ? ? ?. apply Hmax; [done| |done]. by rewrite length_map.
    + simpl. lia.
Qed.

End DedupMore.

Lemma dedup_cuts_largest_boundary_overlap_witness :
  let st := set_stable ["foo"; "bar"; "baz"]%string init_state in
  let (kept, st') :=
    _deduplicate_before_commit default_config ["Bar"; "baz"; "qux"]%string st
  in
  exists k : nat,
    kept = drop k ["Bar"; "baz"; "qux"]%string
    /\ (k <= 3)%nat /\ (k <= 3)%nat
    /\ drop (3 - k) ["foo"; "bar"; "baz"]%string
       = take k ["bar"; "baz"; "qux"]%string
    /\ (forall j, (k < j)%nat -> (j <= 3)%nat -> (j <= 3)%nat ->
          drop (3 - j) ["foo"; "bar"; "baz"]%string
          <> take j ["bar"; "baz"; "qux"]%string)
    /\ dedup_partial_overlaps (metrics st')
       = dedup_partial_overlaps (metrics st) + (if decide (k = O) then 0 else 1)
    /\ dedup_full_blocks (metrics st') = dedup_full_blocks (metrics st).
Proof.
  intros st.
  apply (dedup_cuts_largest_boundary_overlap default_config st
           ["Bar"; "baz"; "qux"]%string ["foo"; "bar"; "baz"]%string).
  - discriminate.
  - reflexivity.
  - discriminate.
  - reflexivity.
  - intros pre post H.
    destruct pre as [|? ?], post as [|? ?];
      [discriminate H
      |apply (f_equal length) in H; rewrite ?length_app in H; simpl in H;
       lia ..].
Defined.

(** ** Promotion, alignment and segments, further *)

Section PromotionMore.
Variable cfg : Config.
Variable time_fn : nat -> Q.

Lemma bump_bump (k : MetricKey) (a b : Z) (m : Metrics) :
  bump k a (bump k b m) = bump k (b + a) m.
Proof.
  destruct m. unfold bump, map_metrics. cbn.
  destruct k; cbn; f_equal; repeat case_decide; (done || lia).
Qed.

Lemma bump_comm (k1 k2 : MetricKey) (a b : Z) (m : Metrics) :
  bump k1 a (bump k2 b m) = bump k2 b (bump k1 a m).
Proof.
  destruct m. unfold bump, map_metrics. cbn.
  f_equal; repeat case_decide; (done || lia).
Qed.

(** The promotion walk, in full. *)
Lemma promote_walk_exact (pend : list Token) (n : nat) (batch : list string)
    (m : Metrics) :
  exists (k : nat) (a b : Z),
    promote_walk cfg time_fn pend n batch m
    = (drop k pend,
       (n + k + (if bool_decide (k < length pend)%nat then 1 else 0))%nat,
       batch ++ map text (take k pend),
       bump TokensCommittedByStability a
         (bump TokensCommittedByFlush b m))
    /\ (k <= length pend)%nat
    /\ 0 <= a /\ 0 <= b /\ a + b = Z.of_nat k
    /\ (forall i t, (i < k)%nat -> pend !! i = Some t ->
          token_ready cfg (time_fn (n + i)) t)
    /\ (forall t, pend !! k = Some t ->
          token_fresh cfg (time_fn (n + k)) t).
Proof.
  revert n batch m. induction pend as [|t pend IH]; intros n batch m.
  - exists O, 0, 0. simpl. rewrite !bump_zero, app_nil_r.
    split_and!; try done; try lia.
    repeat f_equal; lia.
  - cbn [promote_walk].
    destruct (Z.leb_spec (K cfg) (confirmation_count t)) as [HK|HK].
    { destruct (IH (S n) (batch ++ [text t])
                  (bump TokensCommittedByStability 1 m))
        as (k & a & b & -> & Hk & Ha & Hb & Hab & Hready & Hfresh).
      exists (S k), (a + 1), b. split_and!; try (simpl; lia).
      - simpl. rewrite <- app_assoc. simpl.
        rewrite (bump_comm TokensCommittedByFlush), bump_bump.
        replace (1 + a) with (a + 1) by lia.
        clear IH. repeat f_equal; repeat case_bool_decide; lia.
      - intros [|i] t' Hi; simpl.
        + intros [= <-]. rewrite Nat.add_0_r. by left.
        + intros Ht'. replace (n + S i)%nat with (S n + i)%nat by lia.
          apply Hready; [lia|done].
      - intros t' Ht'. simpl in Ht'.
        replace (n + S k)%nat with (S n + k)%nat by lia. by apply Hfresh. }
    destruct (Z.leb_spec (T_ms cfg)
                (py_int ((time_fn n - first_seen_time t) * 1000)))
      as [HT|HT].
    { destruct (IH (S n) (batch ++ [text t])
                  (bump TokensCommittedByFlush 1 m))
        as (k & a & b & -> & Hk & Ha & Hb & Hab & Hready & Hfresh).
      exists (S k), a, (b + 1). split_and!; try (simpl; lia).
      - simpl. rewrite <- app_assoc. simpl. rewrite bump_bump.
        replace (1 + b) with (b + 1) by lia.
        clear IH. repeat f_equal; repeat case_bool_decide; lia.
      - intros [|i] t' Hi; simpl.
        + intros [= <-]. rewrite Nat.add_0_r. by right.
        + intros Ht'. replace (n + S i)%nat with (S n + i)%nat by lia.
          apply Hready; [lia|done].
      - intros t' Ht'. simpl in Ht'.
        replace (n + S k)%nat with (S n + k)%nat by lia. by apply Hfresh. }
    exists O, 0, 0. rewrite !bump_zero, app_nil_r.
    split_and!;
      [simpl; repeat f_equal; lia|simpl; lia|lia|lia|lia
      |intros i t' Hi; lia
      |intros t' [= <-]; rewrite Nat.add_0_r; by split].
Qed.

(** What one call of the promotion does, in full. *)
Lemma promote_exact (now : Z) (st : State) :
  let st' := (_promote_leftmost_ready cfg time_fn now st).2 in
  exists k cut : nat,
    (k <= length (pending_tokens st))%nat
    /\ pending_tokens st' = drop k (pending_tokens st)
    /\ (forall i t, (i < k)%nat -> pending_tokens st !! i = Some t ->
          token_ready cfg (time_fn (clock_reads st + i)) t)
    /\ (forall t, pending_tokens st !! k = Some t ->
          token_fresh cfg (time_fn (clock_reads st + k)) t)
    /\ stable st'
       = stable st ++ drop cut (map text (take k (pending_tokens st)))
    /\ (_promote_leftmost_ready cfg time_fn now st).1
       = (k - cut)%nat
    /\ awaiting_final st' = awaiting_final st.
Proof.
  unfold _promote_leftmost_ready.
  destruct (promote_walk_exact (pending_tokens st) (clock_reads st) []
              (metrics st))
    as (k & a & b & -> & Hk & _ & _ & _ & Hready & Hfresh).
  cbn [app].
  destruct (map text (take k (pending_tokens st))) as [|x batch] eqn:Eb.
  - exists k, O. cbn. rewrite Eb. cbn. rewrite app_nil_r.
    split_and!; try done.
    apply (f_equal length) in Eb. rewrite length_map, length_take in Eb.
    simpl in Eb. lia.
  - unfold commit_filtered.
    set (st1 := set_reads _ _).
    destruct (dedup_exact cfg (x :: batch) st1)
      as (cut & a' & b' & Hcut & _ & _ & ->).
    exists k, cut. cbn [fst snd]. split_and!; try done.
    + by rewrite Eb.
    + rewrite length_drop. apply (f_equal length) in Eb.
      rewrite length_map, length_take in Eb. lia.
Qed.


Lemma confirmed_tokens_text (n : nat) (toks : list Token) :
  map text (confirmed_tokens time_fn n toks) = map text toks.
Proof.
  revert n. induction toks as [|t toks IH]; intros n; simpl; [done|].
  by rewrite IH.
Qed.

Lemma fresh_tokens_text (n : nat) (toks : list string) :
  map text (fresh_tokens time_fn n toks) = toks.
Proof.
  revert n. induction toks as [|t toks IH]; intros n; simpl; [done|].
  by rewrite IH.
Qed.

Lemma lcp_len_take (a b : list string) :
  take (lcp_len a b) a = take (lcp_len a b) b.
Proof.
  revert b. induction a as [|x a IH]; intros [|y b]; simpl; try done.
  case_bool_decide; [|done]. subst. simpl. by rewrite IH.
Qed.

(** After alignment pending spells the partial. *)
Lemma align_pending_text (cur : list string) (st st' : State) :
  align_pending time_fn cur st = Some st' ->
  map text (pending_tokens st') = cur.
Proof.
  rewrite align_pending_effect. intros [= <-].
  cbn [pending_tokens set_reads set_pending].
  rewrite map_app, confirmed_tokens_text, fresh_tokens_text.
  rewrite <- (firstn_map text), lcp_len_take. apply take_drop.
Qed.

(** X9.  When [add_partial] returns, the texts of pending are the tokens
    of the partial less some leading ones (those promoted in this call, or
    all of them after a segment timeout), and the event's
    [partial_suffix] is their detokenization. *)
Theorem add_partial_pending_is_suffix (txt : string) (now_ms : option Z)
    (st : State) :
  exists ev st' k,
    add_partial cfg time_fn txt now_ms st = Some (ev, st')
    /\ map text (pending_tokens st') = drop k (Text.tokenize txt)
    /\ ev_partial_suffix ev = Text.detokenize (drop k (Text.tokenize txt))
    /\ ev_is_final ev = false.
Proof.
  rewrite add_partial_phases.
  destruct (enter_effect cfg time_fn TotalPartials now_ms st)
    as (added & m & rest & started & -> & _).
  cbv zeta. set (st2 := _record_partial_history _ _ _ _).
  destruct (align_pending time_fn (Text.tokenize txt) st2) as [st3|] eqn:E;
    [|by rewrite align_pending_effect in E].
  cbn [mbind option_bind].
  pose proof (align_pending_text _ _ _ E) as Htext.
  destruct (settle_partial_effect cfg time_fn
              (logical_now time_fn now_ms st) st3)
    as (kept & _ & _ & [[_ [k Hk]]|[Hnil _]]).
  - eexists _, _, k. split; [done|]. cbn [ev_partial_suffix ev_is_final
      build_display_event].
    rewrite Hk, <- Htext. rewrite <- (skipn_map text). by split_and!.
  - eexists _, _, (length (Text.tokenize txt)). split; [done|].
    cbn [ev_partial_suffix ev_is_final build_display_event].
    rewrite Hnil, drop_all. by split_and!.
Qed.

End PromotionMore.

Section SegmentsMore.
Variable cfg : Config.
Variable time_fn : nat -> Q.

(** The state [enter] leaves, with the segment start made explicit. *)
Lemma enter_started (k : MetricKey) (now_ms : option Z) (st : State) :
  let st' := (enter cfg time_fn k now_ms st).2 in
  segment_started_ms st'
  = Some (default (logical_now time_fn now_ms st) (segment_started_ms st))
  /\ segment_id st' = segment_id st
  /\ pending_tokens st' = pending_tokens st.
Proof.
  unfold enter, _expire_snapshots.
  destruct (resolve_now time_fn now_ms (bump_metric k 1 st))
    as [now st0] eqn:E0.
  assert (now = logical_now time_fn now_ms st
          /\ segment_started_ms st0 = segment_started_ms st
          /\ segment_id st0 = segment_id st
          /\ pending_tokens st0 = pending_tokens st) as (-> & Hs & Hi & Hp).
  { destruct now_ms; simpl in E0; injection E0 as <- <-; by destruct st. }
  set (st1 := _ensure_segment_started time_fn _ st0).
  assert (segment_started_ms st1
          = Some (default (logical_now time_fn now_ms st)
                    (segment_started_ms st))
          /\ segment_id st1 = segment_id st
          /\ pending_tokens st1 = pending_tokens st) as (Hs1 & Hi1 & Hp1).
  { unfold st1, _ensure_segment_started. rewrite <- Hs.
    destruct (segment_started_ms st0) eqn:E; simpl; [by rewrite E|done]. }
  destruct (expire_loop_effect cfg (logical_now time_fn now_ms st)
              (awaiting_final st1) st1)
    as (added & m & rest & -> & _).
  done.
Qed.

Lemma settle_partial_cases (now : Z) (st : State) :
  let st1 := (_promote_leftmost_ready cfg time_fn now st).2 in
  (settle_partial cfg time_fn now st = st1
   /\ forall g, segment_started_ms st = Some g ->
        (max_segment_ms cfg <=? now - g) = false)
  \/ (settle_partial cfg time_fn now st
      = force_segment_break cfg time_fn (Some now) st1
      /\ exists g, segment_started_ms st = Some g
           /\ (max_segment_ms cfg <=? now - g) = true).
Proof.
  unfold settle_partial.
  destruct (promote_effect cfg time_fn now st) as (k & kept & m & Hp & _).
  destruct (_promote_leftmost_ready cfg time_fn now st) as [n st1].
  simpl in *. subst st1. cbn [segment_started_ms].
  destruct (segment_started_ms st) as [g|]; [|by left].
  destruct (max_segment_ms cfg <=? now - g) eqn:E.
  - right. split; [done|]. by exists g.
  - left. split; [done|]. by intros ? [= <-].
Qed.

(** X10.  How each call moves [segment_id]: a final and a forced break
    add exactly one; a partial adds one exactly when, at its logical time,
    the segment has lasted [max_segment_ms] or more (the segment starting
    now if it had not started), and otherwise nothing; the read-only
    calls leave it; [reset] sets it to 0. *)
Theorem segment_id_by_call (op : Op) (st : State) :
  exists out st',
    step cfg time_fn op st = Some (out, st')
    /\ segment_id st'
       = match op with
         | OpPartial _ now_ms =>
             segment_id st
             + (if segment_timed_out cfg (logical_now time_fn now_ms st) st
                then 1 else 0)
         | OpFinal _ _ | OpBreak _ => segment_id st + 1
         | OpDisplay _ | OpMetrics => segment_id st
         | OpReset => 0
         end.
Proof.
  destruct op as [txt now|txt now|now|fin| |]; simpl;
    [| | |by eexists _, _ ..].
  - rewrite add_partial_phases.
    pose proof (enter_started TotalPartials now st) as (Hs & Hi & _).
    destruct (enter_effect cfg time_fn TotalPartials now st)
      as (added & m & rest & started & E & _).
    rewrite E in Hs, Hi |- *. cbn [snd segment_started_ms segment_id] in Hs, Hi.
    cbv zeta. rewrite align_pending_effect. cbn [mbind option_bind].
    set (st3 := set_reads _ _).
    eexists _, _. split; [done|].
    unfold segment_timed_out. injection Hs as ->.
    destruct (settle_partial_cases (logical_now time_fn now st) st3)
      as [[-> Hno]|[-> (g & Hg & Hyes)]].
    + destruct (promote_effect cfg time_fn (logical_now time_fn now st) st3)
        as (k & kept & m' & -> & _).
      cbn. rewrite (Hno _ eq_refl). lia.
    + rewrite force_segment_break_effect.
      destruct (promote_effect cfg time_fn (logical_now time_fn now st) st3)
        as (k & kept & m' & -> & _).
      cbn. cbn in Hg. injection Hg as <-. rewrite Hyes. done.
  - rewrite add_final_phases.
    destruct (enter_effect cfg time_fn TotalFinals now st)
      as (added & m & rest & started & -> & _).
    destruct (Text.tokenize txt) as [|tok toks].
    + cbv zeta. rewrite force_segment_break_effect. by eexists _, _.
    + set (st1 := mkState _ _ _ _ _ _ _ _).
      destruct (reconcile_effect cfg (tok :: toks)
                  (logical_now time_fn now st) st1)
        as (kept & m' & aw & -> & _).
      by eexists _, _.
  - rewrite force_segment_break_effect. by eexists _, _.
Qed.

End SegmentsMore.

(** ** Finals without snapshots, and K = 1 *)

Section FinalsMore.
Variable cfg : Config.
Variable time_fn : nat -> Q.

Lemma enter_no_snapshots (k : MetricKey) (now_ms : option Z) (st : State) :
  awaiting_final st = [] ->
  enter cfg time_fn k now_ms st
  = (logical_now time_fn now_ms st,
     mkState (stable st) (pending_tokens st) [] (partial_history st)
       (segment_id st)
       (Some (default (logical_now time_fn now_ms st)
                (segment_started_ms st)))
       (bump k 1 (metrics st)) (clock_reads st + now_reads now_ms)).
Proof.
  intros Haw. unfold enter, _expire_snapshots, _ensure_segment_started.
  destruct st as [s p a h i g m r]. simpl in Haw. subst a.
  destruct now_ms as [n|], g as [g|]; cbn; setters; cbn;
    repeat f_equal; lia.
Qed.

(** What the filter returns depends on the state through [stable] only. *)
Lemma dedup_kept_by_stable (toks : list string) (st1 st2 : State) :
  stable st1 = stable st2 ->
  (_deduplicate_before_commit cfg toks st1).1
  = (_deduplicate_before_commit cfg toks st2).1.
Proof.
  intros H. unfold _deduplicate_before_commit. rewrite H.
  repeat match goal with
         | |- context [if ?b then _ else _] => destruct b
         end; done.
Qed.

Lemma build_context_no_snapshots (final_tokens : list string) (st : State) :
  awaiting_final st = [] ->
  exists ctx len_st len_pend,
    _build_context_for_final final_tokens st
    = (ctx, None, len_st, O, len_pend)
    /\ _longest_suffix_prefix ctx final_tokens
       = _longest_suffix_prefix (ctx_nosnap st) final_tokens.
Proof.
  intros Haw. unfold _build_context_for_final. rewrite build_best_unfold.
  rewrite Haw.
  change (enumerate (reverse [])) with (@nil (nat * Snapshot)).
  cbn [fold_left b_overlap].
  destruct (Nat.ltb_spec 0 (_longest_suffix_prefix (ctx_nosnap st)
                              final_tokens)) as [Hpos|Hzero].
  - by eexists _, _, _.
  - eexists _, _, _. split; [done|]. cbn [b_ctx]. rewrite overlap_nil. lia.
Qed.

(** X11.  A non-empty final that arrives when no snapshot is shelved
    appends to [stable] exactly its tokens beyond the greatest overlap [m]
    with the context [stable[-64:] + pending], less what the
    deduplicator cuts; it empties pending, shelves nothing, and counts
    the appended tokens in [tokens_committed_by_final]. *)
Theorem add_final_without_snapshots (txt : string) (now_ms : option Z)
    (st : State) :
  awaiting_final st = [] ->
  Text.tokenize txt <> [] ->
  let m := _longest_suffix_prefix (ctx_nosnap st) (Text.tokenize txt) in
  let kept :=
    (_deduplicate_before_commit cfg (drop m (Text.tokenize txt)) st).1 in
  exists ev st',
    add_final cfg time_fn txt now_ms st = Some (ev, st')
    /\ stable st' = stable st ++ kept
    /\ pending_tokens st' = []
    /\ awaiting_final st' = []
    /\ tokens_committed_by_final (metrics st')
       = tokens_committed_by_final (metrics st) + Z.of_nat (length kept).
Proof.
  intros Haw Htok m kept. rewrite add_final_phases.
  rewrite (enter_no_snapshots _ _ _ Haw).
  destruct (Text.tokenize txt) as [|tok toks] eqn:Etok; [done|].
  set (st1 := mkState _ _ _ _ _ _ _ _).
  unfold reconcile.
  destruct (build_context_no_snapshots (tok :: toks) st1 eq_refl)
    as (ctx & len_st & len_pend & -> & Hm).
  cbv zeta. cbn [mbind option_bind]. rewrite Hm.
  change (ctx_nosnap st1) with (ctx_nosnap st). fold m.
  assert (Hkept : (_deduplicate_before_commit cfg (drop m (tok :: toks))
                     st1).1 = kept)
    by (by apply dedup_kept_by_stable).
  destruct (drop m (tok :: toks)) as [|x rest] eqn:Ed.
  - assert (kept = []) as ->.
    { rewrite <- Hkept. unfold _deduplicate_before_commit.
      rewrite bool_decide_eq_true_2 by done.
      by destruct (negb (dedup_enabled cfg)). }
    eexists _, _. split; [done|]. cbn. rewrite app_nil_r.
    split_and!; try done.
    destruct (metrics st); cbn; repeat case_decide; (done || lia).
  - destruct (dedup_exact cfg (x :: rest) st1)
      as (cut & a & b & _ & _ & _ & E).
    rewrite E in Hkept |- *. cbn [fst] in Hkept. rewrite Hkept.
    eexists _, _. split; [done|]. cbn. by split_and!.
Qed.

Lemma fresh_tokens_count (n : nat) (toks : list string) :
  Forall (fun t => confirmation_count t = 1) (fresh_tokens time_fn n toks).
Proof.
  revert n. induction toks as [|t toks IH]; intros n; simpl;
    constructor; [done|apply IH].
Qed.

(** X12.  With K at most 1 nothing stays pending from one call to the
    next: in every state reached from a fresh accumulator pending is
    empty, every token of a partial being promoted by the call that
    brings it. *)
Theorem k_one_leaves_nothing_pending (ops : list Op) (outs : list Out)
    (st : State) :
  K cfg <= 1 ->
  run cfg time_fn ops init_state = Some (outs, st) ->
  pending_tokens st = [].
Proof.
  intros HK. assert (Hinit : pending_tokens init_state = []) by done.
  revert Hinit. generalize init_state as st0. revert outs.
  induction ops as [|op ops IH]; intros outs st0 H0; simpl.
  - by intros [= _ <-].
  - destruct (step cfg time_fn op st0) as [[o st1]|] eqn:E; [|done].
    cbn [mbind option_bind].
    destruct (run cfg time_fn ops st1) as [[os st2]|] eqn:E'; [|done].
    cbn [mbind option_bind]. intros [= _ <-].
    apply (IH os st1); [|done]. clear IH E'.
    destruct op as [txt now|txt now|now|fin| |]; simpl in E.
    + revert E. rewrite add_partial_phases.
      pose proof (enter_started cfg time_fn TotalPartials now st0)
        as (_ & _ & Hp).
      destruct (enter cfg time_fn TotalPartials now st0) as [t sta].
      cbn [snd] in Hp. cbv zeta.
      rewrite align_pending_effect. cbn [mbind option_bind].
      cbn [pending_tokens _record_partial_history set_history clock_reads].
      rewrite Hp, H0. cbn [map lcp_len take drop confirmed_tokens app length].
      set (st3 := set_reads _ _). intros [= _ <-].
      assert (pending_tokens (_promote_leftmost_ready cfg time_fn t st3).2
              = []) as Hnil.
      { destruct (promote_exact cfg time_fn t st3)
          as (k & cut & Hk & -> & _ & Hfresh & _).
        destruct (pending_tokens st3 !! k) as [tok|] eqn:Etok.
        - destruct (Hfresh tok eq_refl) as [Hc _].
          assert (confirmation_count tok = 1).
          { pose proof (fresh_tokens_count
                          (clock_reads sta + 0) (Text.tokenize txt)) as Hall.
            rewrite Forall_forall in Hall. apply Hall.
            by eapply list_elem_of_lookup_2. }
          lia.
        - apply lookup_ge_None in Etok. by apply drop_ge. }
      destruct (settle_partial_cases cfg time_fn t st3)
        as [[-> _]|[-> _]]; [done|].
      by rewrite force_segment_break_effect.
    + destruct (add_final_effect cfg time_fn txt now st0)
        as (ev & st' & kept & Hf & _).
      rewrite Hf in E. injection E as _ <-.
      revert Hf. rewrite add_final_phases.
      destruct (enter_effect cfg time_fn TotalFinals now st0)
        as (added & m & rest & started & -> & _).
      destruct (Text.tokenize txt) as [|tok toks].
      * cbv zeta. rewrite force_segment_break_effect. by intros [= _ <-].
      * set (sta := mkState _ _ _ _ _ _ _ _).
        destruct (reconcile_effect cfg (tok :: toks)
                    (logical_now time_fn now st0) sta)
          as (kept' & m' & aw & -> & _).
        by intros [= _ <-].
    + injection E as _ <-. by rewrite force_segment_break_effect.
    + by injection E as _ <-.
    + by injection E as _ <-.
    + by injection E as _ <-.
Qed.

End FinalsMore.

Lemma add_final_without_snapshots_witness :
  let st := set_pending [mkToken "world" 1 0 0]
              (set_stable ["hello"]%string init_state) in
  let m := _longest_suffix_prefix (ctx_nosnap st)
             (Text.tokenize "World again") in
  let kept :=
    (_deduplicate_before_commit default_config
       (drop m (Text.tokenize "World again")) st).1 in
  exists ev st',
    add_final default_config (fun _ => 0%Q) "World again" None st
    = Some (ev, st')
    /\ stable st' = stable st ++ kept
    /\ pending_tokens st' = []
    /\ awaiting_final st' = []
    /\ tokens_committed_by_final (metrics st')
       = tokens_committed_by_final (metrics st) + Z.of_nat (length kept).
Proof.
  intros st.
  apply (add_final_without_snapshots default_config (fun _ => 0%Q)
           "World again" None st).
  - reflexivity.
  - vm_compute. discriminate.
Defined.

Lemma k_one_leaves_nothing_pending_witness :
  match run (mkConfig 1 1400 12000 5000 30000 true 30) (fun _ => 0%Q)
          [OpPartial "one two" None; OpPartial "one three" None]%string
          init_state
  with
  | Some (_, st) => pending_tokens st = []
  | None => False
  end.
Proof.
  destruct (run _ _ _ _) as [[outs st]|] eqn:E.
  - apply (k_one_leaves_nothing_pending
             (mkConfig 1 1400 12000 5000 30000 true 30) (fun _ => 0%Q)
             [OpPartial "one two" None; OpPartial "one three" None]%string
             outs st).
    + simpl. lia.
    + exact E.
  - vm_compute in E. discriminate.
Defined.

(** ** The books: counters against the transcript *)

Lemma committed_bump (k : MetricKey) (n : Z) (m : Metrics) :
  committed (bump k n m)
  = committed m
    + match k with
      | TokensCommittedByStability | TokensCommittedByFlush
      | TokensCommittedByFinal | SnapshotExpiredCommits => n
      | _ => 0
      end.
Proof. destruct m, k; cbv -[Z.add]; lia. Qed.

Lemma removed_bump (k : MetricKey) (n : Z) (m : Metrics) :
  dedup_tokens_removed (bump k n m)
  = dedup_tokens_removed m
    + match k with DedupTokensRemoved => n | _ => 0 end.
Proof. destruct m, k; cbv -[Z.add]; lia. Qed.

Lemma partials_bump (k : MetricKey) (n : Z) (m : Metrics) :
  total_partials (bump k n m)
  = total_partials m + match k with TotalPartials => n | _ => 0 end.
Proof. destruct m, k; cbv -[Z.add]; lia. Qed.

Lemma finals_bump (k : MetricKey) (n : Z) (m : Metrics) :
  total_finals (bump k n m)
  = total_finals m + match k with TotalFinals => n | _ => 0 end.
Proof. destruct m, k; cbv -[Z.add]; lia. Qed.

Ltac books :=
  rewrite ?committed_bump, ?removed_bump, ?partials_bump, ?finals_bump;
  cbv beta iota.

Ltac fields :=
  cbn [stable pending_tokens awaiting_final partial_history segment_id
       segment_started_ms metrics clock_reads set_stable set_pending
       set_awaiting set_history set_segment_id set_segment_started
       set_metrics set_reads bump_metric] in *.

Ltac incl_fwd x :=
  repeat match goal with
         | H : x ∈ _ ++ _ |- _ => apply elem_of_app in H as [H|H]
         | H : x ∈ [] |- _ => by apply elem_of_nil in H
         | H : x ∈ ?l, S : ?l ⊆ _ |- _ => apply S in H
         end.

(** Inclusions between concatenations of lists. *)
Ltac incl :=
  repeat match goal with
         | S : _ ++ _ ⊆ _ |- _ => apply list_subseteq_app_iff_l in S as [? ?]
         end;
  let x := fresh "x" in
  let Hx := fresh "Hx" in
  intros x Hx; incl_fwd x; rewrite ?elem_of_app; tauto.

Lemma balanced_refl (m : Metrics) : balanced m m 0.
Proof. exists 0, 0. lia. Qed.

Lemma balanced_trans (m1 m2 m3 : Metrics) (a b : Z) :
  balanced m1 m2 a -> balanced m2 m3 b -> balanced m1 m3 (a + b).
Proof.
  intros (dc & dr & ? & ? & ? & ? & ? & ? & ?)
         (dc' & dr' & ? & ? & ? & ? & ? & ? & ?).
  exists (dc + dc'), (dr + dr'). split_and!; lia.
Qed.

Lemma ledger_refl (b : list string) (st : State) : ledger b st st.
Proof.
  exists []. rewrite app_nil_r. split_and!; [done|apply balanced_refl|].
  incl.
Qed.

Lemma ledger_trans (b : list string) (st1 st2 st3 : State) :
  ledger b st1 st2 -> ledger b st2 st3 -> ledger b st1 st3.
Proof.
  intros (k1 & E1 & B1 & W1) (k2 & E2 & B2 & W2). exists (k1 ++ k2).
  split_and!.
  - by rewrite E2, E1, app_assoc.
  - rewrite length_app, Nat2Z.inj_add. by eapply balanced_trans.
  - incl.
Qed.

Lemma ledger_mono (b b' : list string) (st st' : State) :
  b ⊆ b' -> ledger b st st' -> ledger b' st st'.
Proof.
  intros Hb (k & E & B & W). exists k. split_and!; [done|done|incl].
Qed.

Lemma ledger_view_l (b : list string) (st1 st1' st2 : State) :
  ledger_view st1 = ledger_view st1' -> ledger b st1 st2 -> ledger b st1' st2.
Proof.
  unfold ledger_view, ledger, words. by intros [= <- <- <- <-].
Qed.

Lemma ledger_view_r (b : list string) (st1 st2 st2' : State) :
  ledger_view st2 = ledger_view st2' -> ledger b st1 st2 -> ledger b st1 st2'.
Proof.
  unfold ledger_view, ledger, words. by intros [= <- <- <- <-].
Qed.

Section Ledger.
Variable cfg : Config.
Variable time_fn : nat -> Q.

(** The commit of a filtered batch, in full. *)
Lemma commit_exact (toks : list string) (st : State) :
  exists (cut : nat) (a b : Z),
    (cut <= length toks)%nat
    /\ commit_filtered cfg toks st
       = ((length toks - cut)%nat,
          set_stable (stable st ++ drop cut toks)
            (set_metrics
               (bump DedupTokensRemoved (Z.of_nat cut)
                  (bump DedupFullBlocks a
                     (bump DedupPartialOverlaps b (metrics st)))) st)).
Proof.
  unfold commit_filtered.
  destruct (dedup_exact cfg toks st) as (cut & a & b & Hc & Ha & Hb & ->).
  exists cut, a, b. split_and!; try done. by rewrite length_drop.
Qed.

Lemma snapshot_words_cons (s : Snapshot) (aw : list Snapshot) :
  snapshot_words (s :: aw) = map text (tokens s) ++ snapshot_words aw.
Proof. done. Qed.

Lemma snapshot_words_app (aw aw' : list Snapshot) :
  snapshot_words (aw ++ aw') = snapshot_words aw ++ snapshot_words aw'.
Proof. unfold snapshot_words. by rewrite bind_app. Qed.

Lemma drop_subseteq {A} (n : nat) (l : list A) : drop n l ⊆ l.
Proof. apply sublist_subseteq, sublist_drop. Qed.

Lemma take_subseteq {A} (n : nat) (l : list A) : take n l ⊆ l.
Proof. apply sublist_subseteq, sublist_take. Qed.

(** Expiry keeps the ledger, whatever deque the loop is started on. *)
Lemma expire_loop_ledger (now : Z) (snaps : list Snapshot) (st : State) :
  ledger [] (set_awaiting snaps st) (expire_loop cfg now snaps st).
Proof.
  revert st. induction snaps as [|s snaps IH]; intros st; simpl.
  - apply ledger_refl.
  - destruct (Z.leb_spec (expiry_ms s) now) as [Hle|Hgt];
      [|apply ledger_refl].
    destruct (commit_exact (map text (tokens s)) (set_awaiting snaps st))
      as (cut & a & b & Hcut & ->).
    set (st2 := bump_metric _ _ _).
    eapply ledger_trans; [|apply (IH st2)].
    exists (drop cut (map text (tokens s))). split_and!; [done| |].
    + rewrite length_map in Hcut. rewrite length_drop, length_map.
      exists (Z.of_nat (length (tokens s) - cut)), (Z.of_nat cut).
      unfold st2. fields. books. rewrite ?length_map. split_and!; lia.
    + unfold words, st2. fields. rewrite app_nil_r, snapshot_words_cons.
      pose proof (drop_subseteq cut (map text (tokens s))). incl.
Qed.

Lemma enter_ledger (k : MetricKey) (now_ms : option Z) (st : State) :
  ledger [] (bump_metric k 1 st) (enter cfg time_fn k now_ms st).2.
Proof.
  unfold enter, _expire_snapshots.
  destruct (resolve_now time_fn now_ms (bump_metric k 1 st))
    as [now st1] eqn:E1.
  assert (H1 : ledger_view (bump_metric k 1 st) = ledger_view st1).
  { destruct now_ms; simpl in E1; by injection E1 as <- <-. }
  set (st2 := _ensure_segment_started _ _ _).
  assert (H2 : ledger_view st1 = ledger_view st2).
  { unfold st2, _ensure_segment_started.
    by destruct (segment_started_ms st1). }
  cbn [snd]. apply (ledger_view_l _ st2); [by rewrite H1, H2|].
  apply (ledger_view_l _ (set_awaiting (awaiting_final st2) st2));
    [by destruct st2|apply expire_loop_ledger].
Qed.

Lemma align_ledger (cur : list string) (st : State) :
  exists st', align_pending time_fn cur st = Some st' /\ ledger cur st st'.
Proof.
  rewrite align_pending_effect. eexists. split; [done|].
  exists []. rewrite app_nil_r. split_and!; [done|apply balanced_refl|].
  unfold words. fields.
  rewrite map_app, confirmed_tokens_text, fresh_tokens_text.
  pose proof (take_subseteq (lcp_len (map text (pending_tokens st)) cur)
                (pending_tokens st)) as Ht.
  pose proof (drop_subseteq (lcp_len (map text (pending_tokens st)) cur)
                cur).
  assert (map text (take (lcp_len (map text (pending_tokens st)) cur)
                      (pending_tokens st)) ⊆ map text (pending_tokens st)).
  { intros x (t & -> & Hx)%list_elem_of_fmap. apply list_elem_of_fmap.
    exists t. split; [done|]. by apply Ht. }
  incl.
Qed.

Lemma promote_ledger (now : Z) (st : State) :
  ledger [] st (_promote_leftmost_ready cfg time_fn now st).2.
Proof.
  unfold _promote_leftmost_ready.
  destruct (promote_walk_exact cfg time_fn (pending_tokens st)
              (clock_reads st) [] (metrics st))
    as (k & a & b & -> & Hk & Ha & Hb & Hab & _).
  cbn [app].
  assert (Hlen : length (map text (take k (pending_tokens st))) = k)
    by (rewrite length_map, length_take; lia).
  assert (Hsub : map text (take k (pending_tokens st))
                 ⊆ map text (pending_tokens st)).
  { intros x (t & -> & Hx)%list_elem_of_fmap. apply list_elem_of_fmap.
    exists t. split; [done|]. by eapply take_subseteq. }
  assert (Hrest : map text (drop k (pending_tokens st))
                  ⊆ map text (pending_tokens st)).
  { intros x (t & -> & Hx)%list_elem_of_fmap. apply list_elem_of_fmap.
    exists t. split; [done|]. by eapply drop_subseteq. }
  destruct (map text (take k (pending_tokens st))) as [|x batch] eqn:Eb.
  - simpl in Hlen. subst k. assert (a = 0) as -> by lia.
    assert (b = 0) as -> by lia. rewrite !bump_zero.
    cbn [snd]. rewrite drop_0. eapply ledger_view_r; [|apply ledger_refl].
    by destruct st.
  - set (st1 := set_reads _ _).
    destruct (commit_exact (x :: batch) st1) as (cut & a' & b' & Hcut & ->).
    cbn [snd]. rewrite Hlen in Hcut.
    pose proof (drop_subseteq cut (x :: batch)).
    exists (drop cut (x :: batch)). unfold st1, words. fields.
    split_and!; [done| |incl].
    exists (Z.of_nat k), (Z.of_nat cut). books.
    rewrite length_drop, Hlen. split_and!; lia.
Qed.

Lemma shelved_words (now : Z) (st : State) :
  snapshot_words (shelved cfg now st) = map text (pending_tokens st).
Proof.
  unfold shelved. destruct (pending_tokens st) as [|t p]; [done|].
  unfold snapshot_words. cbn [mbind list_bind tokens]. rewrite app_nil_r.
  rewrite map_map. done.
Qed.

Lemma break_ledger (now_ms : option Z) (st : State) :
  ledger [] st (force_segment_break cfg time_fn now_ms st).
Proof.
  rewrite force_segment_break_effect. exists []. rewrite app_nil_r.
  split_and!; [done| |].
  - exists 0, 0. fields. books. cbn [length]. split_and!; lia.
  - unfold words. fields. rewrite snapshot_words_app, shelved_words.
    cbn [map app]. incl.
Qed.

Lemma settle_ledger (now : Z) (st : State) :
  ledger [] st (settle_partial cfg time_fn now st).
Proof.
  unfold settle_partial. pose proof (promote_ledger now st) as Hp.
  destruct (_promote_leftmost_ready cfg time_fn now st) as [n st1].
  cbn [snd] in Hp. destruct (segment_started_ms st1) as [g|]; [|done].
  destruct (max_segment_ms cfg <=? now - g); [|done].
  eapply ledger_trans; [exact Hp|apply break_ledger].
Qed.

Lemma snapshot_words_elem (w : string) (aw : list Snapshot) :
  w ∈ snapshot_words aw <-> exists s, s ∈ aw /\ w ∈ map text (tokens s).
Proof.
  unfold snapshot_words. rewrite list_elem_of_bind. split.
  - intros (s & ? & ?). by exists s.
  - intros (s & ? & ?). by exists s.
Qed.

Lemma snapshot_words_mono (aw aw' : list Snapshot) :
  aw ⊆ aw' -> snapshot_words aw ⊆ snapshot_words aw'.
Proof.
  intros H w (s & Hs & Hw)%snapshot_words_elem. apply snapshot_words_elem.
  exists s. split; [by apply H|done].
Qed.

Lemma snapshot_words_lookup (aw : list Snapshot) (i : nat) (s : Snapshot) :
  aw !! i = Some s -> map text (tokens s) ⊆ snapshot_words aw.
Proof.
  intros H w Hw. apply snapshot_words_elem. exists s.
  split; [by eapply list_elem_of_lookup_2|done].
Qed.

(** Trimming one snapshot of a deque adds no word to it. *)
Lemma snapshot_words_insert (aw : list Snapshot) (i : nat)
    (s s' : Snapshot) :
  aw !! i = Some s ->
  tokens s' ⊆ tokens s ->
  snapshot_words (<[i := s']> aw) ⊆ snapshot_words aw.
Proof.
  intros Hs Hsub w (x & Hx & Hw)%snapshot_words_elem.
  apply list_elem_of_lookup_1 in Hx as [j Hj].
  apply list_lookup_insert_Some in Hj as [(<- & <- & _)|(_ & Hj)].
  - apply (snapshot_words_lookup aw i s Hs).
    apply list_elem_of_fmap in Hw as (t & -> & Ht).
    apply list_elem_of_fmap. exists t. split; [done|by apply Hsub].
  - by apply (snapshot_words_lookup aw j x Hj).
Qed.

(** The rescue of orphans cannot fail on a snapshot of the deque, and
    keeps the ledger. *)
Lemma rescue_ledger (idx len_st : nat) (overlap_start : Z) (st : State)
    (snap : Snapshot) :
  awaiting_final st !! idx = Some snap ->
  exists rescued st',
    rescue_orphans cfg idx len_st (length (tokens snap)) overlap_start st
    = Some (rescued, st')
    /\ ledger [] st st'.
Proof.
  intros Hs. unfold rescue_orphans.
  set (left_end := Z.min _ _).
  pose proof (lookup_lt_Some _ _ _ Hs) as Hidx.
  destruct (Z.leb_spec (Z.of_nat len_st) left_end) as [Hle|Hgt].
  - set (left_count := Z.to_nat _).
    destruct (mapM (fun i => snap ← awaiting_final st !! idx;
                             t ← tokens snap !! i; Some (text t))
                (seq 0 left_count)) as [orphaned|] eqn:Eo; cycle 1.
    { exfalso. apply eq_None_not_Some in Eo. apply Eo, mapM_is_Some_2.
      apply Forall_seq. intros j Hj. rewrite Hs. simpl.
      destruct (lookup_lt_is_Some_2 (tokens snap) j) as [t ->];
        [unfold left_count, left_end in *; lia|].
      by eexists. }
    assert (Horph : orphaned ⊆ map text (tokens snap)).
    { apply mapM_Some_1 in Eo. intros w Hw.
      apply list_elem_of_lookup_1 in Hw as [j Hj].
      destruct (Forall2_lookup_r _ _ _ _ _ Eo Hj) as (i & _ & Hf).
      rewrite Hs in Hf. simpl in Hf.
      destruct (tokens snap !! i) as [t|] eqn:Et; [|done].
      injection Hf as <-. apply list_elem_of_fmap. exists t.
      split; [done|by eapply list_elem_of_lookup_2]. }
    cbn [mbind option_bind].
    destruct (commit_exact orphaned st) as (cut & a & b & Hcut & ->).
    cbn [awaiting_final set_stable set_metrics]. rewrite Hs.
    cbn [mbind option_bind]. cbn [awaiting_final set_awaiting].
    rewrite list_lookup_insert_eq by done.
    cbn [mbind option_bind].
    set (snap' := mkSnapshot _ _ _ _).
    set (st1 := set_awaiting _ _).
    destruct (drop_consumed_effect st1 idx snap') as (aw & Haw & Hsub).
    { unfold st1. cbn. by rewrite list_lookup_insert_eq. }
    change (tokens snap') with (drop left_count (tokens snap)) in *.
    change (awaiting_final st1)
      with (<[idx:=snap']> (awaiting_final st)) in Haw, Hsub.
    rewrite Haw. cbn [mbind option_bind].
    assert (Hwords : snapshot_words aw ⊆ snapshot_words (awaiting_final st)).
    { etrans; [apply snapshot_words_mono, sublist_subseteq, Hsub|].
      apply (snapshot_words_insert _ _ snap); [done|]. apply drop_subseteq. }
    pose proof (snapshot_words_lookup _ _ _ Hs) as Hsnap.
    pose proof (drop_subseteq cut orphaned) as Hkept.
    eexists _, _. split; [reflexivity|].
    exists (drop cut orphaned). rewrite length_drop.
    destruct (Nat.ltb_spec 0 (length orphaned - cut)) as [Hpos|Hzero];
      unfold words, st1; fields.
    + split_and!; [done| |incl].
      exists (Z.of_nat (length orphaned - cut)), (Z.of_nat cut). books.
      split_and!; lia.
    + split_and!; [done| |incl].
      exists 0, (Z.of_nat cut). books. split_and!; lia.
  - cbn [mbind option_bind]. rewrite Hs. cbn [mbind option_bind].
    destruct (drop_consumed_effect st idx snap Hs) as (aw & -> & Hsub).
    cbn [mbind option_bind]. eexists _, _. split; [reflexivity|].
    cbn [Nat.ltb Nat.leb]. exists []. rewrite app_nil_r. unfold words. fields.
    pose proof (snapshot_words_mono _ _ (sublist_subseteq _ _ Hsub)).
    split_and!; [done|apply balanced_refl|incl].
Qed.

(** Reconciliation cannot fail, and keeps the ledger: what it appends
    comes from a snapshot or from the final. *)
Lemma reconcile_ledger (final_tokens : list string) (now : Z) (st : State) :
  exists st',
    reconcile cfg final_tokens now st = Some st'
    /\ ledger final_tokens st st'.
Proof.
  unfold reconcile.
  pose proof (build_best_spec final_tokens st) as Hsel.
  destruct (_build_context_for_final final_tokens st)
    as [[[[ctx idx] len_st] len_snap] len_pend].
  cbv zeta in Hsel. destruct Hsel as (_ & _ & Hsel).
  set (m := _longest_suffix_prefix ctx final_tokens) in *.
  set (ov := Z.of_nat (length ctx) - Z.of_nat m).
  assert (exists r st1,
    match idx with
    | Some idx =>
        if Nat.ltb 0 len_snap
        then rescue_orphans cfg idx len_st len_snap ov st
        else Some (O, st)
    | None => Some (O, st)
    end = Some (r, st1) /\ ledger final_tokens st st1)
    as (r & st1 & -> & Hl).
  { destruct idx as [i|]; [|eexists _, _; split; [done|apply ledger_refl]].
    destruct (Nat.ltb 0 len_snap);
      [|eexists _, _; split; [done|apply ledger_refl]].
    destruct Hsel as (snap & Hs & _ & -> & _).
    destruct (rescue_ledger i len_st ov st snap Hs) as (r & st1 & -> & Hl).
    exists r, st1. split; [done|]. eapply ledger_mono; [|exact Hl].
    apply list_subseteq_nil. }
  cbn [mbind option_bind]. eexists. split; [reflexivity|].
  eapply ledger_trans; [exact Hl|].
  pose proof (drop_subseteq m final_tokens) as Hdrop.
  destruct (drop m final_tokens) as [|x rest] eqn:E.
  - exists []. rewrite app_nil_r. unfold words. fields. cbn [map app].
    split_and!; [done|apply balanced_refl|incl].
  - destruct (dedup_exact cfg (x :: rest) st1)
      as (cut & a & b & Hcut & _ & _ & ->).
    pose proof (drop_subseteq cut (x :: rest)) as Hkept.
    exists (drop cut (x :: rest)). unfold words. fields. cbn [map app].
    split_and!; [done| |incl].
    exists (Z.of_nat (length (drop cut (x :: rest)))), (Z.of_nat cut).
    books. split_and!; lia.
Qed.

Lemma words_entered (op : Op) (st : State) :
  words (entered op st) = words st.
Proof. done. Qed.

(** Every call but [reset] returns and keeps the ledger, from the state
    with the call counted. *)
Lemma step_ledger (op : Op) (st : State) :
  is_reset op = false ->
  exists out st',
    step cfg time_fn op st = Some (out, st')
    /\ ledger (op_tokens op) (entered op st) st'.
Proof.
  intros Hop.
  assert (Hsame : forall b st', ledger b st st' ->
                    ledger b (set_metrics (metrics st) st) st').
  { intros b st'. apply ledger_view_l. by destruct st. }
  destruct op as [txt now|txt now|now|fin| |]; [| | | | |done];
    unfold entered; cbn [step op_tokens op_entry].
  - rewrite add_partial_phases.
    pose proof (enter_ledger TotalPartials now st) as He.
    destruct (enter cfg time_fn TotalPartials now st) as [t st1].
    cbn [snd] in He. cbv zeta.
    destruct (align_ledger (Text.tokenize txt)
                (_record_partial_history cfg (Text.tokenize txt) t st1))
      as (st3 & -> & Ha).
    cbn [mbind option_bind]. eexists _, _. split; [reflexivity|].
    eapply ledger_trans;
      [eapply ledger_mono; [apply list_subseteq_nil|exact He]|].
    eapply ledger_trans;
      [|eapply ledger_mono; [apply list_subseteq_nil|apply settle_ledger]].
    eapply ledger_view_l; [|exact Ha]. done.
  - rewrite add_final_phases.
    pose proof (enter_ledger TotalFinals now st) as He.
    destruct (enter cfg time_fn TotalFinals now st) as [t st1].
    cbn [snd] in He.
    destruct (Text.tokenize txt) as [|tok toks] eqn:Etok.
    + cbv zeta. cbn [mbind option_bind]. eexists _, _.
      split; [reflexivity|].
      eapply ledger_trans; [exact He|apply break_ledger].
    + destruct (reconcile_ledger (tok :: toks) t st1) as (st2 & -> & Hr).
      cbn [mbind option_bind]. eexists _, _. split; [reflexivity|].
      eapply ledger_trans; [|exact Hr].
      eapply ledger_mono; [apply list_subseteq_nil|exact He].
  - eexists _, _. split; [reflexivity|]. apply Hsame, break_ledger.
  - eexists _, _. split; [reflexivity|]. apply Hsame, ledger_refl.
  - eexists _, _. split; [reflexivity|]. apply Hsame, ledger_refl.
Qed.

Lemma op_entry_books (op : Op) (m : Metrics) :
  committed (op_entry op m) = committed m
  /\ dedup_tokens_removed (op_entry op m) = dedup_tokens_removed m
  /\ total_partials (op_entry op m)
     = total_partials m + (if is_partial op then 1 else 0)
  /\ total_finals (op_entry op m)
     = total_finals m + (if is_final op then 1 else 0).
Proof. destruct op; cbn [op_entry is_partial is_final]; books; lia. Qed.

(** What a call does to the books, [reset] included. *)
Lemma step_books (op : Op) (out : Out) (st st' : State) :
  step cfg time_fn op st = Some (out, st') ->
  (Z.of_nat (length (stable st)) <= committed (metrics st) ->
   Z.of_nat (length (stable st')) <= committed (metrics st'))
  /\ (is_reset op = false ->
      committed (metrics st) - dedup_tokens_removed (metrics st)
      <= Z.of_nat (length (stable st)) ->
      committed (metrics st') - dedup_tokens_removed (metrics st')
      <= Z.of_nat (length (stable st')))
  /\ total_partials (metrics st')
     = total_partials (metrics st) + (if is_partial op then 1 else 0)
  /\ total_finals (metrics st')
     = total_finals (metrics st) + (if is_final op then 1 else 0).
Proof.
  intros Hstep. destruct (is_reset op) eqn:Hop.
  - destruct op; try done. injection Hstep as _ <-. cbn.
    split_and!; try done; lia.
  - destruct (step_ledger op st Hop)
      as (out' & st'' & Hstep' & kept & Hk & (dc & dr & HB) & _).
    rewrite Hstep in Hstep'. injection Hstep' as _ <-.
    unfold entered in HB. cbn [metrics set_metrics] in HB.
    destruct (op_entry_books op (metrics st)) as (Ec & Er & Ep & Ef).
    rewrite Ec, Er, Ep, Ef in HB.
    change (stable (entered op st)) with (stable st) in Hk.
    rewrite Hk, length_app.
    split_and!; [lia|intros _; lia|lia|lia].
Qed.

End Ledger.

(** ** Sessions: counters, provenance and the text of the transcript *)

Section Sessions.
Variable cfg : Config.
Variable time_fn : nat -> Q.

Lemma run_cons_inv (op : Op) (ops : list Op) (st0 st : State)
    (outs : list Out) :
  run cfg time_fn (op :: ops) st0 = Some (outs, st) ->
  exists o st1 os,
    step cfg time_fn op st0 = Some (o, st1)
    /\ run cfg time_fn ops st1 = Some (os, st).
Proof.
  simpl. destruct (step cfg time_fn op st0) as [[o st1]|]; [|done].
  cbn [mbind option_bind].
  destruct (run cfg time_fn ops st1) as [[os st2]|] eqn:E; [|done].
  cbn [mbind option_bind]. intros [= _ <-]. by exists o, st1, os.
Qed.

Lemma calls_cons (kind : Op -> bool) (op : Op) (ops : list Op) :
  calls kind (op :: ops) = (if kind op then 1 else 0) + calls kind ops.
Proof.
  unfold calls. cbn [List.filter]. destruct (kind op); cbn [length]; lia.
Qed.

(** The books through a session. *)
Lemma run_books (ops : list Op) (outs : list Out) (st0 st : State) :
  run cfg time_fn ops st0 = Some (outs, st) ->
  (Z.of_nat (length (stable st0)) <= committed (metrics st0) ->
   Z.of_nat (length (stable st)) <= committed (metrics st))
  /\ (forallb (fun op => negb (is_reset op)) ops = true ->
      committed (metrics st0) - dedup_tokens_removed (metrics st0)
      <= Z.of_nat (length (stable st0)) ->
      committed (metrics st) - dedup_tokens_removed (metrics st)
      <= Z.of_nat (length (stable st)))
  /\ total_partials (metrics st)
     = total_partials (metrics st0) + calls is_partial ops
  /\ total_finals (metrics st)
     = total_finals (metrics st0) + calls is_final ops.
Proof.
  revert st0 outs. induction ops as [|op ops IH]; intros st0 outs Hrun.
  - injection Hrun as _ <-. unfold calls. cbn. split_and!; try done; lia.
  - apply run_cons_inv in Hrun as (o & st1 & os & Hstep & Hrun).
    destruct (step_books cfg time_fn op o st0 st1 Hstep)
      as (Hup & Hlow & Hp & Hf).
    destruct (IH st1 os Hrun) as (Hup' & Hlow' & Hp' & Hf').
    rewrite !calls_cons. split_and!; [by auto| |lia|lia].
    cbn [forallb]. intros [Hop Hops]%andb_prop.
    apply negb_true_iff in Hop. auto.
Qed.

(** X13.  In every state reached from a fresh accumulator the length of
    [stable] is at most the sum of the four commit counters
    ([tokens_committed_by_stability], [_by_flush], [_by_final],
    [snapshot_expired_commits]); unless [reset] was called it is at least
    that sum less [dedup_tokens_removed].  (Promotion counts its tokens
    before the deduplicator cuts them, the other paths after.) *)
Theorem stable_length_within_counters (ops : list Op) (outs : list Out)
    (st : State) :
  run cfg time_fn ops init_state = Some (outs, st) ->
  Z.of_nat (length (stable st)) <= committed (metrics st)
  /\ (forallb (fun op => negb (is_reset op)) ops = true ->
      committed (metrics st) - dedup_tokens_removed (metrics st)
      <= Z.of_nat (length (stable st))).
Proof.
  intros Hrun. destruct (run_books ops outs init_state st Hrun)
    as (Hup & Hlow & _).
  split; [by apply Hup|]. intros Hops. by apply Hlow.
Qed.

(** X14.  Through any session [total_partials] grows by the number of
    calls to [add_partial] and [total_finals] by the number of calls to
    [add_final], whatever their texts; no other call changes them, and
    [reset] does not clear them. *)
Theorem call_counters_count_calls (ops : list Op) (outs : list Out)
    (st0 st : State) :
  run cfg time_fn ops st0 = Some (outs, st) ->
  total_partials (metrics st)
  = total_partials (metrics st0) + calls is_partial ops
  /\ total_finals (metrics st)
     = total_finals (metrics st0) + calls is_final ops.
Proof.
  intros Hrun. by destruct (run_books ops outs st0 st Hrun) as (_ & _ & ?).
Qed.

(** Every word held after a session was held before it or is a token of
    a text passed in. *)
Lemma run_words (ops : list Op) (outs : list Out) (st0 st : State) :
  run cfg time_fn ops st0 = Some (outs, st) ->
  words st ⊆ words st0 ++ (ops ≫= op_tokens).
Proof.
  revert st0 outs. induction ops as [|op ops IH]; intros st0 outs Hrun.
  - injection Hrun as _ <-. apply list_subseteq_app_l. done.
  - apply run_cons_inv in Hrun as (o & st1 & os & Hstep & Hrun).
    specialize (IH st1 os Hrun). cbn [mbind list_bind] in *.
    assert (words st1 ⊆ words st0 ++ op_tokens op) as Hstep1.
    { destruct (is_reset op) eqn:Hop.
      - destruct op; try done. injection Hstep as _ <-.
        apply list_subseteq_nil.
      - destruct (step_ledger cfg time_fn op st0 Hop)
          as (o' & st1' & Hstep' & kept & _ & _ & Hw).
        rewrite Hstep in Hstep'. by injection Hstep' as _ <-. }
    incl.
Qed.

(** X15.  The accumulator invents no word: a word in [stable], in
    pending or in a snapshot after a session was there before the session
    or is a token of the text of one of its [add_partial] or [add_final]
    calls. *)
Theorem words_come_from_calls (ops : list Op) (outs : list Out)
    (st0 st : State) (w : string) :
  run cfg time_fn ops st0 = Some (outs, st) ->
  w ∈ words st ->
  w ∈ words st0 \/ exists op, op ∈ ops /\ w ∈ op_tokens op.
Proof.
  intros Hrun Hw. apply (run_words ops outs st0 st Hrun) in Hw.
  apply elem_of_app in Hw as [Hw|Hw]; [by left|right].
  apply list_elem_of_bind in Hw as (op & ? & ?). by exists op.
Qed.

(** X16.  In every state reached from a fresh accumulator the two texts
    of a display event split back into the tokens they were built from:
    tokenizing [stable_text] gives [stable], and tokenizing the partial
    suffix gives the texts of pending. *)
Theorem transcript_retokenizes (ops : list Op) (outs : list Out)
    (st : State) (fin : bool) :
  run cfg time_fn ops init_state = Some (outs, st) ->
  Text.tokenize (stable_text st) = stable st
  /\ Text.tokenize (ev_partial_suffix (build_display_event fin st))
     = map text (pending_tokens st).
Proof.
  intros Hrun. pose proof (run_words ops outs init_state st Hrun) as Hw.
  assert (Hfull : Forall full_match (words st)).
  { apply Forall_forall. intros w Hin. apply Hw in Hin.
    cbn [words init_state stable pending_tokens awaiting_final map app
         snapshot_words mbind list_bind] in Hin.
    apply list_elem_of_bind in Hin as (op & Hin & _).
    assert (Forall full_match (op_tokens op)) as Hall.
    { destruct op; cbn [op_tokens]; try constructor;
        apply findall_full. }
    rewrite Forall_forall in Hall. by apply Hall. }
  unfold words in Hfull. apply Forall_app in Hfull as [Hs Hfull].
  apply Forall_app in Hfull as [Hp _].
  split; by apply detokenize_retokenizes.
Qed.

End Sessions.

Lemma stable_length_within_counters_witness :
  match run default_config (fun _ => 0%Q)
          [OpPartial "hello world" (Some 0);
           OpPartial "hello world again" (Some 100);
           OpFinal "world again" (Some 200)]%string
          init_state
  with
  | Some (_, st) =>
      Z.of_nat (length (stable st)) <= committed (metrics st)
      /\ committed (metrics st) - dedup_tokens_removed (metrics st)
         <= Z.of_nat (length (stable st))
  | None => False
  end.
Proof.
  destruct (run _ _ _ _) as [[outs st]|] eqn:E.
  - destruct (stable_length_within_counters default_config (fun _ => 0%Q)
                [OpPartial "hello world" (Some 0);
                 OpPartial "hello world again" (Some 100);
                 OpFinal "world again" (Some 200)]%string
                outs st E) as [Hup Hlow].
    split; [exact Hup|]. apply Hlow. reflexivity.
  - vm_compute in E. discriminate.
Defined.

Lemma call_counters_count_calls_witness :
  match run default_config (fun _ => 0%Q)
          [OpPartial "hello" (Some 0); OpReset; OpFinal "" (Some 10);
           OpPartial "hello there" (Some 20)]%string
          init_state
  with
  | Some (_, st) =>
      total_partials (metrics st) = 2 /\ total_finals (metrics st) = 1
  | None => False
  end.
Proof.
  destruct (run _ _ _ _) as [[outs st]|] eqn:E.
  - apply (call_counters_count_calls default_config (fun _ => 0%Q)
             [OpPartial "hello" (Some 0); OpReset; OpFinal "" (Some 10);
              OpPartial "hello there" (Some 20)]%string
             outs init_state st).
    exact E.
  - vm_compute in E. discriminate.
Defined.

Lemma words_come_from_calls_witness :
  exists outs st,
    run default_config (fun _ => 0%Q)
      [OpPartial "hello world" (Some 0);
       OpPartial "hello world again" (Some 100)]%string
      init_state
    = Some (outs, st)
    /\ "hello"%string ∈ words st
    /\ ("hello"%string ∈ words init_state
        \/ exists op,
             op ∈ [OpPartial "hello world" (Some 0);
                   OpPartial "hello world again" (Some 100)]%string
             /\ "hello"%string ∈ op_tokens op).
Proof.
  destruct (run default_config (fun _ => 0%Q)
              [OpPartial "hello world" (Some 0);
               OpPartial "hello world again" (Some 100)]%string
              init_state) as [[outs st]|] eqn:E;
    [|vm_compute in E; discriminate].
  assert (Hw : "hello"%string ∈ words st).
  { pose proof E as E'. vm_compute in E'. injection E' as _ <-.
    vm_compute. constructor. }
  exists outs, st. split; [reflexivity|]. split; [exact Hw|].
  exact (words_come_from_calls default_config (fun _ => 0%Q)
           [OpPartial "hello world" (Some 0);
            OpPartial "hello world again" (Some 100)]%string
           outs init_state st "hello"%string E Hw).
Defined.

Lemma transcript_retokenizes_witness :
  match run default_config (fun _ => 0%Q)
          [OpPartial "Don't stop, now" (Some 0);
           OpPartial "Don't stop, now!" (Some 100)]%string
          init_state
  with
  | Some (_, st) =>
      Text.tokenize (stable_text st) = stable st
      /\ Text.tokenize (ev_partial_suffix (build_display_event false st))
         = map text (pending_tokens st)
  | None => False
  end.
Proof.
  destruct (run _ _ _ _) as [[outs st]|] eqn:E.
  - apply (transcript_retokenizes default_config (fun _ => 0%Q)
             [OpPartial "Don't stop, now" (Some 0);
              OpPartial "Don't stop, now!" (Some 100)]%string
             outs st false).
    exact E.
  - vm_compute in E. discriminate.
Defined.

(** ** The age of a segment *)

Section SegmentAge.
Variable cfg : Config.
Variable time_fn : nat -> Q.


End SegmentAge.


(** ** Snapshots are never empty *)

Section SnapshotsFull.
Variable cfg : Config.
Variable time_fn : nat -> Q.

Lemma snapshot_eqb_tokens_nil (y x : Snapshot) :
  snapshot_eqb y x = true -> tokens x = [] -> tokens y = [].
Proof.
  unfold snapshot_eqb. intros H Hx. rewrite Hx in H.
  by destruct (tokens y).
Qed.

(** Removing the one empty snapshot of a deque leaves none. *)
Lemma deque_remove_empty (x : Snapshot) (l l' : list Snapshot) (idx : nat) :
  tokens x = [] ->
  l !! idx = Some x ->
  (forall j s, l !! j = Some s -> j <> idx -> tokens s <> []) ->
  deque_remove x l = Some l' ->
  snapshots_full l'.
Proof.
  intros Hx. revert idx l'.
  induction l as [|y l IH]; intros idx l' Hidx Hothers; [done|].
  simpl. destruct (snapshot_eqb y x) eqn:E.
  - intros [= <-].
    pose proof (snapshot_eqb_tokens_nil y x E Hx) as Hy.
    destruct idx as [|idx]; [|by destruct (Hothers O y eq_refl)].
    apply Forall_lookup. intros j s Hj.
    by apply (Hothers (S j) s Hj).
  - destruct idx as [|idx].
    { injection Hidx as ->. by rewrite snapshot_eqb_refl in E. }
    destruct (deque_remove x l) as [l0|] eqn:Er; [|done].
    intros [= <-]. constructor.
    + by apply (Hothers O y eq_refl).
    + apply (IH idx l0 Hidx); [|done].
      intros j s Hj Hne. apply (Hothers (S j) s Hj). lia.
Qed.

Lemma rescue_full (idx len_st : nat) (overlap_start : Z) (st st' : State)
    (snap : Snapshot) (rescued : nat) :
  awaiting_final st !! idx = Some snap ->
  snapshots_full (awaiting_final st) ->
  rescue_orphans cfg idx len_st (length (tokens snap)) overlap_start st
  = Some (rescued, st') ->
  snapshots_full (awaiting_final st').
Proof.
  intros Hs Hfull. unfold rescue_orphans.
  set (left_end := Z.min _ _).
  pose proof (lookup_lt_Some _ _ _ Hs) as Hidx.
  assert (Hfin : forall r (s1 s2 : State),
            awaiting_final s1 = awaiting_final s2 ->
            awaiting_final
              (if Nat.ltb 0 r
               then bump_metric TokensCommittedByFinal (Z.of_nat r)
                      (bump_metric LateFinalHits 1
                         (bump_metric OrphanRescues (Z.of_nat r) s1))
               else s1) = awaiting_final s2).
  { intros r s1 s2 <-. by destruct (Nat.ltb 0 r). }
  destruct (Z.leb_spec (Z.of_nat len_st) left_end) as [Hle|Hgt].
  - set (left_count := Z.to_nat _).
    destruct (mapM _ (seq 0 left_count)) as [orphaned|]; [|done].
    cbn [mbind option_bind].
    destruct (commit_exact cfg orphaned st) as (cut & a & b & Hcut & ->).
    cbn [awaiting_final set_stable set_metrics]. rewrite Hs.
    cbn [mbind option_bind]. cbn [awaiting_final set_awaiting].
    rewrite list_lookup_insert_eq by done.
    cbn [mbind option_bind].
    set (snap' := mkSnapshot _ _ _ _).
    set (st1 := set_awaiting _ _).
    change (tokens snap') with (drop left_count (tokens snap)).
    assert (Hothers : forall j s,
              <[idx:=snap']> (awaiting_final st) !! j = Some s ->
              j <> idx -> tokens s <> []).
    { intros j s Hj Hne. rewrite list_lookup_insert_ne in Hj by done.
      unfold snapshots_full in Hfull. rewrite Forall_lookup in Hfull.
      by apply (Hfull j). }
    destruct (drop left_count (tokens snap)) as [|t rest] eqn:Ed.
    + change (awaiting_final st1) with (<[idx:=snap']> (awaiting_final st)).
      destruct (deque_remove snap' _) as [aw|] eqn:Er; [|done].
      cbn [mbind option_bind]. intros [= _ <-].
      rewrite (Hfin _ _ (set_awaiting aw st1)) by done.
      apply (deque_remove_empty snap' (<[idx:=snap']> (awaiting_final st))
               aw idx); [done| |done|done].
      by apply list_lookup_insert_eq.
    + cbn [mbind option_bind]. intros [= _ <-].
      rewrite (Hfin _ _ st1) by done.
      apply Forall_lookup. intros j s Hj.
      destruct (decide (j = idx)) as [->|Hne]; [|by apply (Hothers j)].
      change (awaiting_final st1)
        with (<[idx:=snap']> (awaiting_final st)) in Hj.
      rewrite list_lookup_insert_eq in Hj by done.
      by injection Hj as <-.
  - cbn [mbind option_bind]. rewrite Hs. cbn [mbind option_bind].
    unfold snapshots_full in Hfull.
    pose proof (proj1 (Forall_lookup _ _) Hfull idx snap Hs) as Hne.
    cbv beta in Hne.
    destruct (tokens snap) as [|t rest]; [done|].
    cbn [mbind option_bind]. intros [= _ <-]. done.
Qed.

Lemma reconcile_full (final_tokens : list string) (now : Z)
    (st st' : State) :
  snapshots_full (awaiting_final st) ->
  reconcile cfg final_tokens now st = Some st' ->
  snapshots_full (awaiting_final st').
Proof.
  intros Hfull. unfold reconcile.
  pose proof (build_best_spec final_tokens st) as Hsel.
  destruct (_build_context_for_final final_tokens st)
    as [[[[ctx idx] len_st] len_snap] len_pend].
  cbv zeta in Hsel. destruct Hsel as (_ & _ & Hsel).
  set (m := _longest_suffix_prefix ctx final_tokens) in *.
  set (ov := Z.of_nat (length ctx) - Z.of_nat m).
  destruct (match idx with
            | Some idx =>
                if Nat.ltb 0 len_snap
                then rescue_orphans cfg idx len_st len_snap ov st
                else Some (O, st)
            | None => Some (O, st)
            end) as [[r st1]|] eqn:Er; [|done].
  assert (Hfull1 : snapshots_full (awaiting_final st1)).
  { destruct idx as [i|]; [|by injection Er as _ <-].
    destruct (Nat.ltb 0 len_snap); [|by injection Er as _ <-].
    destruct Hsel as (snap & Hs & _ & -> & _).
    by eapply rescue_full. }
  cbn [mbind option_bind]. intros [= <-].
  destruct (drop m final_tokens) as [|x rest]; [done|].
  destruct (dedup_effect cfg (x :: rest) st1) as (kept & m2 & ->). done.
Qed.

Lemma shelved_full (now : Z) (st : State) :
  snapshots_full (shelved cfg now st).
Proof.
  unfold shelved. destruct (pending_tokens st) as [|t p]; [constructor|].
  by repeat constructor.
Qed.

Lemma enter_full (k : MetricKey) (now_ms : option Z) (st : State) :
  snapshots_full (awaiting_final st) ->
  snapshots_full (awaiting_final (enter cfg time_fn k now_ms st).2).
Proof.
  intros Hfull.
  destruct (enter_effect cfg time_fn k now_ms st)
    as (added & m & rest & started & -> & Hsuf & _).
  cbn. destruct Hsuf as [pre Hpre]. unfold snapshots_full in *.
  rewrite Hpre in Hfull. by apply Forall_app in Hfull as [_ ?].
Qed.

Lemma break_full (now_ms : option Z) (st : State) :
  snapshots_full (awaiting_final st) ->
  snapshots_full (awaiting_final (force_segment_break cfg time_fn now_ms st)).
Proof.
  intros Hfull. rewrite force_segment_break_effect. cbn.
  apply Forall_app. split; [done|apply shelved_full].
Qed.

Lemma step_full (op : Op) (out : Out) (st st' : State) :
  snapshots_full (awaiting_final st) ->
  step cfg time_fn op st = Some (out, st') ->
  snapshots_full (awaiting_final st').
Proof.
  intros Hfull.
  destruct op as [txt now|txt now|now|fin| |]; cbn [step].
  - rewrite add_partial_phases.
    pose proof (enter_full TotalPartials now st Hfull) as He.
    destruct (enter cfg time_fn TotalPartials now st) as [t st1].
    cbn [snd] in He. cbv zeta.
    rewrite align_pending_effect. cbn [mbind option_bind].
    set (st3 := set_reads _ _). intros [= _ <-].
    assert (H3 : snapshots_full (awaiting_final st3)) by done.
    destruct (settle_partial_cases cfg time_fn t st3) as [[-> _]|[-> _]].
    + destruct (promote_effect cfg time_fn t st3) as (k & kept & m & -> & _).
      done.
    + apply break_full.
      destruct (promote_effect cfg time_fn t st3) as (k & kept & m & -> & _).
      done.
  - rewrite add_final_phases.
    pose proof (enter_full TotalFinals now st Hfull) as He.
    destruct (enter cfg time_fn TotalFinals now st) as [t st1].
    cbn [snd] in He.
    destruct (Text.tokenize txt) as [|tok toks].
    + cbv zeta. cbn [mbind option_bind]. intros [= _ <-].
      by apply break_full.
    + destruct (reconcile cfg (tok :: toks) t st1) as [st2|] eqn:Er; [|done].
      cbn [mbind option_bind]. intros [= _ <-]. by eapply reconcile_full.
  - intros [= _ <-]. by apply break_full.
  - by intros [= _ <-].
  - by intros [= _ <-].
  - intros [= _ <-]. constructor.
Qed.

(** X18.  No snapshot in [awaiting_final] is ever empty: in every state
    reached from a fresh accumulator each snapshot holds at least one
    token.  A break shelves pending only when there is some, and a final
    that consumes a snapshot to its end removes it. *)
Theorem snapshots_never_empty (ops : list Op) (outs : list Out)
    (st : State) :
  run cfg time_fn ops init_state = Some (outs, st) ->
  snapshots_full (awaiting_final st).
Proof.
  assert (Hinit : snapshots_full (awaiting_final init_state))
    by constructor.
  revert Hinit. generalize init_state as st0. revert outs.
  induction ops as [|op ops IH]; intros outs st0 H0 Hrun.
  - by injection Hrun as _ <-.
  - apply run_cons_inv in Hrun as (o & st1 & os & Hstep & Hrun).
    apply (IH os st1); [|done]. by eapply step_full.
Qed.

End SnapshotsFull.

Lemma snapshots_never_empty_witness :
  match run default_config (fun _ => 0%Q)
          [OpPartial "it was late" (Some 0); OpBreak (Some 100);
           OpFinal "was late" (Some 200)]%string
          init_state
  with
  | Some (_, st) => snapshots_full (awaiting_final st)
  | None => False
  end.
Proof.
  destruct (run _ _ _ _) as [[outs st]|] eqn:E.
  - apply (snapshots_never_empty default_config (fun _ => 0%Q)
             [OpPartial "it was late" (Some 0); OpBreak (Some 100);
              OpFinal "was late" (Some 200)]%string
             outs st).
    exact E.
  - vm_compute in E. discriminate.
Defined.

(** ** Expiry of snapshots, in full *)

Section ExpiryMore.
Variable cfg : Config.
Variable time_fn : nat -> Q.

Lemma expired_bump (k : MetricKey) (n : Z) (m : Metrics) :
  snapshot_expired_commits (bump k n m)
  = snapshot_expired_commits m
    + match k with SnapshotExpiredCommits => n | _ => 0 end.
Proof. destruct m, k; cbv -[Z.add]; lia. Qed.

Lemma dedup_disabled (toks : list string) (st : State) :
  dedup_enabled cfg = false ->
  _deduplicate_before_commit cfg toks st = (toks, st).
Proof. intros H. unfold _deduplicate_before_commit. by rewrite H. Qed.

(** The commit of a batch: a suffix of it is appended, all of it when
    the deduplicator is off; the counter of expired commits is not
    touched. *)
Lemma commit_suffix (toks : list string) (st : State) :
  exists kept m,
    commit_filtered cfg toks st
    = (length kept, set_stable (stable st ++ kept) (set_metrics m st))
    /\ kept `suffix_of` toks
    /\ (dedup_enabled cfg = false -> kept = toks)
    /\ snapshot_expired_commits m = snapshot_expired_commits (metrics st).
Proof.
  destruct (dedup_enabled cfg) eqn:Hd.
  - destruct (commit_exact cfg toks st) as (cut & a & b & Hcut & ->).
    eexists _, _. rewrite length_drop. split; [reflexivity|].
    split_and!; [apply suffix_drop|done|].
    rewrite !expired_bump. lia.
  - unfold commit_filtered. rewrite dedup_disabled by done.
    exists toks, (metrics st). by split_and!.
Qed.

Lemma expire_loop_exact (now : Z) (snaps : list Snapshot) (st : State) :
  exists (k : nat) (kept : list string) (m : Metrics),
    expire_loop cfg now snaps st
    = set_awaiting (drop k snaps)
        (set_stable (stable st ++ kept) (set_metrics m st))
    /\ (forall i s, (i < k)%nat -> snaps !! i = Some s -> expiry_ms s <= now)
    /\ (forall s, snaps !! k = Some s -> now < expiry_ms s)
    /\ kept `sublist_of` snapshot_words (take k snaps)
    /\ (dedup_enabled cfg = false -> kept = snapshot_words (take k snaps))
    /\ snapshot_expired_commits m
       = snapshot_expired_commits (metrics st) + Z.of_nat (length kept).
Proof.
  revert st. induction snaps as [|s snaps IH]; intros st; simpl.
  - exists O, [], (metrics st). rewrite app_nil_r.
    split_and!; try done. cbn [length]. lia.
  - destruct (Z.leb_spec (expiry_ms s) now) as [Hle|Hgt].
    + destruct (commit_suffix (map text (tokens s)) (set_awaiting snaps st))
        as (kept1 & m1 & -> & Hsuf & Hoff & Hm1).
      set (st2 := bump_metric _ _ _).
      destruct (IH st2) as (k & kept & m & -> & Hexp & Hhd & Hsub & Hoff' & Hm).
      exists (S k), (kept1 ++ kept), m. unfold st2 in *. fields.
      split_and!.
      * cbn. by rewrite app_assoc.
      * intros [|i] x Hi Hx; [by injection Hx as <-|].
        apply (Hexp i x); [lia|done].
      * done.
      * cbn [take]. rewrite snapshot_words_cons. apply sublist_app; [|done].
        destruct Hsuf as [pre ->]. by apply sublist_inserts_l.
      * intros Hd. cbn [take]. rewrite snapshot_words_cons.
        by rewrite Hoff, Hoff'.
      * rewrite Hm, expired_bump, Hm1, length_app. lia.
    + exists O, [], (metrics st). rewrite app_nil_r.
      split_and!; try done.
      * intros i x Hi. lia.
      * intros x [= <-]. lia.
      * cbn [length]. lia.
Qed.

(** X19.  [_expire_snapshots] pops exactly the leading run of snapshots
    that have expired at [now_ms]: every snapshot popped had
    [expiry_ms <= now_ms], the first one left has not, and the rest of
    the deque is untouched.  [stable] receives tokens of the popped
    snapshots in their order (all of them when the deduplicator is off),
    [snapshot_expired_commits] grows by the number received, and pending
    is not touched. *)
Theorem expire_takes_expired_prefix (now : Z) (st : State) :
  let st' := _expire_snapshots cfg now st in
  exists (k : nat) (kept : list string),
    awaiting_final st' = drop k (awaiting_final st)
    /\ (forall i s, (i < k)%nat -> awaiting_final st !! i = Some s ->
          expiry_ms s <= now)
    /\ (forall s, awaiting_final st !! k = Some s -> now < expiry_ms s)
    /\ stable st' = stable st ++ kept
    /\ kept `sublist_of` snapshot_words (take k (awaiting_final st))
    /\ (dedup_enabled cfg = false ->
        kept = snapshot_words (take k (awaiting_final st)))
    /\ snapshot_expired_commits (metrics st')
       = snapshot_expired_commits (metrics st) + Z.of_nat (length kept)
    /\ pending_tokens st' = pending_tokens st.
Proof.
  unfold _expire_snapshots.
  destruct (expire_loop_exact now (awaiting_final st) st)
    as (k & kept & m & -> & Hexp & Hhd & Hsub & Hoff & Hm).
  exists k, kept. by split_and!.
Qed.

(** X20.  Words shelved by a segment break are not lost: when the
    deque is empty, a break at time [t] followed by an expiry at or
    after [t + awaiting_final_ttl_ms] leaves in [stable] the texts of
    what was pending, less what the deduplicator cuts, and leaves
    nothing pending or shelved. *)
Theorem break_then_expiry_commits_pending (t now : Z) (st : State) :
  awaiting_final st = [] ->
  t + awaiting_final_ttl_ms cfg <= now ->
  let st' :=
    _expire_snapshots cfg now
      (force_segment_break cfg time_fn (Some t) st) in
  stable st'
  = stable st
    ++ (_deduplicate_before_commit cfg (map text (pending_tokens st)) st).1
  /\ pending_tokens st' = []
  /\ awaiting_final st' = [].
Proof.
  intros Haw Hnow. rewrite force_segment_break_effect.
  unfold _expire_snapshots, shelved. fields. rewrite Haw. cbn [app].
  destruct (pending_tokens st) as [|tok p] eqn:Ep.
  - cbn. unfold _deduplicate_before_commit.
    rewrite bool_decide_eq_true_2 by done.
    destruct (negb (dedup_enabled cfg)); cbn; by rewrite app_nil_r.
  - cbn [expire_loop expiry_ms logical_now].
    destruct (Z.leb_spec (t + awaiting_final_ttl_ms cfg) now); [|lia].
    cbn [tokens]. rewrite map_map. cbn [text].
    change (map (fun x => text x) (tok :: p)) with (map text (tok :: p)).
    unfold commit_filtered.
    set (st1 := set_awaiting [] _).
    rewrite (surjective_pairing
               (_deduplicate_before_commit cfg (map text (tok :: p)) st1)).
    rewrite (dedup_kept_by_stable cfg _ st1 st) by done.
    destruct (dedup_effect cfg (map text (tok :: p)) st1) as (kept & m & E).
    rewrite E. cbn. done.
Qed.

End ExpiryMore.

Lemma break_then_expiry_commits_pending_witness :
  let st := set_pending [mkToken "late" 1 0 0; mkToken "words" 1 0 0]
              (set_stable ["some"]%string init_state) in
  let st' :=
    _expire_snapshots default_config 6000
      (force_segment_break default_config (fun _ => 0%Q) (Some 1000) st) in
  stable st'
  = stable st
    ++ (_deduplicate_before_commit default_config
          (map text (pending_tokens st)) st).1
  /\ pending_tokens st' = []
  /\ awaiting_final st' = [].
Proof.
  intros st.
  apply (break_then_expiry_commits_pending default_config (fun _ => 0%Q)
           1000 6000 st).
  - reflexivity.
  - vm_compute. discriminate.
Defined.

(** ** Counters and clock positions do not reach the transcript *)

Ltac sim_auto :=
  match goal with
  | H : same_core _ _ _ _ |- same_core _ _ _ _ =>
      let Hs := fresh "Hs" in
      let Hp := fresh "Hp" in
      let Ha := fresh "Ha" in
      let Hh := fresh "Hh" in
      let Hi := fresh "Hi" in
      let Hg := fresh "Hg" in
      let Hc := fresh "Hc" in
      destruct H as (Hs & Hp & Ha & Hh & Hi & Hg & Hc);
      unfold same_core; fields;
      rewrite ?Hs, ?Hp, ?Ha, ?Hh, ?Hi, ?Hg;
      split_and!; (done || exact Hc)
  end.

Section Simulation.
Variable cfg : Config.
Variables clk1 clk2 : nat -> Q.

Lemma read_clock_sim (st1 st2 : State) :
  same_core clk1 clk2 st1 st2 ->
  (read_clock clk1 st1).1 = (read_clock clk2 st2).1
  /\ same_core clk1 clk2 (read_clock clk1 st1).2 (read_clock clk2 st2).2.
Proof.
  intros (Hs & Hp & Ha & Hh & Hi & Hg & Hc). unfold read_clock. cbn [fst snd].
  split.
  - specialize (Hc O). by rewrite !Nat.add_0_r in Hc.
  - unfold same_core. fields. split_and!; try done.
    intros k. specialize (Hc (S k)). by rewrite <- !Nat.add_succ_comm in Hc.
Qed.

Lemma resolve_now_sim (now_ms : option Z) (st1 st2 : State) :
  same_core clk1 clk2 st1 st2 ->
  (resolve_now clk1 now_ms st1).1 = (resolve_now clk2 now_ms st2).1
  /\ same_core clk1 clk2 (resolve_now clk1 now_ms st1).2
       (resolve_now clk2 now_ms st2).2.
Proof.
  intros H. destruct now_ms as [n|]; [done|]. unfold resolve_now, _now_ms.
  pose proof (read_clock_sim st1 st2 H) as [E H'].
  destruct (read_clock clk1 st1) as [t1 s1], (read_clock clk2 st2) as [t2 s2].
  cbn [fst snd] in *. by subst.
Qed.

Lemma ensure_sim (now_ms : option Z) (st1 st2 : State) :
  same_core clk1 clk2 st1 st2 ->
  same_core clk1 clk2 (_ensure_segment_started clk1 now_ms st1)
    (_ensure_segment_started clk2 now_ms st2).
Proof.
  intros H. unfold _ensure_segment_started.
  pose proof H as (_ & _ & _ & _ & _ & Hg & _). rewrite Hg.
  destruct (segment_started_ms st2); [done|].
  pose proof (resolve_now_sim now_ms st1 st2 H) as [E H'].
  destruct (resolve_now clk1 now_ms st1) as [n1 s1],
           (resolve_now clk2 now_ms st2) as [n2 s2].
  cbn [fst snd] in *. subst. sim_auto.
Qed.

Lemma dedup_sim (toks : list string) (st1 st2 : State) :
  same_core clk1 clk2 st1 st2 ->
  (_deduplicate_before_commit cfg toks st1).1
  = (_deduplicate_before_commit cfg toks st2).1
  /\ same_core clk1 clk2 (_deduplicate_before_commit cfg toks st1).2
       (_deduplicate_before_commit cfg toks st2).2.
Proof.
  intros H. unfold _deduplicate_before_commit.
  pose proof H as (Hs & _). rewrite Hs.
  repeat match goal with
         | |- context [if ?b then _ else _] => destruct b
         end; (split; [done|]); cbn [snd]; sim_auto.
Qed.

Lemma commit_sim (toks : list string) (st1 st2 : State) :
  same_core clk1 clk2 st1 st2 ->
  (commit_filtered cfg toks st1).1 = (commit_filtered cfg toks st2).1
  /\ same_core clk1 clk2 (commit_filtered cfg toks st1).2
       (commit_filtered cfg toks st2).2.
Proof.
  intros H. unfold commit_filtered.
  pose proof (dedup_sim toks st1 st2 H) as [E H'].
  destruct (_deduplicate_before_commit cfg toks st1) as [k1 s1],
           (_deduplicate_before_commit cfg toks st2) as [k2 s2].
  cbn [fst snd] in *. subst. split; [done|]. sim_auto.
Qed.

Lemma promote_walk_sim (pend : list Token) (n1 n2 : nat)
    (batch : list string) (m1 m2 : Metrics) :
  (forall k, clk1 (n1 + k)%nat = clk2 (n2 + k)%nat) ->
  exists pend' batch' n1' n2' m1' m2',
    promote_walk cfg clk1 pend n1 batch m1 = (pend', n1', batch', m1')
    /\ promote_walk cfg clk2 pend n2 batch m2 = (pend', n2', batch', m2')
    /\ forall k, clk1 (n1' + k)%nat = clk2 (n2' + k)%nat.
Proof.
  revert n1 n2 batch m1 m2.
  induction pend as [|t pend IH]; intros n1 n2 batch m1 m2 Hc; simpl.
  - by eexists _, _, _, _, _, _.
  - assert (Hn : clk1 n1 = clk2 n2).
    { specialize (Hc O). by rewrite !Nat.add_0_r in Hc. }
    assert (Hc' : forall k, clk1 (S n1 + k)%nat = clk2 (S n2 + k)%nat).
    { intros k. specialize (Hc (S k)).
      by rewrite <- !Nat.add_succ_comm in Hc. }
    rewrite Hn. destruct (K cfg <=? confirmation_count t); [by apply IH|].
    destruct (T_ms cfg <=? _); [by apply IH|].
    by eexists _, _, _, _, _, _.
Qed.

Lemma promote_sim (now : Z) (st1 st2 : State) :
  same_core clk1 clk2 st1 st2 ->
  (_promote_leftmost_ready cfg clk1 now st1).1
  = (_promote_leftmost_ready cfg clk2 now st2).1
  /\ same_core clk1 clk2 (_promote_leftmost_ready cfg clk1 now st1).2
       (_promote_leftmost_ready cfg clk2 now st2).2.
Proof.
  intros H. unfold _promote_leftmost_ready.
  pose proof H as (_ & Hp & _ & _ & _ & _ & Hc). rewrite Hp.
  destruct (promote_walk_sim (pending_tokens st2) (clock_reads st1)
              (clock_reads st2) [] (metrics st1) (metrics st2) Hc)
    as (pend' & batch' & n1' & n2' & m1' & m2' & -> & -> & Hc').
  assert (H' : same_core clk1 clk2
                 (set_reads n1' (set_metrics m1' (set_pending pend' st1)))
                 (set_reads n2' (set_metrics m2' (set_pending pend' st2)))).
  { destruct H as (Hs & _ & Ha & Hh & Hi & Hg & _).
    unfold same_core. fields. by split_and!. }
  destruct batch'; [done|]. by apply commit_sim.
Qed.

Lemma expire_loop_sim (now : Z) (snaps : list Snapshot) (st1 st2 : State) :
  same_core clk1 clk2 st1 st2 ->
  same_core clk1 clk2 (expire_loop cfg now snaps st1)
    (expire_loop cfg now snaps st2).
Proof.
  revert st1 st2. induction snaps as [|s snaps IH]; intros st1 st2 H; simpl.
  - sim_auto.
  - destruct (expiry_ms s <=? now); [|sim_auto].
    assert (H0 : same_core clk1 clk2 (set_awaiting snaps st1)
                   (set_awaiting snaps st2)) by sim_auto.
    pose proof (commit_sim (map text (tokens s)) _ _ H0) as [E H'].
    destruct (commit_filtered cfg _ (set_awaiting snaps st1)) as [r1 s1],
             (commit_filtered cfg _ (set_awaiting snaps st2)) as [r2 s2].
    cbn [fst snd] in *. subst. apply IH. sim_auto.
Qed.

Lemma build_context_sim (final_tokens : list string) (st1 st2 : State) :
  same_core clk1 clk2 st1 st2 ->
  _build_context_for_final final_tokens st1
  = _build_context_for_final final_tokens st2.
Proof.
  intros (Hs & Hp & Ha & _).
  unfold _build_context_for_final, build_best. by rewrite Hs, Hp, Ha.
Qed.

Lemma break_sim (now_ms : option Z) (st1 st2 : State) :
  same_core clk1 clk2 st1 st2 ->
  same_core clk1 clk2 (force_segment_break cfg clk1 now_ms st1)
    (force_segment_break cfg clk2 now_ms st2).
Proof.
  intros H. unfold force_segment_break.
  pose proof (resolve_now_sim now_ms st1 st2 H) as [E H'].
  destruct (resolve_now clk1 now_ms st1) as [n1 s1],
           (resolve_now clk2 now_ms st2) as [n2 s2].
  cbn [fst snd] in *. subst. unfold _snapshot_pending.
  pose proof H' as (_ & Hp & _). rewrite Hp.
  destruct (pending_tokens s2); sim_auto.
Qed.

Lemma confirm_lcp_sim (l i : nat) (st1 st2 : State) :
  same_core clk1 clk2 st1 st2 ->
  match confirm_lcp clk1 l i st1, confirm_lcp clk2 l i st2 with
  | Some s1, Some s2 => same_core clk1 clk2 s1 s2
  | None, None => True
  | _, _ => False
  end.
Proof.
  revert i st1 st2. induction l as [|l IH]; intros i st1 st2 H; simpl.
  - done.
  - pose proof H as (_ & Hp & _). rewrite Hp.
    destruct (pending_tokens st2 !! i) as [t|]; [|done].
    cbn [mbind option_bind]. unfold read_clock.
    pose proof (read_clock_sim st1 st2 H) as [E H'].
    unfold read_clock in E, H'. cbn [fst snd] in E, H'. rewrite E.
    apply IH. cbn [pending_tokens set_reads]. sim_auto.
Qed.

Lemma append_fresh_sim (toks : list string) (st1 st2 : State) :
  same_core clk1 clk2 st1 st2 ->
  same_core clk1 clk2 (append_fresh clk1 toks st1)
    (append_fresh clk2 toks st2).
Proof.
  revert st1 st2. induction toks as [|tok toks IH]; intros st1 st2 H; simpl.
  - done.
  - pose proof (read_clock_sim st1 st2 H) as [E H'].
    unfold read_clock in E, H'. cbn [fst snd] in E, H'. rewrite E.
    apply IH. sim_auto.
Qed.

Lemma align_sim (cur : list string) (st1 st2 : State) :
  same_core clk1 clk2 st1 st2 ->
  match align_pending clk1 cur st1, align_pending clk2 cur st2 with
  | Some s1, Some s2 => same_core clk1 clk2 s1 s2
  | None, None => True
  | _, _ => False
  end.
Proof.
  intros H. unfold align_pending.
  pose proof H as (_ & Hp & _). rewrite Hp.
  set (l := lcp_len _ _).
  pose proof (confirm_lcp_sim l 0 st1 st2 H) as Hc.
  destruct (confirm_lcp clk1 l 0 st1) as [s1|],
           (confirm_lcp clk2 l 0 st2) as [s2|]; try done.
  cbn [mbind option_bind]. apply append_fresh_sim. sim_auto.
Qed.

Lemma enter_sim (k : MetricKey) (now_ms : option Z) (st1 st2 : State) :
  same_core clk1 clk2 st1 st2 ->
  (enter cfg clk1 k now_ms st1).1 = (enter cfg clk2 k now_ms st2).1
  /\ same_core clk1 clk2 (enter cfg clk1 k now_ms st1).2
       (enter cfg clk2 k now_ms st2).2.
Proof.
  intros H. unfold enter.
  assert (H0 : same_core clk1 clk2 (bump_metric k 1 st1)
                 (bump_metric k 1 st2)) by sim_auto.
  pose proof (resolve_now_sim now_ms _ _ H0) as [E H'].
  destruct (resolve_now clk1 now_ms (bump_metric k 1 st1)) as [n1 s1],
           (resolve_now clk2 now_ms (bump_metric k 1 st2)) as [n2 s2].
  cbn [fst snd] in *. subst. split; [done|].
  unfold _expire_snapshots.
  pose proof (ensure_sim (Some n2) s1 s2 H') as He.
  pose proof He as (_ & _ & Ha & _). rewrite Ha.
  by apply expire_loop_sim.
Qed.

Lemma settle_sim (now : Z) (st1 st2 : State) :
  same_core clk1 clk2 st1 st2 ->
  same_core clk1 clk2 (settle_partial cfg clk1 now st1)
    (settle_partial cfg clk2 now st2).
Proof.
  intros H. unfold settle_partial.
  pose proof (promote_sim now st1 st2 H) as [E H'].
  destruct (_promote_leftmost_ready cfg clk1 now st1) as [r1 s1],
           (_promote_leftmost_ready cfg clk2 now st2) as [r2 s2].
  cbn [fst snd] in *. pose proof H' as (_ & _ & _ & _ & _ & Hg & _).
  rewrite Hg. destruct (segment_started_ms s2) as [g|]; [|done].
  destruct (max_segment_ms cfg <=? now - g); [|done].
  by apply break_sim.
Qed.

Lemma display_sim (fin : bool) (st1 st2 : State) :
  same_core clk1 clk2 st1 st2 ->
  build_display_event fin st1 = build_display_event fin st2.
Proof.
  intros (Hs & Hp & Ha & _ & Hi & _).
  unfold build_display_event, stable_text. by rewrite Hs, Hp, Ha, Hi.
Qed.

Lemma add_partial_sim (txt : string) (now_ms : option Z) (st1 st2 : State) :
  same_core clk1 clk2 st1 st2 ->
  match add_partial cfg clk1 txt now_ms st1,
        add_partial cfg clk2 txt now_ms st2 with
  | Some (e1, s1), Some (e2, s2) => e1 = e2 /\ same_core clk1 clk2 s1 s2
  | None, None => True
  | _, _ => False
  end.
Proof.
  intros H. rewrite !add_partial_phases.
  pose proof (enter_sim TotalPartials now_ms st1 st2 H) as [E H'].
  destruct (enter cfg clk1 TotalPartials now_ms st1) as [n1 s1],
           (enter cfg clk2 TotalPartials now_ms st2) as [n2 s2].
  cbn [fst snd] in *. subst. cbv zeta.
  assert (Hr : same_core clk1 clk2
                 (_record_partial_history cfg (Text.tokenize txt) n2 s1)
                 (_record_partial_history cfg (Text.tokenize txt) n2 s2)).
  { unfold _record_partial_history. sim_auto. }
  pose proof (align_sim (Text.tokenize txt) _ _ Hr) as Ha.
  destruct (align_pending clk1 _ _) as [a1|],
           (align_pending clk2 _ _) as [a2|]; try done.
  cbn [mbind option_bind].
  pose proof (settle_sim n2 a1 a2 Ha) as Hs.
  split; [by apply display_sim|done].
Qed.

End Simulation.

Section SimulationFinal.
Variable cfg : Config.
Variables clk1 clk2 : nat -> Q.

Lemma rescue_sim (idx len_st len_snap : nat) (ov : Z) (st1 st2 : State) :
  same_core clk1 clk2 st1 st2 ->
  match rescue_orphans cfg idx len_st len_snap ov st1,
        rescue_orphans cfg idx len_st len_snap ov st2 with
  | Some (r1, s1), Some (r2, s2) => r1 = r2 /\ same_core clk1 clk2 s1 s2
  | None, None => True
  | _, _ => False
  end.
Proof.
  intros H. unfold rescue_orphans.
  set (left_end := Z.min _ _).
  assert (Hstage : forall (r : nat) (s1 s2 : State),
            same_core clk1 clk2 s1 s2 ->
            match
              (snap ← awaiting_final s1 !! idx;
               st ← match tokens snap with
                    | [] => aw ← deque_remove snap (awaiting_final s1);
                            Some (set_awaiting aw s1)
                    | _ :: _ => Some s1
                    end;
               Some (r, if Nat.ltb 0 r
                        then bump_metric TokensCommittedByFinal (Z.of_nat r)
                               (bump_metric LateFinalHits 1
                                  (bump_metric OrphanRescues (Z.of_nat r) st))
                        else st)),
              (snap ← awaiting_final s2 !! idx;
               st ← match tokens snap with
                    | [] => aw ← deque_remove snap (awaiting_final s2);
                            Some (set_awaiting aw s2)
                    | _ :: _ => Some s2
                    end;
               Some (r, if Nat.ltb 0 r
                        then bump_metric TokensCommittedByFinal (Z.of_nat r)
                               (bump_metric LateFinalHits 1
                                  (bump_metric OrphanRescues (Z.of_nat r) st))
                        else st))
            with
            | Some (r1, s1), Some (r2, s2) =>
                r1 = r2 /\ same_core clk1 clk2 s1 s2
            | None, None => True
            | _, _ => False
            end).
  { intros r s1 s2 Hs. pose proof Hs as (_ & _ & Ha & _). rewrite Ha.
    destruct (awaiting_final s2 !! idx) as [snap|]; [|done].
    cbn [mbind option_bind].
    destruct (tokens snap).
    - destruct (deque_remove snap (awaiting_final s2)) as [aw|]; [|done].
      cbn [mbind option_bind]. split; [done|].
      destruct (Nat.ltb 0 r); sim_auto.
    - cbn [mbind option_bind]. split; [done|].
      destruct (Nat.ltb 0 r); sim_auto. }
  destruct (Z.of_nat len_st <=? left_end).
  - pose proof H as (_ & _ & Ha & _). rewrite Ha.
    destruct (mapM _ (seq 0 _)) as [orphaned|]; [|done].
    cbn [mbind option_bind].
    pose proof (commit_sim cfg clk1 clk2 orphaned st1 st2 H) as [E H'].
    destruct (commit_filtered cfg orphaned st1) as [r1 s1],
             (commit_filtered cfg orphaned st2) as [r2 s2].
    cbn [fst snd] in *. subst.
    pose proof H' as (_ & _ & Ha' & _). rewrite Ha'.
    destruct (awaiting_final s2 !! idx) as [snap|]; [|done].
    cbn [mbind option_bind]. apply Hstage. sim_auto.
  - cbn [mbind option_bind]. by apply Hstage.
Qed.

Lemma reconcile_sim (final_tokens : list string) (now : Z)
    (st1 st2 : State) :
  same_core clk1 clk2 st1 st2 ->
  match reconcile cfg final_tokens now st1,
        reconcile cfg final_tokens now st2 with
  | Some s1, Some s2 => same_core clk1 clk2 s1 s2
  | None, None => True
  | _, _ => False
  end.
Proof.
  intros H. unfold reconcile.
  rewrite (build_context_sim clk1 clk2 final_tokens st1 st2 H).
  destruct (_build_context_for_final final_tokens st2)
    as [[[[ctx idx] len_st] len_snap] len_pend].
  set (m := _longest_suffix_prefix ctx final_tokens).
  set (ov := Z.of_nat (length ctx) - Z.of_nat m).
  assert (Hr :
    match
      match idx with
      | Some idx =>
          if Nat.ltb 0 len_snap
          then rescue_orphans cfg idx len_st len_snap ov st1
          else Some (O, st1)
      | None => Some (O, st1)
      end,
      match idx with
      | Some idx =>
          if Nat.ltb 0 len_snap
          then rescue_orphans cfg idx len_st len_snap ov st2
          else Some (O, st2)
      | None => Some (O, st2)
      end
    with
    | Some (r1, s1), Some (r2, s2) => r1 = r2 /\ same_core clk1 clk2 s1 s2
    | None, None => True
    | _, _ => False
    end).
  { destruct idx as [i|]; [|done].
    destruct (Nat.ltb 0 len_snap); [|done]. by apply rescue_sim. }
  destruct (match idx with Some _ => _ | None => _ end) as [[r1 s1]|],
           (match idx with Some _ => _ | None => _ end) as [[r2 s2]|];
    try done.
  destruct Hr as [-> Hs]. cbn [mbind option_bind].
  destruct (drop m final_tokens) as [|x rest]; [sim_auto|].
  pose proof (dedup_sim cfg clk1 clk2 (x :: rest) s1 s2 Hs) as [E H'].
  destruct (_deduplicate_before_commit cfg (x :: rest) s1) as [k1 d1],
           (_deduplicate_before_commit cfg (x :: rest) s2) as [k2 d2].
  cbn [fst snd] in *. subst. sim_auto.
Qed.

Lemma add_final_sim (txt : string) (now_ms : option Z) (st1 st2 : State) :
  same_core clk1 clk2 st1 st2 ->
  match add_final cfg clk1 txt now_ms st1,
        add_final cfg clk2 txt now_ms st2 with
  | Some (e1, s1), Some (e2, s2) => e1 = e2 /\ same_core clk1 clk2 s1 s2
  | None, None => True
  | _, _ => False
  end.
Proof.
  intros H. rewrite !add_final_phases.
  pose proof (enter_sim cfg clk1 clk2 TotalFinals now_ms st1 st2 H)
    as [E H'].
  destruct (enter cfg clk1 TotalFinals now_ms st1) as [n1 s1],
           (enter cfg clk2 TotalFinals now_ms st2) as [n2 s2].
  cbn [fst snd] in *. subst.
  destruct (Text.tokenize txt) as [|tok toks].
  - cbv zeta. pose proof (break_sim cfg clk1 clk2 (Some n2) s1 s2 H') as Hb.
    split; [by apply display_sim with clk1 clk2|done].
  - pose proof (reconcile_sim (tok :: toks) n2 s1 s2 H') as Hr.
    destruct (reconcile cfg (tok :: toks) n2 s1) as [r1|],
             (reconcile cfg (tok :: toks) n2 s2) as [r2|]; try done.
    cbn [mbind option_bind].
    split; [by apply display_sim with clk1 clk2|done].
Qed.

Lemma step_sim (op : Op) (st1 st2 : State) :
  same_core clk1 clk2 st1 st2 ->
  match step cfg clk1 op st1, step cfg clk2 op st2 with
  | Some (o1, s1), Some (o2, s2) =>
      shown o1 = shown o2 /\ same_core clk1 clk2 s1 s2
  | None, None => True
  | _, _ => False
  end.
Proof.
  intros H. destruct op as [txt now|txt now|now|fin| |]; cbn [step].
  - pose proof (add_partial_sim cfg clk1 clk2 txt now st1 st2 H) as Hs.
    destruct (add_partial cfg clk1 txt now st1) as [[e1 s1]|],
             (add_partial cfg clk2 txt now st2) as [[e2 s2]|]; try done.
    cbn [mbind option_bind]. destruct Hs as [-> Hs]. done.
  - pose proof (add_final_sim txt now st1 st2 H) as Hs.
    destruct (add_final cfg clk1 txt now st1) as [[e1 s1]|],
             (add_final cfg clk2 txt now st2) as [[e2 s2]|]; try done.
    cbn [mbind option_bind]. destruct Hs as [-> Hs]. done.
  - split; [done|]. by apply break_sim.
  - split; [|done]. cbn [shown]. f_equal.
    by apply display_sim with clk1 clk2.
  - done.
  - split; [done|]. unfold reset. sim_auto.
Qed.

(** Sessions from two accumulators with the same core run alike. *)
Lemma run_sim (ops : list Op) (st1 st2 : State) :
  same_core clk1 clk2 st1 st2 ->
  match run cfg clk1 ops st1, run cfg clk2 ops st2 with
  | Some (o1, s1), Some (o2, s2) =>
      map shown o1 = map shown o2 /\ same_core clk1 clk2 s1 s2
  | None, None => True
  | _, _ => False
  end.
Proof.
  revert st1 st2. induction ops as [|op ops IH]; intros st1 st2 H; simpl.
  - done.
  - pose proof (step_sim op st1 st2 H) as Hs.
    destruct (step cfg clk1 op st1) as [[o1 s1]|],
             (step cfg clk2 op st2) as [[o2 s2]|]; try done.
    cbn [mbind option_bind]. destruct Hs as [Eo Hs].
    specialize (IH s1 s2 Hs).
    destruct (run cfg clk1 ops s1) as [[os1 r1]|],
             (run cfg clk2 ops s2) as [[os2 r2]|]; try done.
    cbn [mbind option_bind]. destruct IH as [Eos Hr].
    split; [|done]. cbn [map]. by rewrite Eo, Eos.
Qed.

End SimulationFinal.

Section Sessions2.
Variable cfg : Config.

(** X21.  Counters and clock positions do not reach the transcript: two
    accumulators that agree on [stable], pending, the snapshots, the
    partial history, the segment id and the segment start, and whose
    clocks agree from where each stands, answer any session with the same
    display events, both returning or both failing, and agree in the same
    way afterwards, whatever their counters. *)
Theorem same_core_runs_alike (clk1 clk2 : nat -> Q) (ops : list Op)
    (st1 st2 : State) (outs1 : list Out) (st1' : State) :
  same_core clk1 clk2 st1 st2 ->
  run cfg clk1 ops st1 = Some (outs1, st1') ->
  exists outs2 st2',
    run cfg clk2 ops st2 = Some (outs2, st2')
    /\ map shown outs1 = map shown outs2
    /\ same_core clk1 clk2 st1' st2'.
Proof.
  intros H Hrun. pose proof (run_sim cfg clk1 clk2 ops st1 st2 H) as Hs.
  rewrite Hrun in Hs.
  destruct (run cfg clk2 ops st2) as [[outs2 st2']|]; [|done].
  by exists outs2, st2'.
Qed.

(** X22.  [reset] gives a fresh session: after [reset], whatever came
    before, a session shows the display events that a newly built
    accumulator shows on the same calls with the clock read from the
    same point on, and leaves the same transcript state; only the
    counters remember. *)
Theorem reset_gives_fresh_session (clk : nat -> Q) (ops : list Op)
    (st : State) (outs : list Out) (st' : State) :
  run cfg clk ops (reset st) = Some (outs, st') ->
  exists outs0 st0,
    run cfg (fun k => clk (clock_reads st + k)%nat) ops init_state
    = Some (outs0, st0)
    /\ map shown outs = map shown outs0
    /\ stable st' = stable st0
    /\ pending_tokens st' = pending_tokens st0
    /\ awaiting_final st' = awaiting_final st0
    /\ partial_history st' = partial_history st0
    /\ segment_id st' = segment_id st0
    /\ segment_started_ms st' = segment_started_ms st0.
Proof.
  intros Hrun.
  assert (H : same_core clk (fun k => clk (clock_reads st + k)%nat)
                (reset st) init_state).
  { unfold same_core, reset. fields. cbn. by split_and!. }
  pose proof (run_sim cfg _ _ ops _ _ H) as Hs. rewrite Hrun in Hs.
  destruct (run cfg _ ops init_state) as [[outs0 st0]|]; [|done].
  destruct Hs as (Eo & Hs & Hp & Ha & Hh & Hi & Hg & _).
  exists outs0, st0. by split_and!.
Qed.

End Sessions2.

Lemma same_core_runs_alike_witness :
  match run default_config (fun _ => 0%Q)
          [OpPartial "one two" (Some 0); OpPartial "one two three" None;
           OpFinal "two three four" None]%string
          (set_reads 3 (set_metrics (bump TotalPartials 7 zero_metrics)
                          init_state))
  with
  | Some (outs1, st1') =>
      exists outs2 st2',
        run default_config (fun _ => 0%Q)
          [OpPartial "one two" (Some 0); OpPartial "one two three" None;
           OpFinal "two three four" None]%string
          init_state
        = Some (outs2, st2')
        /\ map shown outs1 = map shown outs2
        /\ same_core (fun _ => 0%Q) (fun _ => 0%Q) st1' st2'
  | None => False
  end.
Proof.
  destruct (run _ _ _ _) as [[outs1 st1']|] eqn:E.
  - apply (same_core_runs_alike default_config (fun _ => 0%Q) (fun _ => 0%Q)
             [OpPartial "one two" (Some 0); OpPartial "one two three" None;
              OpFinal "two three four" None]%string
             (set_reads 3 (set_metrics (bump TotalPartials 7 zero_metrics)
                             init_state))
             init_state outs1 st1'); [|exact E].
    by repeat split.
  - vm_compute in E. discriminate.
Defined.

Lemma reset_gives_fresh_session_witness :
  match run default_config (fun _ => 0%Q)
          [OpPartial "one two" None; OpPartial "one two three" None]%string
          (reset (set_reads 2 (set_stable ["old"; "words"]%string
                                 init_state)))
  with
  | Some (outs, st') =>
      exists outs0 st0,
        run default_config (fun k => (fun _ => 0%Q) (2 + k)%nat)
          [OpPartial "one two" None; OpPartial "one two three" None]%string
          init_state
        = Some (outs0, st0)
        /\ map shown outs = map shown outs0
        /\ stable st' = stable st0
        /\ pending_tokens st' = pending_tokens st0
        /\ awaiting_final st' = awaiting_final st0
        /\ partial_history st' = partial_history st0
        /\ segment_id st' = segment_id st0
        /\ segment_started_ms st' = segment_started_ms st0
  | None => False
  end.
Proof.
  destruct (run _ _ _ _) as [[outs st']|] eqn:E.
  - apply (reset_gives_fresh_session default_config (fun _ => 0%Q)
             [OpPartial "one two" None; OpPartial "one two three" None]%string
             (set_reads 2 (set_stable ["old"; "words"]%string init_state))
             outs st').
    exact E.
  - vm_compute in E. discriminate.
Defined.

(** ** The partial history *)

Section HistoryFacts.
Variable cfg : Config.
Variable time_fn : nat -> Q.

Lemma drop_older_suffix (c : Z) (h : list TimedText) :
  drop_older c h `suffix_of` h.
Proof.
  induction h as [|e h IH]; simpl; [done|].
  destruct (ts_ms e <? c); [by apply suffix_cons_r|done].
Qed.

Lemma drop_older_recent (c : Z) (h : list TimedText) :
  StronglySorted Z.le (ts_ms <$> h) ->
  Forall (fun e => c <= ts_ms e) (drop_older c h).
Proof.
  induction h as [|e h IH]; [constructor|].
  rewrite fmap_cons. intros [Hall Hs]%StronglySorted_cons.
  cbn [drop_older].
  destruct (Z.ltb_spec (ts_ms e) c) as [Hlt|Hge]; [by apply IH|].
  constructor; [done|]. rewrite Forall_fmap in Hall.
  eapply Forall_impl; [exact Hall|]. simpl. intros x Hx. lia.
Qed.

Lemma drop_older_last (c : Z) (h : list TimedText) (e : TimedText) :
  c <= ts_ms e -> last (drop_older c (h ++ [e])) = Some e.
Proof.
  intros He. induction h as [|x h IH]; simpl.
  - destruct (Z.ltb_spec (ts_ms e) c); [lia|done].
  - destruct (ts_ms x <? c); [done|].
    change (x :: h ++ [e]) with ((x :: h) ++ [e]). apply last_snoc.
Qed.

(** What [add_partial] does to the history: it records the partial and
    drops the leading entries older than the window. *)
Lemma add_partial_history (txt : string) (now_ms : option Z) (st : State) :
  exists ev st',
    add_partial cfg time_fn txt now_ms st = Some (ev, st')
    /\ partial_history st'
       = drop_older
           (logical_now time_fn now_ms st - partial_history_window_ms cfg)
           (partial_history st
            ++ [mkTimedText (logical_now time_fn now_ms st)
                  (Text.tokenize txt)]).
Proof.
  rewrite add_partial_phases.
  destruct (enter_effect cfg time_fn TotalPartials now_ms st)
    as (added & m & rest & started & -> & _).
  cbv zeta. rewrite align_pending_effect. cbn [mbind option_bind].
  set (st3 := set_reads _ _). eexists _, _. split; [reflexivity|].
  destruct (settle_partial_cases cfg time_fn (logical_now time_fn now_ms st)
              st3) as [[-> _]|[-> _]].
  - destruct (promote_effect cfg time_fn (logical_now time_fn now_ms st) st3)
      as (k & kept & m' & -> & _).
    done.
  - rewrite force_segment_break_effect. cbn [partial_history].
    destruct (promote_effect cfg time_fn (logical_now time_fn now_ms st) st3)
      as (k & kept & m' & -> & _).
    done.
Qed.

Lemma add_final_history (txt : string) (now_ms : option Z) (st : State) :
  exists ev st',
    add_final cfg time_fn txt now_ms st = Some (ev, st')
    /\ partial_history st' = partial_history st.
Proof.
  rewrite add_final_phases.
  destruct (enter_effect cfg time_fn TotalFinals now_ms st)
    as (added & m & rest & started & -> & _).
  destruct (Text.tokenize txt) as [|tok toks].
  - cbv zeta. rewrite force_segment_break_effect. by eexists _, _.
  - set (st1 := mkState _ _ _ _ _ _ _ _).
    destruct (reconcile_effect cfg (tok :: toks)
                (logical_now time_fn now_ms st) st1)
      as (kept & m' & aw & -> & _).
    by eexists _, _.
Qed.

Lemma history_inv_later (t t' : Z) (st : State) :
  t <= t' -> history_inv t st -> history_inv t' st.
Proof.
  intros Ht [Hs Hall]. split; [done|].
  eapply Forall_impl; [exact Hall|]. simpl. intros x Hx. lia.
Qed.

Lemma history_inv_same (t : Z) (st st' : State) :
  partial_history st' = partial_history st ->
  history_inv t st -> history_inv t st'.
Proof. unfold history_inv. by intros ->. Qed.

Lemma record_history_inv (t now : Z) (toks : list string)
    (h : list TimedText) :
  StronglySorted Z.le (ts_ms <$> h) ->
  Forall (fun e => e <= t) (ts_ms <$> h) ->
  t <= now ->
  let h' := drop_older (now - partial_history_window_ms cfg)
              (h ++ [mkTimedText now toks]) in
  StronglySorted Z.le (ts_ms <$> h')
  /\ Forall (fun e => e <= now) (ts_ms <$> h')
  /\ Forall (fun e => now - partial_history_window_ms cfg <= ts_ms e) h'.
Proof.
  intros Hs Hall Ht h'.
  assert (Hs' : StronglySorted Z.le (ts_ms <$> h ++ [mkTimedText now toks])).
  { rewrite fmap_app. apply StronglySorted_app_2; [|done|by repeat constructor].
    intros x1 x2 Hx1 Hx2. rewrite Forall_forall in Hall.
    specialize (Hall x1 Hx1). cbn in Hx2.
    apply list_elem_of_singleton in Hx2 as ->. lia. }
  assert (Hall' : Forall (fun e => e <= now)
                    (ts_ms <$> h ++ [mkTimedText now toks])).
  { rewrite fmap_app. apply Forall_app. split.
    - eapply Forall_impl; [exact Hall|]. simpl. intros x Hx. lia.
    - repeat constructor. simpl. lia. }
  destruct (drop_older_suffix (now - partial_history_window_ms cfg)
              (h ++ [mkTimedText now toks])) as [pre Hpre].
  fold h' in Hpre. split_and!.
  - rewrite Hpre, fmap_app in Hs'. by apply StronglySorted_app_1_r in Hs'.
  - rewrite Hpre, fmap_app in Hall'. by apply Forall_app in Hall' as [_ ?].
  - by apply drop_older_recent.
Qed.

Lemma step_history_inv (op : Op) (out : Out) (st st' : State) (t : Z) :
  history_inv t st ->
  step cfg time_fn op st = Some (out, st') ->
  Forall (Z.le t) (op_time time_fn op st) ->
  history_inv (default t (head (op_time time_fn op st))) st'.
Proof.
  intros Hinv Hstep Ht.
  destruct op as [txt now|txt now|now|fin| |]; cbn [step] in Hstep;
    cbn [op_time head default] in *.
  - apply Forall_cons in Ht as [Ht _].
    destruct (add_partial_history txt now st) as (ev & st1 & E & Hh).
    rewrite E in Hstep. injection Hstep as _ <-.
    destruct Hinv as [Hs Hall].
    destruct (record_history_inv t (logical_now time_fn now st)
                (Text.tokenize txt) (partial_history st) Hs Hall Ht)
      as (Hs' & Hall' & _).
    unfold history_inv. rewrite Hh. done.
  - apply Forall_cons in Ht as [Ht _].
    destruct (add_final_history txt now st) as (ev & st1 & E & Hh).
    rewrite E in Hstep. injection Hstep as _ <-.
    apply (history_inv_later t); [done|]. by apply (history_inv_same t st).
  - apply Forall_cons in Ht as [Ht _]. injection Hstep as _ <-.
    apply (history_inv_later t); [done|]. apply (history_inv_same t st); [|done].
    by rewrite force_segment_break_effect.
  - by injection Hstep as _ <-.
  - by injection Hstep as _ <-.
  - injection Hstep as _ <-. split; constructor.
Qed.

Lemma run_history_inv (ops : list Op) (outs : list Out) (st st' : State)
    (t next : Z) :
  history_inv t st ->
  StronglySorted Z.le (t :: timeline cfg time_fn ops st ++ [next]) ->
  run cfg time_fn ops st = Some (outs, st') ->
  exists t', history_inv t' st' /\ t' <= next.
Proof.
  revert outs st t. induction ops as [|op ops IH]; intros outs st t Hinv.
  - simpl. intros Hs [= _ <-]. exists t. split; [done|].
    apply StronglySorted_cons in Hs as [Hall _].
    by apply Forall_cons in Hall as [? _].
  - cbn [timeline run].
    destruct (step cfg time_fn op st) as [[o st1]|] eqn:E; [|done].
    cbn [mbind option_bind].
    destruct (run cfg time_fn ops st1) as [[os st2]|] eqn:E'; [|done].
    cbn [mbind option_bind]. intros Hs [= _ <-].
    apply StronglySorted_cons in Hs as [Hall Hs].
    rewrite <- app_assoc in Hall, Hs.
    assert (Hhere : Forall (Z.le t) (op_time time_fn op st))
      by (by apply Forall_app in Hall as [? _]).
    pose proof (step_history_inv op o st st1 t Hinv E Hhere) as Hinv1.
    eapply (IH os st1 _ Hinv1); [|done].
    destruct (op_time time_fn op st) as [|now [|]] eqn:Et.
    + simpl in *. apply StronglySorted_cons. by split.
    + simpl in *. done.
    + destruct op; simpl in Et; discriminate.
Qed.

(** X23.  The partial history stays within its window.  In a session
    from a fresh accumulator whose calls come at non-decreasing logical
    times, when [add_partial] returns at time [now] the history is in
    time order and every entry is dated between
    [now - partial_history_window_ms] and [now]; with a non-negative
    window its last entry is the partial just given.  [add_final] and a
    break leave the history alone. *)
Theorem partial_history_within_window (ops : list Op) (outs : list Out)
    (st : State) (txt : string) (now_ms : option Z) :
  run cfg time_fn ops init_state = Some (outs, st) ->
  StronglySorted Z.le
    (timeline cfg time_fn ops init_state ++ [logical_now time_fn now_ms st]) ->
  let now := logical_now time_fn now_ms st in
  (exists ev st',
     add_partial cfg time_fn txt now_ms st = Some (ev, st')
     /\ StronglySorted Z.le (ts_ms <$> partial_history st')
     /\ Forall (fun e => now - partial_history_window_ms cfg <= ts_ms e <= now)
          (partial_history st')
     /\ (0 <= partial_history_window_ms cfg ->
         last (partial_history st')
         = Some (mkTimedText now (Text.tokenize txt))))
  /\ (exists ev st',
        add_final cfg time_fn txt now_ms st = Some (ev, st')
        /\ partial_history st' = partial_history st)
  /\ partial_history (force_segment_break cfg time_fn now_ms st)
     = partial_history st.
Proof.
  intros Hrun Hsorted now.
  split; [|split; [apply add_final_history
                  |by rewrite force_segment_break_effect]].
  assert (exists t, history_inv t st /\ t <= now) as (t & [Hs Hall] & Ht).
  { destruct (timeline cfg time_fn ops init_state) as [|t0 tl] eqn:Etl.
    - destruct ops as [|op ops'].
      + injection Hrun as _ <-. exists now. split; [|lia].
        split; constructor.
      + apply (run_history_inv (op :: ops') outs init_state st now now);
          [split; constructor| |done].
        rewrite Etl. by repeat constructor.
    - apply (run_history_inv ops outs init_state st t0 now);
        [split; constructor| |done].
      rewrite Etl. cbn [app] in *. pose proof Hsorted as Hsorted'.
      apply StronglySorted_cons in Hsorted as [Hall Hs'].
      apply StronglySorted_cons. split; [|done].
      constructor; [lia|done]. }
  destruct (add_partial_history txt now_ms st) as (ev & st' & E & Hh).
  exists ev, st'. split; [done|]. rewrite Hh. fold now.
  destruct (record_history_inv t now (Text.tokenize txt) (partial_history st)
              Hs Hall Ht) as (Hs' & Hall' & Hrecent).
  split_and!; [done| |].
  - rewrite Forall_fmap in Hall'. rewrite Forall_forall in *.
    intros e He. specialize (Hall' e He). specialize (Hrecent e He).
    simpl in Hall'. lia.
  - intros Hw. apply drop_older_last. simpl. lia.
Qed.

End HistoryFacts.

Lemma partial_history_within_window_witness :
  match run default_config (fun _ => 0%Q)
          [OpPartial "a b" (Some 0); OpPartial "a b c" (Some 20000)]%string
          init_state
  with
  | Some (_, st) =>
      (exists ev st',
         add_partial default_config (fun _ => 0%Q) "d" (Some 40000) st
         = Some (ev, st')
         /\ StronglySorted Z.le (ts_ms <$> partial_history st')
         /\ Forall (fun e => 40000 - 30000 <= ts_ms e <= 40000)
              (partial_history st')
         /\ (0 <= 30000 ->
             last (partial_history st')
             = Some (mkTimedText 40000 (Text.tokenize "d"))))
      /\ (exists ev st',
            add_final default_config (fun _ => 0%Q) "d" (Some 40000) st
            = Some (ev, st')
            /\ partial_history st' = partial_history st)
      /\ partial_history
           (force_segment_break default_config (fun _ => 0%Q) (Some 40000) st)
         = partial_history st
  | None => False
  end.
Proof.
  destruct (run _ _ _ _) as [[outs st]|] eqn:E.
  - apply (partial_history_within_window default_config (fun _ => 0%Q)
             [OpPartial "a b" (Some 0);
              OpPartial "a b c" (Some 20000)]%string
             outs st "d" (Some 40000)).
    + exact E.
    + vm_compute. repeat constructor; discriminate.
  - vm_compute in E. discriminate.
Defined.
